(** * YouTube cue point editor: the sync engine, the cue registry and
      the keyboard dispatch, embedded from the React sources

    Sources embedded here:
    - [frontend/src/hooks/useVideoSync.js]
      (modules [VideoSync], [SyncStatus])
    - [frontend/src/components/CuePointEditor.jsx]
      (modules [CuePointEditor], [CueRegistry])
    - [frontend/src/hooks/useCueKeyboardMap.js]
      (modules [CueKeyboardMap], [CueKeyboardRuns]; the calculation of
      the test suite that follows the hook is in [SyncStatus])
    - [frontend/src/components/CuePointGrid.jsx] (module [CuePointGrid])
    - the component [UnifiedVideoEditor], file [unnamed/part_002]
      (modules [UnifiedVideoEditor], [WaveformPlayer])
    - [frontend/src/components/WaveformPlayer.jsx] (module [WaveformPlayer])

    Conventions of the embedding.
    - A JavaScript number is an exact rational ([Q]); rounding of IEEE
      doubles, infinities and [NaN] are outside the model, except for
      [video.duration], whose [NaN] (metadata not loaded) the source
      guards against and which is therefore an [option Q].
    - A React ref is a field of an explicit state record which every hook
      function takes and returns.
    - Host readings ([performance.now()], [Date.now()],
      [context.currentTime]) are arguments or state fields set by the
      environment. *)

From Stdlib Require Import QArith Qminmax Qabs Qround Lqa Lia ZArith.
From Stdlib Require Import List String Ascii Sorted Permutation.
From stdpp Require Import base gmap strings list pretty.

(** ** JavaScript numerics over [Q] *)

Module JS.

Local Open Scope Q_scope.

(** [x < y] as a boolean. *)
Definition Qltb (x y : Q) : bool := negb (Qle_bool y x).

(** [Math.max], [Math.min], [Math.abs]. *)
Definition max (x y : Q) : Q := Qmax x y.
Definition min (x y : Q) : Q := Qmin x y.
Definition abs (x : Q) : Q := Qabs x.

(** [Math.round]: the nearest integer, halves rounded towards +infinity. *)
Definition round (x : Q) : Z := Qfloor (x + (1 # 2)).

(** Truthiness of a number: every number but zero. *)
Definition truthy_num (x : Q) : bool := negb (Qeq_bool x 0).

(** [arr.reduce((a, b) => a + b, 0)]. *)
Definition sum (l : list Q) : Q := fold_left Qplus l 0%Q.

End JS.

(** ** useVideoSync.js *)

Module VideoSync.

Local Open Scope Q_scope.

(** The part of an [HTMLVideoElement] the hook touches. [None] as duration
    is [NaN]. *)
Record video := mkVideo {
  video_currentTime : Q;
  video_duration : option Q
}.

(** The part of an [AudioContext] the hook touches. *)
Record context := mkContext {
  ctx_currentTime : Q
}.

(** [statsRef.current]. *)
Record stats := mkStats {
  corrections : nat;
  maxDrift : Q;
  avgDrift : Q;
  driftHistory : list Q
}.

(** The refs of one hook instance. [None] is [null] (no element, no
    context, no start time). [periodicTimeoutRef] holds whether a timeout
    is pending. *)
Record refs := mkRefs {
  videoElementRef : option video;
  audioStartTimeRef : option Q;
  cueOffsetRef : Q;
  contextRef : option context;
  isPlayingRef : bool;
  lastCorrectionTimeRef : Q;
  statsRef : stats;
  isActiveRef : bool;
  periodicTimeoutRef : bool
}.

Definition emptyStats : stats := mkStats 0%nat 0 0 [].

(** The refs on mount, for the props of the first render. *)
Definition mount (v : option video) (start : option Q) (offset : Q)
    (ctx : option context) (playing : bool) : refs :=
  mkRefs v start offset ctx playing 0 emptyStats false false.

Definition set_video (r : refs) (v : option video) : refs :=
  mkRefs v (audioStartTimeRef r) (cueOffsetRef r) (contextRef r)
    (isPlayingRef r) (lastCorrectionTimeRef r) (statsRef r) (isActiveRef r)
    (periodicTimeoutRef r).

Definition set_context (r : refs) (c : option context) : refs :=
  mkRefs (videoElementRef r) (audioStartTimeRef r) (cueOffsetRef r) c
    (isPlayingRef r) (lastCorrectionTimeRef r) (statsRef r) (isActiveRef r)
    (periodicTimeoutRef r).

Definition set_session (r : refs) (start : option Q) (offset : Q) : refs :=
  mkRefs (videoElementRef r) start offset (contextRef r)
    (isPlayingRef r) (lastCorrectionTimeRef r) (statsRef r) (isActiveRef r)
    (periodicTimeoutRef r).

Definition set_isPlaying (r : refs) (b : bool) : refs :=
  mkRefs (videoElementRef r) (audioStartTimeRef r) (cueOffsetRef r)
    (contextRef r) b (lastCorrectionTimeRef r) (statsRef r) (isActiveRef r)
    (periodicTimeoutRef r).

Definition set_stats (r : refs) (s : stats) : refs :=
  mkRefs (videoElementRef r) (audioStartTimeRef r) (cueOffsetRef r)
    (contextRef r) (isPlayingRef r) (lastCorrectionTimeRef r) s
    (isActiveRef r) (periodicTimeoutRef r).

Definition set_active (r : refs) (active timeout : bool) : refs :=
  mkRefs (videoElementRef r) (audioStartTimeRef r) (cueOffsetRef r)
    (contextRef r) (isPlayingRef r) (lastCorrectionTimeRef r) (statsRef r)
    active timeout.

(** Minimum time between corrections, in milliseconds. *)
Definition CORRECTION_THROTTLE_MS : Q := 100.

(** The hook's default for [driftThreshold], in seconds. *)
Definition driftThreshold_default : Q := 5 # 100.

(** The literal [0.01] of [correctVideoTime]. *)
Definition epsilon : Q := 1 # 100.

(** [calculateExpectedVideoTime]. *)
Definition calculateExpectedVideoTime (r : refs) : Q :=
  match contextRef r, audioStartTimeRef r with
  | Some ctx, Some startTime =>
      let audioElapsed := ctx_currentTime ctx - startTime in
      let expectedTime := cueOffsetRef r + audioElapsed in
      JS.max 0 expectedTime
  | _, _ => 0
  end.

(** The statistics update inside [calculateDrift]: push, shift beyond 100
    entries, running maximum, mean of the kept entries. *)
Definition recordDrift (s : stats) (drift : Q) : stats :=
  let pushed := driftHistory s ++ [JS.abs drift] in
  let history :=
    if (100 <? length pushed)%nat then tail pushed else pushed in
  mkStats (corrections s)
    (JS.max (maxDrift s) (JS.abs drift))
    (JS.sum history / inject_Z (Z.of_nat (length history)))
    history.

(** [calculateDrift]: the drift and the refs with updated statistics. *)
Definition calculateDrift (r : refs) : Q * refs :=
  match videoElementRef r with
  | None => (0, r)
  | Some video =>
      let expectedTime := calculateExpectedVideoTime r in
      let actualTime := video_currentTime video in
      let drift := actualTime - expectedTime in
      (drift, set_stats r (recordDrift (statsRef r) drift))
  end.

(** [video.duration || expectedTime]. *)
Definition duration_or (d : option Q) (expectedTime : Q) : Q :=
  match d with
  | Some d => if JS.truthy_num d then d else expectedTime
  | None => expectedTime
  end.

(** [correctedTime]: [Math.min(expectedTime, video.duration ||
    expectedTime)]. *)
Definition correctionTarget (v : video) (r : refs) : Q :=
  let expectedTime := calculateExpectedVideoTime r in
  JS.min expectedTime (duration_or (video_duration v) expectedTime).

(** The refs after the assignments of an applied correction. *)
Definition applyCorrection (r : refs) (video : video) (correctedTime now : Q)
    : refs :=
  let s := statsRef r in
  mkRefs (Some (mkVideo correctedTime (video_duration video)))
    (audioStartTimeRef r) (cueOffsetRef r) (contextRef r) (isPlayingRef r)
    now
    (mkStats (S (corrections s)) (maxDrift s) (avgDrift s) (driftHistory s))
    (isActiveRef r) (periodicTimeoutRef r).

(** [correctVideoTime]. [now] is [performance.now()]; [seekThrows] says
    whether the assignment to [video.currentTime] raises, which the
    [try]/[catch] of the source absorbs. *)
Definition correctVideoTime (driftThreshold : Q) (now : Q) (seekThrows : bool)
    (r : refs) : bool * refs :=
  match videoElementRef r, contextRef r with
  | Some video, Some _ =>
      let timeSinceLastCorrection := now - lastCorrectionTimeRef r in
      if JS.Qltb timeSinceLastCorrection CORRECTION_THROTTLE_MS then (false, r)
      else
        let '(drift, r1) := calculateDrift r in
        let absDrift := JS.abs drift in
        if JS.Qltb driftThreshold absDrift then
          let correctedTime := correctionTarget video r1 in
          if Qle_bool 0 correctedTime
             && JS.Qltb epsilon
                  (JS.abs (correctedTime - video_currentTime video))
          then
            if seekThrows then (false, r1)
            else (true, applyCorrection r1 video correctedTime now)
          else (false, r1)
        else (false, r1)
  | _, _ => (false, r)
  end.

(** [periodicDriftCheck]: the 2-second watchdog. *)
Definition periodicDriftCheck (driftThreshold : Q) (now : Q)
    (seekThrows : bool) (r : refs) : bool * refs :=
  let r := set_active r (isActiveRef r) false in
  if negb (isActiveRef r) || negb (isPlayingRef r) then (false, r)
  else
    let '(drift, r1) := calculateDrift r in
    let absDrift := JS.abs drift in
    let '(applied, r2) :=
      if JS.Qltb (driftThreshold * 2) absDrift
      then correctVideoTime driftThreshold now seekThrows r1
      else (false, r1) in
    if isActiveRef r2 && isPlayingRef r2
    then (applied, set_active r2 (isActiveRef r2) true)
    else (applied, r2).

(** [startSync]. *)
Definition startSync (r : refs) : refs :=
  match videoElementRef r, contextRef r with
  | Some _, Some _ => set_active (set_stats r emptyStats) true true
  | _, _ => r
  end.

(** [stopSync]. *)
Definition stopSync (r : refs) : refs :=
  if negb (isActiveRef r) then r else set_active r false false.

(** [forceSync]. *)
Definition forceSync (driftThreshold : Q) (now : Q) (seekThrows : bool)
    (r : refs) : bool * refs :=
  match videoElementRef r, contextRef r with
  | Some _, Some _ => correctVideoTime driftThreshold now seekThrows r
  | _, _ => (false, r)
  end.

(** The lifecycle effect on [isPlaying], [videoElement], [context],
    [audioStartTime]: the cleanup of the previous run, then start or stop. *)
Definition lifecycleEffect (r : refs) : refs :=
  let r := stopSync r in
  match isPlayingRef r, videoElementRef r, contextRef r, audioStartTimeRef r
  with
  | true, Some _, Some _, Some _ => startSync r
  | _, _, _, _ => stopSync r
  end.

(** The effect on [cueOffset]/[audioStartTime]: a forced sync while playing
    with an element and a context. *)
Definition cueChangeEffect (driftThreshold : Q) (now : Q) (seekThrows : bool)
    (r : refs) : bool * refs :=
  match isPlayingRef r, videoElementRef r, contextRef r with
  | true, Some _, Some _ => forceSync driftThreshold now seekThrows r
  | _, _, _ => (false, r)
  end.

(** Whether two values of the [audioStartTime] prop are the same. *)
Definition sameStart (a b : option Q) : bool :=
  match a, b with
  | Some x, Some y => Qeq_bool x y
  | None, None => true
  | _, _ => false
  end.

(** A cue point jump as the hook sees it, a render with a new
    [audioStartTime] and [cueOffset]: the ref-updating effects store them,
    the lifecycle effect runs again if [audioStartTime] changed, then the
    cue-change effect runs. *)
Definition jump (driftThreshold : Q) (audioStartTime : option Q)
    (cueOffset : Q) (now : Q) (seekThrows : bool) (r : refs)
    : bool * refs :=
  let restart := negb (sameStart (audioStartTimeRef r) audioStartTime) in
  let r := set_session r audioStartTime cueOffset in
  let r := if restart then lifecycleEffect r else r in
  cueChangeEffect driftThreshold now seekThrows r.

(** The context's clock reads [now]. *)
Definition at_clock (r : refs) (now : Q) : refs :=
  set_context r (Some (mkContext now)).

(** What can happen to a hook instance: calls of its functions, with the
    host readings they make, and changes the environment makes to what the
    refs point to (the element plays on or is replaced, the audio clock
    advances, the props change). *)
Inductive op :=
| Correct (now : Q) (seekThrows : bool)
| Periodic (now : Q) (seekThrows : bool)
| Force (now : Q) (seekThrows : bool)
| Jump (audioStartTime : option Q) (cueOffset : Q) (now : Q)
    (seekThrows : bool)
| SetVideo (v : option video)
| SetContext (c : option context)
| SetPlaying (b : bool)
| Lifecycle.

(** One operation: whether it applied a correction, and the refs after. *)
Definition step (driftThreshold : Q) (o : op) (r : refs) : bool * refs :=
  match o with
  | Correct now throws => correctVideoTime driftThreshold now throws r
  | Periodic now throws => periodicDriftCheck driftThreshold now throws r
  | Force now throws => forceSync driftThreshold now throws r
  | Jump start offset now throws =>
      jump driftThreshold start offset now throws r
  | SetVideo v => (false, set_video r v)
  | SetContext c => (false, set_context r c)
  | SetPlaying b => (false, set_isPlaying r b)
  | Lifecycle => (false, lifecycleEffect r)
  end.

(** [performance.now()] of an operation that reads it. *)
Definition op_now (o : op) : option Q :=
  match o with
  | Correct now _ | Periodic now _ | Force now _ | Jump _ _ now _ =>
      Some now
  | _ => None
  end.

(** A run of operations: the wall-clock times of the corrections applied,
    oldest first, and the refs at the end. *)
Fixpoint run (driftThreshold : Q) (ops : list op) (r : refs)
    : list Q * refs :=
  match ops with
  | [] => ([], r)
  | o :: rest =>
      let '(applied, r1) := step driftThreshold o r in
      let '(log, r2) := run driftThreshold rest r1 in
      (match applied, op_now o with
       | true, Some now => now :: log
       | _, _ => log
       end, r2)
  end.

(** Successive times, each at least the throttle interval after the one
    before, starting after [last]. *)
Fixpoint spaced_from (last : Q) (log : list Q) : Prop :=
  match log with
  | [] => True
  | t :: rest => CORRECTION_THROTTLE_MS <= t - last /\ spaced_from t rest
  end.

(** The statistics after the drifts [ds] were recorded one after the other
    since the last reset. *)
Definition recordAll (ds : list Q) : stats :=
  fold_left recordDrift ds emptyStats.

(** The largest of a list of magnitudes (0 for none). *)
Definition maximum (l : list Q) : Q := fold_left JS.max l 0.

(** A position inside [[0, duration]]; no position is inside when the
    duration is [NaN]. *)
Definition within_duration (t : Q) (d : option Q) : Prop :=
  match d with
  | Some d => 0 <= t /\ t <= d
  | None => False
  end.

End VideoSync.

(** ** Strings of the host *)

Module Str.

(** [String.prototype.toLowerCase], on ASCII letters; other characters are
    left as they are. *)
Definition lower_ascii (c : ascii) : ascii :=
  let n := nat_of_ascii c in
  if ((65 <=? n) && (n <=? 90))%nat then ascii_of_nat (n + 32) else c.

Fixpoint toLowerCase (s : string) : string :=
  match s with
  | EmptyString => EmptyString
  | String c s' => String (lower_ascii c) (toLowerCase s')
  end.

(** White space removed by [String.prototype.trim], ASCII part: tab, line
    feed, vertical tab, form feed, carriage return, space. *)
Definition is_space (c : ascii) : bool :=
  let n := nat_of_ascii c in
  ((9 <=? n) && (n <=? 13) || (n =? 32))%nat.

(** [s.trim().length === 0]. *)
Fixpoint is_blank (s : string) : bool :=
  match s with
  | EmptyString => true
  | String c s' => is_space c && is_blank s'
  end.

(** Truthiness of a string: every string but the empty one. *)
Definition truthy (s : string) : bool :=
  match s with EmptyString => false | String _ _ => true end.

(** [n.toString()] of a natural number below ten; [String.fromCharCode]. *)
Definition digit (n : nat) : string :=
  String (ascii_of_nat (48 + n)) EmptyString.
Definition fromCharCode (n : nat) : string :=
  String (ascii_of_nat n) EmptyString.

End Str.

(** ** JSON values, as [JSON.parse] returns them *)

Module Json.

#[local] Unset Elimination Schemes.

Inductive json :=
| JNull
| JBool (b : bool)
| JNum (q : Q)
| JStr (s : string)
| JArr (items : list json)
| JObj (props : list (string * json)).

#[local] Set Elimination Schemes.

(** Property read [o.name]; [None] is [undefined]. *)
Fixpoint get_prop (props : list (string * json)) (name : string)
    : option json :=
  match props with
  | [] => None
  | (k, v) :: rest => if String.eqb k name then Some v else get_prop rest name
  end.

(** Truthiness of a value that may be [undefined]. *)
Definition truthy (v : option json) : bool :=
  match v with
  | None | Some JNull => false
  | Some (JBool b) => b
  | Some (JNum q) => JS.truthy_num q
  | Some (JStr s) => Str.truthy s
  | Some (JArr _) | Some (JObj _) => true
  end.

(** [v || d] for a default [d]. *)
Definition or_default (v : option json) (d : json) : json :=
  match v with
  | Some x => if truthy v then x else d
  | None => d
  end.

End Json.

(** ** CuePointEditor.jsx *)

Module CuePointEditor.

Import Json.

Local Open Scope Q_scope.

(** A cue point of the registry. [key] is the empty string when the cue has
    no key. *)
Record cue := mkCue {
  time : Q;
  label : string;
  key : string;
  sample_rate : Z;
  sample_position : Z
}.

(** [array.sort((a, b) => a.time - b.time)]: the stable sort by ascending
    time, as insertion from the right. *)
Fixpoint insertByTime {A : Type} (t : A -> Q) (x : A) (l : list A)
    : list A :=
  match l with
  | [] => [x]
  | y :: l' =>
      if Qle_bool (t x) (t y) then x :: y :: l'
      else y :: insertByTime t x l'
  end.

Definition sortByTime {A : Type} (t : A -> Q) (l : list A) : list A :=
  fold_right (insertByTime t) [] l.

(** Sorted ascending by time. *)
Definition ascending {A : Type} (t : A -> Q) (l : list A) : Prop :=
  StronglySorted (fun a b => t a <= t b) l.

(** The outcome of [validateCue]: the [errors] object, each message reduced
    to its cause. [err_key] holds [duplicateIndex]. *)
Inductive timeError := TimeNegative | TimeExceedsDuration.

Record errors := mkErrors {
  err_time : option timeError;
  err_label : bool;
  err_key : option nat
}.

(** [Object.keys(errors).length === 0]. *)
Definition no_errors (e : errors) : bool :=
  match err_time e, err_label e, err_key e with
  | None, false, None => true
  | _, _, _ => false
  end.

(** The fields [updateCue] is called with by the component's inputs. *)
Inductive field := FTime | FLabel | FKey.

(** What the component holds: the [cuePoints] prop (replaced by [onUpdate])
    and its own [validationErrors] and [editingId]. *)
Record editor := mkEditor {
  cuePoints : list cue;
  validationErrors : gmap nat errors;
  editingId : option nat
}.

(** Why an import failed: the [catch] of [loadCuesFromJSON]. *)
Inductive loadError :=
| SyntaxError
| NotAnArray
| InvalidCue (index : nat)
| TypeError (index : nat).

(** A cue as [loadCuesFromJSON] builds it: [time] has passed the
    [typeof] test, the other fields are whatever the file held. *)
Record loadedCue := mkLoaded {
  l_time : Q;
  l_label : json;
  l_key : json;
  l_sample_rate : json;
  l_sample_position : json
}.

Inductive loadResult :=
| Loaded (cues : list loadedCue)
| LoadFailed (e : loadError).

(** A registry cue seen as a loaded one. *)
Definition ofCue (c : cue) : loadedCue :=
  mkLoaded (time c) (JStr (label c)) (JStr (key c))
    (JNum (inject_Z (sample_rate c))) (JNum (inject_Z (sample_position c))).

(** The object [JSON.stringify] writes for a cue, and reads back. *)
Definition cueToJson (c : cue) : json :=
  JObj [("time"%string, JNum (time c));
        ("label"%string, JStr (label c));
        ("key"%string, JStr (key c));
        ("sample_rate"%string, JNum (inject_Z (sample_rate c)));
        ("sample_position"%string, JNum (inject_Z (sample_position c)))].

(** [saveCuesToJSON]: the value whose text is offered for download. The
    text itself is not modelled: what [JSON.parse] reads from the text
    [JSON.stringify] wrote for strings and numbers is taken to be what was
    written. *)
Definition saveCuesToJSON (cuePoints : list cue) : json :=
  JArr (map cueToJson cuePoints).

Section Component.

(** The props [audioDuration], [currentTime], [sampleRate]. *)
Variable audioDuration : Q.
Variable currentTime : Q.
Variable sampleRate : Z.

(** [parseTime] on the text of an input: [parseInt]/[parseFloat] of the
    host with [|| 0], so always a number. *)
Variable parseTime : string -> Q.

(** [calculateSamplePosition]. *)
Definition calculateSamplePosition (time : Q) : Z :=
  JS.round (time * inject_Z sampleRate).

(** A cue as [addCue] and the time input of [updateCue] make it: labelled,
    at the sample rate of the editor, with the sample position of its
    time. *)
Definition derived (c : cue) : Prop :=
  label c <> ""%string
  /\ sample_rate c = sampleRate
  /\ sample_position c = calculateSamplePosition (time c).

(** A cue none of whose fields [loadCuesFromJSON] rejects or replaces:
    its label is truthy ([!cue.label] rejects), its sample rate is truthy
    or the default [cue.sample_rate || sampleRate] is that same 0, and its
    sample position is truthy or the default
    [cue.sample_position || calculateSamplePosition(cue.time)] is that
    same 0. This is read off the import, not off [validateCue]: a cue
    that [validateCue] accepts need not be storable. *)
Definition storable (c : cue) : Prop :=
  label c <> ""%string
  /\ (sample_rate c = 0%Z -> sampleRate = 0%Z)
  /\ (sample_position c = 0%Z -> calculateSamplePosition (time c) = 0%Z).

(** [getNextAvailableKey]: the first of "1".."9", "a".."z" no cue uses;
    [random] stands for [Math.random().toString(36).substring(2, 3)]. *)
Definition candidateKeys : list string :=
  map Str.digit (seq 1 9) ++ map Str.fromCharCode (seq 97 26).

Definition getNextAvailableKey (cuePoints : list cue) (random : string)
    : string :=
  let usedKeys := filter (fun k => Str.truthy k = true) (map key cuePoints) in
  match filter (fun k => k ∉ usedKeys) candidateKeys with
  | k :: _ => k
  | [] => random
  end.

(** [cuePoints.findIndex((other, i) => i !== index && other.key === k)],
    scanning [l] whose first element has index [i]. *)
Fixpoint findDuplicateFrom (l : list cue) (k : string) (index i : nat)
    : option nat :=
  match l with
  | [] => None
  | other :: l' =>
      if negb (i =? index)%nat && String.eqb (key other) k
      then Some i else findDuplicateFrom l' k index (S i)
  end.

(** [validateCue]. *)
Definition validateCue (cuePoints : list cue) (c : cue) (index : nat)
    : errors :=
  mkErrors
    (if JS.Qltb (time c) 0 then Some TimeNegative
     else if JS.Qltb audioDuration (time c) then Some TimeExceedsDuration
     else None)
    (negb (Str.truthy (label c)) || Str.is_blank (label c))
    (if Str.truthy (key c)
     then findDuplicateFrom cuePoints (key c) index 0%nat else None).

(** [addCue]. The new cue is not validated. *)
Definition addCue (random : string) (e : editor) : editor :=
  let newCue :=
    mkCue currentTime
      ("Cue " +:+ pretty (length (cuePoints e) + 1)%nat)
      (getNextAvailableKey (cuePoints e) random)
      sampleRate
      (calculateSamplePosition currentTime) in
  let updatedCues := sortByTime time (cuePoints e ++ [newCue]) in
  mkEditor updatedCues (validationErrors e)
    (Some (length updatedCues - 1)%nat).

(** The record [updateCue] builds from the one at [index]. *)
Definition modifiedCue (old : cue) (f : field) (value : string) : cue :=
  match f with
  | FTime =>
      let timeValue := parseTime value in
      mkCue timeValue (label old) (key old) (sample_rate old)
        (calculateSamplePosition timeValue)
  | FLabel =>
      mkCue (time old) value (key old) (sample_rate old) (sample_position old)
  | FKey =>
      mkCue (time old) (label old) value (sample_rate old) (sample_position old)
  end.

(** [updateCue], for the index of a row the component renders. For an
    index outside the array the source builds a record without the other
    fields, which [cue] does not represent: [None]. *)
Definition updateCue (e : editor) (index : nat) (f : field) (value : string)
    : option editor :=
  match cuePoints e !! index with
  | None => None
  | Some old =>
      let cue := modifiedCue old f value in
      let updatedCues := <[index := cue]> (cuePoints e) in
      let errors := validateCue (cuePoints e) cue index in
      let reported := <[index := errors]> (validationErrors e) in
      if no_errors errors then
        let committed :=
          match f with
          | FTime => sortByTime time updatedCues
          | _ => updatedCues
          end in
        Some (mkEditor committed reported (editingId e))
      else Some (mkEditor (cuePoints e) reported (editingId e))
  end.

(** [cuePoints.filter((_, i) => i !== index)]. *)
Fixpoint removeAt {A : Type} (l : list A) (index : nat) : list A :=
  match l, index with
  | [], _ => []
  | _ :: l', O => l'
  | x :: l', S i => x :: removeAt l' i
  end.

(** [deleteCue]. *)
Definition deleteCue (e : editor) (index : nat) : editor :=
  mkEditor (removeAt (cuePoints e) index)
    (delete index (validationErrors e)) None.

(** The body of the [map] callback of [loadCuesFromJSON]: reading a
    property of [null] raises a [TypeError]; on another value that is not an
    object the property is [undefined]. *)
Definition loadCue (index : nat) (v : json) : loadError + loadedCue :=
  match v with
  | JNull => inl (TypeError index)
  | JObj props =>
      match get_prop props "time" with
      | Some (JNum t) =>
          match get_prop props "label" with
          | Some lbl =>
              if truthy (Some lbl) then
                inr (mkLoaded t lbl
                       (or_default (get_prop props "key") (JStr ""))
                       (or_default (get_prop props "sample_rate")
                          (JNum (inject_Z sampleRate)))
                       (or_default (get_prop props "sample_position")
                          (JNum (inject_Z (calculateSamplePosition t)))))
              else inl (InvalidCue index)
          | None => inl (InvalidCue index)
          end
      | _ => inl (InvalidCue index)
      end
  | _ => inl (InvalidCue index)
  end.

(** [loadedCues.map(...)], stopping at the first element that throws. *)
Fixpoint loadCuesFrom (index : nat) (items : list json)
    : loadError + list loadedCue :=
  match items with
  | [] => inr []
  | v :: rest =>
      match loadCue index v with
      | inl err => inl err
      | inr c =>
          match loadCuesFrom (S index) rest with
          | inl err => inl err
          | inr cs => inr (c :: cs)
          end
      end
  end.

(** [loadCuesFromJSON], from the outcome of [JSON.parse] ([None] when it
    throws): the array handed to [onUpdate], or the failure alerted. *)
Definition loadCuesFromJSON (parsed : option json) : loadResult :=
  match parsed with
  | None => LoadFailed SyntaxError
  | Some (JArr items) =>
      match loadCuesFrom 0 items with
      | inl err => LoadFailed err
      | inr validCues => Loaded (sortByTime l_time validCues)
      end
  | Some _ => LoadFailed NotAnArray
  end.

End Component.

End CuePointEditor.

(** ** useCueKeyboardMap.js *)

Module CueKeyboardMap.

Import CuePointEditor.

(** [event.target]: its tag name and [isContentEditable]. *)
Record target := mkTarget {
  tagName : string;
  isContentEditable : bool
}.

(** A [keydown] event. [None] as target is a missing target. *)
Record keyEvent := mkEvent {
  ev_key : string;
  ctrlKey : bool;
  altKey : bool;
  metaKey : bool;
  shiftKey : bool;
  ev_target : option target
}.

(** The hook's defaults for [debounceMs] and [excludeTargets]. *)
Definition debounceMs_default : Z := 100.
Definition excludeTargets_default : list string :=
  ["input"; "textarea"; "select"]%string.

(** The [debounceMs] the editor passes to the hook. *)
Definition debounceMs_editor : Z := 150.

(** An entry of the key map: [{ ...cue, index }]. *)
Abbreviation entry := (cue * nat)%type.

(** [statsRef.current]. *)
Record stats := mkStats {
  totalTriggers : nat;
  triggersByKey : gmap string nat;
  lastTriggerTime : option Z
}.

(** The refs of one hook instance. *)
Record refs := mkRefs {
  lastTriggerRef : gmap string Z;
  keyMapRef : gmap string entry;
  statsRef : stats
}.

Definition mount : refs := mkRefs ∅ ∅ (mkStats 0 ∅ None).

(** One step of the [forEach] of [buildKeyMap]: the map and the duplicate
    keys, in the order they were first seen twice. *)
Definition addCueKey (acc : gmap string entry * list string)
    (c : cue) (index : nat) : gmap string entry * list string :=
  let '(keyMap, duplicateKeys) := acc in
  if Str.truthy (key c) then
    let k := Str.toLowerCase (key c) in
    match keyMap !! k with
    | Some _ =>
        (keyMap,
         if bool_decide (k ∈ duplicateKeys) then duplicateKeys
         else duplicateKeys ++ [k])
    | None => (<[k := (c, index)]> keyMap, duplicateKeys)
    end
  else acc.

Fixpoint buildKeyMapFrom (acc : gmap string entry * list string)
    (index : nat) (cuePoints : list cue) : gmap string entry * list string :=
  match cuePoints with
  | [] => acc
  | c :: rest => buildKeyMapFrom (addCueKey acc c index) (S index) rest
  end.

(** [buildKeyMap]: the key map and [duplicateKeys]. *)
Definition buildKeyMap (cuePoints : list cue)
    : gmap string entry * list string :=
  buildKeyMapFrom (∅, []) 0 cuePoints.

(** The first cue of an array, with its index, that has a key which in
    lower case is [k]; [index] is the index of the first element. *)
Fixpoint firstWithKey (k : string) (index : nat) (cuePoints : list cue)
    : option entry :=
  match cuePoints with
  | [] => None
  | c :: rest =>
      if Str.truthy (key c) && String.eqb (Str.toLowerCase (key c)) k
      then Some (c, index)
      else firstWithKey k (S index) rest
  end.

Section Hook.

(** The parameters [enabled], [debounceMs], [excludeTargets]. *)
Variable enabled : bool.
Variable debounceMs : Z.
Variable excludeTargets : list string.

(** The effect that installs the listener: the key map is rebuilt when the
    hook is enabled. *)
Definition install (cuePoints : list cue) (r : refs) : refs :=
  if enabled
  then mkRefs (lastTriggerRef r) (fst (buildKeyMap cuePoints)) (statsRef r)
  else r.

(** [shouldIgnoreEvent]. *)
Definition shouldIgnoreEvent (event : keyEvent) : bool :=
  if negb enabled then true
  else if ctrlKey event || altKey event || metaKey event then true
  else
    match ev_target event with
    | Some t =>
        if bool_decide (Str.toLowerCase (tagName t) ∈ excludeTargets)
        then true
        else isContentEditable t
    | None => false
    end.

(** What [handleKeyPress] did with an event. *)
Inductive outcome :=
| Ignored
| Unmapped
| Debounced
| Triggered (cueTime : Q) (cueData : entry).

(** [lastTrigger && (now - lastTrigger) < debounceMs]; an absent or zero
    [lastTrigger] is falsy. *)
Definition debounced (lastTrigger : option Z) (now : Z) : bool :=
  match lastTrigger with
  | Some t => negb (t =? 0)%Z && (now - t <? debounceMs)%Z
  | None => false
  end.

(** The statistics update of a trigger. *)
Definition countTrigger (s : stats) (k : string) (now : Z) : stats :=
  mkStats (S (totalTriggers s))
    (<[k := S (default 0 (triggersByKey s !! k))]> (triggersByKey s))
    (Some now).

(** [handleKeyPress]; [now] is [Date.now()]. The second component tells
    whether [preventDefault]/[stopPropagation] were called. *)
Definition handleKeyPress (event : keyEvent) (now : Z) (r : refs)
    : outcome * bool * refs :=
  if shouldIgnoreEvent event then (Ignored, false, r)
  else
    let k := Str.toLowerCase (ev_key event) in
    match keyMapRef r !! k with
    | None => (Unmapped, false, r)
    | Some cue =>
        if debounced (lastTriggerRef r !! k) now then (Debounced, true, r)
        else
          (Triggered (time (fst cue)) cue, true,
           mkRefs (<[k := now]> (lastTriggerRef r)) (keyMapRef r)
             (countTrigger (statsRef r) k now))
    end.

End Hook.

End CueKeyboardMap.

(** ** useVideoSync.js: the status report, and the calculation of the
       hook's test suite *)

Module SyncStatus.

Import VideoSync.
Local Open Scope Q_scope.

(** What [getSyncStatus] returns; [st_stats] is the copy of the statistics
    made at the call. *)
Record syncStatus := mkStatus {
  st_drift : Q;
  st_expectedTime : Q;
  st_actualTime : Q;
  st_isInSync : bool;
  st_stats : stats
}.

(** [getSyncStatus]: the report, and the refs after the drift sample the
    call takes. *)
Definition getSyncStatus (driftThreshold : Q) (r : refs)
    : syncStatus * refs :=
  match videoElementRef r, contextRef r with
  | Some video, Some _ =>
      let '(drift, r1) := calculateDrift r in
      let expectedTime := calculateExpectedVideoTime r1 in
      let actualTime := video_currentTime video in
      let isInSync := Qle_bool (JS.abs drift) driftThreshold in
      (mkStatus drift expectedTime actualTime isInSync (statsRef r1), r1)
  | _, _ => (mkStatus 0 0 0 true (statsRef r), r)
  end.

(** The operations of a run that do not restart the statistics. *)
Definition keeps_stats (o : op) : bool :=
  match o with
  | Jump _ _ _ _ | Lifecycle => false
  | _ => true
  end.

(** The operations of the hook itself, as opposed to changes of its props
    and of what they point to. *)
Definition hook_call (o : op) : bool :=
  match o with
  | Correct _ _ | Periodic _ _ | Force _ _ | Lifecycle => true
  | _ => false
  end.

(** An operation that does not replace the video element. *)
Definition keeps_element (o : op) : bool :=
  match o with
  | SetVideo _ => false
  | _ => true
  end.

(** Statistics as the hook keeps them: at most a hundred stored samples,
    none negative and none above [maxDrift], and [avgDrift] their mean (0
    while there is none). *)
Definition stats_ok (s : stats) : Prop :=
  (length (driftHistory s) <= 100)%nat
  /\ (forall x, x ∈ driftHistory s -> 0 <= x /\ x <= maxDrift s)
  /\ 0 <= maxDrift s
  /\ (match driftHistory s with
      | [] => avgDrift s == 0
      | _ :: _ =>
          avgDrift s
          == JS.sum (driftHistory s)
             / inject_Z (Z.of_nat (length (driftHistory s)))
      end).

(** The inputs of [simulateSyncCalculation] in the hook's test suite;
    [None] as threshold is a missing [driftThreshold]. *)
Record simInputs := mkSimInputs {
  sim_videoElement : option video;
  sim_audioStartTime : option Q;
  sim_cueOffset : Q;
  sim_context : option context;
  sim_driftThreshold : option Q
}.

Record simResult := mkSimResult {
  sim_expectedVideoTime : Q;
  sim_actualVideoTime : Q;
  sim_drift : Q;
  sim_absDrift : Q;
  sim_shouldCorrect : bool;
  sim_correctedTime : option Q;
  sim_withinThreshold : bool
}.

(** [simulateSyncCalculation]; [None] is the result
    [{ error: "Missing required inputs" }]. *)
Definition simulateSyncCalculation (inputs : simInputs) : option simResult :=
  let driftThreshold :=
    match sim_driftThreshold inputs with
    | Some th => th
    | None => 5 # 100
    end in
  match sim_videoElement inputs, sim_context inputs, sim_audioStartTime inputs
  with
  | Some videoElement, Some context, Some audioStartTime =>
      let audioElapsed := ctx_currentTime context - audioStartTime in
      let expectedVideoTime := sim_cueOffset inputs + audioElapsed in
      let drift := video_currentTime videoElement - expectedVideoTime in
      let absDrift := JS.abs drift in
      let shouldCorrect := JS.Qltb driftThreshold absDrift in
      let correctedTime :=
        if shouldCorrect then
          Some (JS.max 0
                  (JS.min expectedVideoTime
                     (duration_or (video_duration videoElement)
                        expectedVideoTime)))
        else None in
      Some (mkSimResult expectedVideoTime (video_currentTime videoElement)
              drift absDrift shouldCorrect correctedTime
              (Qle_bool absDrift driftThreshold))
  | _, _, _ => None
  end.

(** The refs of a playing hook mounted with the inputs of a simulation. *)
Definition hookOf (inputs : simInputs) : refs :=
  mount (sim_videoElement inputs) (sim_audioStartTime inputs)
    (sim_cueOffset inputs) (sim_context inputs) true.

End SyncStatus.

(** ** CuePointEditor.jsx: reordering by drag and drop, and what the
       registry and the import are checked against *)

Module CueRegistry.

Import Json CuePointEditor.
Local Open Scope Q_scope.

(** [array.splice(index, 0, x)]; an index beyond the end inserts at the
    end. *)
Definition insertAt {A : Type} (l : list A) (index : nat) (x : A) : list A :=
  take index l ++ x :: drop index l.

(** What [handleDrop] does: nothing, a call of [onUpdate] with the
    reordered array, or, for a dragged index outside the array, a call
    with an array holding [undefined], which is not represented. *)
Inductive dropOutcome :=
| NotMoved
| Reordered (updatedCues : list cue)
| NoSuchRow.

(** [handleDrop]; [draggedIndex] is the component state set by
    [handleDragStart], [None] being [null]. *)
Definition handleDrop (cuePoints : list cue) (draggedIndex : option nat)
    (dropIndex : nat) : dropOutcome :=
  match draggedIndex with
  | None => NotMoved
  | Some dragged =>
      if (dragged =? dropIndex)%nat then NotMoved
      else
        match cuePoints !! dragged with
        | None => NoSuchRow
        | Some draggedCue =>
            let removed := removeAt cuePoints dragged in
            let adjustedDropIndex :=
              if (dragged <? dropIndex)%nat then (dropIndex - 1)%nat
              else dropIndex in
            Reordered (insertAt removed adjustedDropIndex draggedCue)
        end
  end.

(** The keys in use: those of the cues that have one. *)
Definition usedKeys (cuePoints : list cue) : list string :=
  filter (fun k => Str.truthy k = true) (map key cuePoints).

(** No key is carried by two cues (keys compared as they are). *)
Definition uniqueKeys (cuePoints : list cue) : Prop :=
  NoDup (usedKeys cuePoints).

(** An element of an imported array that [loadCuesFromJSON] accepts: an
    object with a number as [time] and a truthy [label]. *)
Definition importable (v : json) : bool :=
  match v with
  | JObj props =>
      match get_prop props "time" with
      | Some (JNum _) => truthy (get_prop props "label")
      | _ => false
      end
  | _ => false
  end.

(** The error the import stops with at an element it does not accept. *)
Definition rejection (index : nat) (v : json) : loadError :=
  match v with
  | JNull => TypeError index
  | _ => InvalidCue index
  end.

End CueRegistry.

(** ** useCueKeyboardMap.js: the functions the hook returns, and runs of
       key events *)

Module CueKeyboardRuns.

Import CuePointEditor CueKeyboardMap.

(** [lastTriggerRef.current] and [statsRef.current.triggersByKey] are plain
    objects indexed by the lower-case key of a key event. The key of a
    keyboard event is one character or the name of a key ("Enter",
    "ArrowUp", ...), none of which is a property that a plain object
    inherits, so both objects are the maps of [CueKeyboardMap.refs]. *)

(** What [getStats] returns: the statistics, [activeKeys] and
    [lastTriggerAge]. *)
Record report := mkReport {
  rp_totalTriggers : nat;
  rp_triggersByKey : gmap string nat;
  rp_lastTriggerTime : option Z;
  activeKeys : nat;
  lastTriggerAge : option Z
}.

(** [getStats]; [now] is [Date.now()]. A [lastTriggerTime] of 0 is falsy. *)
Definition getStats (now : Z) (r : refs) : report :=
  let s := statsRef r in
  mkReport (totalTriggers s) (triggersByKey s) (lastTriggerTime s)
    (size (keyMapRef r))
    (match lastTriggerTime s with
     | Some t => if (t =? 0)%Z then None else Some (now - t)%Z
     | None => None
     end).

(** [clearDebounce]. *)
Definition clearDebounce (r : refs) : refs :=
  mkRefs ∅ (keyMapRef r) (statsRef r).

(** [triggerByKey]: its result and the call of [onTriggerCue] it makes, if
    any. [onTriggerCue] tells whether the hook was given the callback. *)
Definition triggerByKey (onTriggerCue : bool) (k : string) (r : refs)
    : bool * option (Q * entry) :=
  match keyMapRef r !! Str.toLowerCase k with
  | Some cue =>
      if onTriggerCue then (true, Some (time (fst cue), cue))
      else (false, None)
  | None => (false, None)
  end.

(** [isKeyMapped]. *)
Definition isKeyMapped (k : string) (r : refs) : bool :=
  bool_decide (is_Some (keyMapRef r !! Str.toLowerCase k)).

(** What happens to one hook instance that was given [onTriggerCue]: a
    [keydown] event reaches the listener at [Date.now() = now], the owner
    calls [clearDebounce], or the cue points change and the effect
    rebuilds the key map. *)
Inductive op :=
| KeyDown (event : keyEvent) (now : Z)
| ClearDebounce
| CuesChange (cuePoints : list cue).

(** A call of [onTriggerCue] made by the listener: the lower-case key, the
    time of the call, and the cue handed over. *)
Record trigger := mkTrigger {
  tr_key : string;
  tr_now : Z;
  tr_cue : entry
}.

Section Runs.

Variable enabled : bool.
Variable debounceMs : Z.
Variable excludeTargets : list string.

Definition step (o : op) (r : refs) : option trigger * refs :=
  match o with
  | KeyDown event now =>
      match handleKeyPress enabled debounceMs excludeTargets event now r with
      | (Triggered _ cue, _, r') =>
          (Some (mkTrigger (Str.toLowerCase (ev_key event)) now cue), r')
      | (_, _, r') => (None, r')
      end
  | ClearDebounce => (None, clearDebounce r)
  | CuesChange cuePoints => (None, install enabled cuePoints r)
  end.

(** A run: the calls of [onTriggerCue], in order, and the refs left. *)
Fixpoint run (ops : list op) (r : refs) : list trigger * refs :=
  match ops with
  | [] => ([], r)
  | o :: rest =>
      let '(t, r1) := step o r in
      let '(log, r2) := run rest r1 in
      (match t with Some x => x :: log | None => log end, r2)
  end.

End Runs.

(** An operation other than [clearDebounce]. *)
Definition keeps_debounce (o : op) : bool :=
  match o with
  | ClearDebounce => false
  | _ => true
  end.

(** The calls of a log made for the key [k]. *)
Definition triggersOf (k : string) (log : list trigger) : list trigger :=
  filter (fun t => tr_key t = k) log.

(** The sum of the counts of [triggersByKey]. *)
Definition countSum (m : gmap string nat) : nat :=
  map_fold (fun _ n acc => (n + acc)%nat) 0%nat m.

End CueKeyboardRuns.

(** ** CuePointGrid.jsx, and the cue points of UnifiedVideoEditor.jsx *)

Module CuePointGrid.

Import CuePointEditor.
Local Open Scope Q_scope.

(** [getKeyForSlot]: the key of a slot of the 4x4 grid, "1".."4", Q W E R,
    A S D F, Z X C V, and the slot number from the seventeenth slot on. In
    the second and the third row the index lies within the row. *)
Definition getKeyForSlot (slotIndex : nat) : string :=
  if (slotIndex <? 4)%nat then pretty (slotIndex + 1)%nat
  else if (slotIndex <? 8)%nat then
    match ["Q"; "W"; "E"; "R"]%string !! (slotIndex - 4)%nat with
    | Some k => k
    | None => ""%string
    end
  else if (slotIndex <? 12)%nat then
    match ["A"; "S"; "D"; "F"]%string !! (slotIndex - 8)%nat with
    | Some k => k
    | None => ""%string
    end
  else
    match ["Z"; "X"; "C"; "V"]%string !! (slotIndex - 12)%nat with
    | Some k => k
    | None => pretty (slotIndex + 1)%nat
    end.

(** The first of the slots [0 .. maxCueSlots - 1] with [!cuePoints[slot]]:
    a cue is an object, hence truthy, and an index beyond the end of the
    array gives [undefined]. *)
Definition firstEmptySlot (maxCueSlots : nat) (cuePoints : list cue)
    : option nat :=
  find (fun slotIndex =>
          match cuePoints !! slotIndex with
          | Some _ => false
          | None => true
          end)
       (seq 0 maxCueSlots).

(** The cue the grid makes for a slot at [currentTime]. *)
Definition slotCue (currentTime : Q) (slotIndex : nat) : cue :=
  mkCue currentTime
    ("Cue " +:+ pretty (slotIndex + 1)%nat)
    (getKeyForSlot slotIndex)
    48000
    (JS.round (currentTime * 48000)).

(** [handleAddCueAtCurrentTime]: the cue handed to [onAddCue], if any;
    [onAddCue] tells whether the grid was given the callback. *)
Definition handleAddCueAtCurrentTime (onAddCue : bool) (maxCueSlots : nat)
    (currentTime : Q) (cuePoints : list cue) : option cue :=
  if onAddCue then
    match firstEmptySlot maxCueSlots cuePoints with
    | Some slotIndex => Some (slotCue currentTime slotIndex)
    | None => None
    end
  else None.

(** [handleAddCueAtSlot]. *)
Definition handleAddCueAtSlot (onAddCue : bool) (currentTime : Q)
    (slotIndex : nat) : option cue :=
  if onAddCue then Some (slotCue currentTime slotIndex) else None.

End CuePointGrid.

Module UnifiedVideoEditor.

Import CuePointEditor.
Local Open Scope Q_scope.

(** The state of the editor, as far as the cue points go. *)
Record state := mkState {
  cuePoints : list cue;
  activeCue : option cue
}.

Definition initial : state := mkState [] None.

(** [handleAddCue]. *)
Definition handleAddCue (s : state) (newCue : cue) : state :=
  mkState (sortByTime time (cuePoints s ++ [newCue])) (Some newCue).

(** [clearCues]. *)
Definition clearCues (s : state) : state := mkState [] None.

(** The grid is rendered with [maxCueSlots = 16] and the editor's
    [handleAddCue] as [onAddCue]. *)
Definition maxCueSlots : nat := 16.

(** A click on "+ Add Cue" at [currentTime]. *)
Definition clickAddCue (currentTime : Q) (s : state) : state :=
  match CuePointGrid.handleAddCueAtCurrentTime true maxCueSlots currentTime
          (cuePoints s) with
  | Some newCue => handleAddCue s newCue
  | None => s
  end.

(** A click on the slot [slotIndex] of the grid at [currentTime]: a slot
    is there below [maxCueSlots]; a slot with a cue selects it
    ([handleCueClick]), an empty one adds a cue. *)
Definition clickSlot (currentTime : Q) (slotIndex : nat) (s : state)
    : state :=
  if (slotIndex <? maxCueSlots)%nat then
    match cuePoints s !! slotIndex with
    | Some cue => mkState (cuePoints s) (Some cue)
    | None =>
        match CuePointGrid.handleAddCueAtSlot true currentTime slotIndex with
        | Some newCue => handleAddCue s newCue
        | None => s
        end
    end
  else s.

(** Clicks on "+ Add Cue" at the given times, one after the other. *)
Definition clicksAddCue (times : list Q) (s : state) : state :=
  fold_left (fun s currentTime => clickAddCue currentTime s) times s.

End UnifiedVideoEditor.

(** ** WaveformPlayer.jsx: the audio source, and what the editor hands on
       to the video hook *)

Module WaveformPlayer.

Import VideoSync.
Local Open Scope Q_scope.

(** What [onPlaybackStateChange] is called with ([audioContext] is the
    context of the player, as handed over by [onAudioContextChange]). *)
Record playbackState := mkPlaybackState {
  ps_isPlaying : bool;
  ps_audioStartTime : option Q;
  ps_cueOffset : Q
}.

(** The refs of the player and its React state, the latter as of the next
    render. An audio source is known by the number the host gave it. The
    player is used as the editor uses it, with all callbacks given and
    [autoPlay] off. *)
Record player := mkPlayer {
  audioContextRef : option context;
  audioBufferRef : bool;
  audioSourceRef : option nat;
  audioStartTimeRef : option Q;
  cueOffsetRef : Q;
  isReady : bool;
  isPlaying : bool;
  currentTime : Q
}.

Definition mount : player := mkPlayer None false None None 0 false false 0.

(** Where the host raises inside the [try] of [startAudio]: while the
    source is made and connected, or in [source.start]. *)
Inductive failure :=
| NoFailure
| SourceFails
| StartFails.

(** [stopAudio]: the player left and the calls of
    [onPlaybackStateChange]. *)
Definition stopAudio (p : player) : player * list playbackState :=
  (mkPlayer (audioContextRef p) (audioBufferRef p) None None
     (cueOffsetRef p) (isReady p) false (currentTime p),
   [mkPlaybackState false None (cueOffsetRef p)]).

(** [startAudio]; [source] is the source the host creates. *)
Definition startAudio (fails : failure) (source : nat) (offset : Q)
    (p : player) : player * list playbackState :=
  match audioBufferRef p, audioContextRef p with
  | true, Some ctx =>
      let '(p1, stopped) := stopAudio p in
      match fails with
      | SourceFails => (p1, stopped)
      | StartFails =>
          (mkPlayer (audioContextRef p1) (audioBufferRef p1) None
             (Some (ctx_currentTime ctx)) offset (isReady p1) false
             (currentTime p1),
           stopped)
      | NoFailure =>
          (mkPlayer (audioContextRef p1) (audioBufferRef p1) (Some source)
             (Some (ctx_currentTime ctx)) offset (isReady p1) true
             (currentTime p1),
           stopped
           ++ [mkPlaybackState true (Some (ctx_currentTime ctx)) offset])
      end
  | _, _ => (p, [])
  end.

(** [source.onended] of the source [source]. *)
Definition onended (source : nat) (p : player)
    : player * list playbackState :=
  match audioSourceRef p with
  | Some current =>
      if (current =? source)%nat then stopAudio p else (p, [])
  | None => (p, [])
  end.

(** [togglePlayback]; [resumeFails] tells that the context is suspended
    and cannot be resumed. *)
Definition togglePlayback (resumeFails : bool) (fails : failure)
    (source : nat) (p : player) : player * list playbackState :=
  match audioBufferRef p, audioContextRef p, isReady p with
  | true, Some _, true =>
      if resumeFails then (p, [])
      else if isPlaying p then stopAudio p
      else startAudio fails source (currentTime p) p
  | _, _, _ => (p, [])
  end.

(** [jumpToCue]; the move of the cursor of the waveform is left out. *)
Definition jumpToCue (fails : failure) (source : nat) (time : Q)
    (p : player) : player * list playbackState :=
  match audioBufferRef p, audioContextRef p with
  | true, Some _ => startAudio fails source time p
  | _, _ => (p, [])
  end.

(** [updateCurrentTime]: the player left and the [currentTime] handed to
    [onTimeUpdate], if any. A start time of 0 is falsy. *)
Definition updateCurrentTime (p : player) : player * option Q :=
  match audioContextRef p, audioStartTimeRef p with
  | Some ctx, Some startTime =>
      if JS.truthy_num startTime && isPlaying p then
        let elapsed := ctx_currentTime ctx - startTime in
        let newCurrentTime := cueOffsetRef p + elapsed in
        (mkPlayer (audioContextRef p) (audioBufferRef p) (audioSourceRef p)
           (audioStartTimeRef p) (cueOffsetRef p) (isReady p) (isPlaying p)
           newCurrentTime,
         Some newCurrentTime)
      else (p, None)
  | _, _ => (p, None)
  end.

(** [handleSpacebarPress]: whether it toggles the playback; [code] is
    [event.code]. *)
Definition handleSpacebarPress (code : string)
    (event : CueKeyboardMap.keyEvent) : bool :=
  if negb (String.eqb code "Space") then false
  else
    match CueKeyboardMap.ev_target event with
    | Some t =>
        if bool_decide
             (Str.toLowerCase (CueKeyboardMap.tagName t)
              ∈ ["input"; "textarea"; "select"]%string)
        then false
        else if CueKeyboardMap.isContentEditable t then false
        else negb (CueKeyboardMap.ctrlKey event
                   || CueKeyboardMap.altKey event
                   || CueKeyboardMap.metaKey event)
    | None =>
        negb (CueKeyboardMap.ctrlKey event || CueKeyboardMap.altKey event
              || CueKeyboardMap.metaKey event)
    end.

(** What happens to a player: the context is made, the waveform is ready
    (with or without a buffer) or reports an error, the audio clock moves
    on, and the calls of the functions above. *)
Inductive op :=
| InitContext
| Ready (hasBuffer : bool)
| WaveformError
| Clock (now : Q)
| Toggle (resumeFails : bool) (fails : failure) (source : nat)
| Jump (fails : failure) (source : nat) (time : Q)
| Ended (source : nat)
| Tick.

(** [initAudioContext] makes a context once; its clock starts at 0. *)
Definition initAudioContext (p : player) : player :=
  match audioContextRef p with
  | Some _ => p
  | None =>
      mkPlayer (Some (mkContext 0)) (audioBufferRef p) (audioSourceRef p)
        (audioStartTimeRef p) (cueOffsetRef p) (isReady p) (isPlaying p)
        (currentTime p)
  end.

Definition step (o : op) (p : player) : player * list playbackState :=
  match o with
  | InitContext => (initAudioContext p, [])
  | Ready hasBuffer =>
      (mkPlayer (audioContextRef p) (hasBuffer || audioBufferRef p)
         (audioSourceRef p) (audioStartTimeRef p) (cueOffsetRef p) true
         (isPlaying p) (currentTime p), [])
  | WaveformError =>
      (mkPlayer (audioContextRef p) (audioBufferRef p) (audioSourceRef p)
         (audioStartTimeRef p) (cueOffsetRef p) false (isPlaying p)
         (currentTime p), [])
  | Clock now =>
      (mkPlayer
         (match audioContextRef p with
          | Some _ => Some (mkContext now)
          | None => None
          end)
         (audioBufferRef p) (audioSourceRef p) (audioStartTimeRef p)
         (cueOffsetRef p) (isReady p) (isPlaying p) (currentTime p), [])
  | Toggle resumeFails fails source =>
      togglePlayback resumeFails fails source p
  | Jump fails source time => jumpToCue fails source time p
  | Ended source => onended source p
  | Tick => (fst (updateCurrentTime p), [])
  end.

(** A run: the player left and the calls of [onPlaybackStateChange], in
    order. *)
Fixpoint run (ops : list op) (p : player) : player * list playbackState :=
  match ops with
  | [] => (p, [])
  | o :: rest =>
      let '(p1, calls) := step o p in
      let '(p2, more) := run rest p1 in
      (p2, calls ++ more)
  end.

(** [handlePlaybackStateChange] of the editor, on the props the video
    hook is given. *)
Definition handlePlaybackStateChange (h : VideoSync.refs)
    (state : playbackState) : VideoSync.refs :=
  set_isPlaying
    (set_session h (ps_audioStartTime state) (ps_cueOffset state))
    (ps_isPlaying state).

(** The props of the video hook after the calls of a run; the context of
    the hook is that of the player. *)
Definition hookAfter (calls : list playbackState) (p : player)
    (h : VideoSync.refs) : VideoSync.refs :=
  set_context (fold_left handlePlaybackStateChange calls h)
    (audioContextRef p).

(** [handleTriggerCue] of the editor, as far as the player goes: the
    jump to the cue time, once the player has handed over its functions
    through [onRef]. *)
Definition handleTriggerCue (waveformPlayerRef : bool) (fails : failure)
    (source : nat) (cueTime : Q) (p : player)
    : player * list playbackState :=
  if waveformPlayerRef then jumpToCue fails source cueTime p else (p, []).

End WaveformPlayer.

(** ** Concrete situations used below *)

Module Scenario.

Import VideoSync.
Local Open Scope Q_scope.

(** A playing hook whose last correction was at wall-clock time [last]. *)
Definition playing (v : video) (start offset clock last : Q) : refs :=
  mkRefs (Some v) (Some start) offset (Some (mkContext clock)) true last
    emptyStats true true.

(** "Video Beyond Duration" of the sync tests: the element at 150 s of
    120 s, audio started at 5 s with offset 10 s, audio clock at 160 s. *)
Definition beyondDuration : refs :=
  playing (mkVideo 150 (Some 120)) 5 10 160 0.

(** An element whose duration is zero, audio 5 s into the session. *)
Definition zeroDuration : refs :=
  playing (mkVideo 0 (Some 0)) 0 0 5 0.

(** "Basic Sync Test" of the sync tests: the element at 10 s, 20 s
    expected. *)
Definition basicSync : refs :=
  playing (mkVideo 10 (Some 120)) 5 10 15 0.

(** An element whose metadata is not loaded: its duration is [NaN]. *)
Definition unknownDuration : refs :=
  playing (mkVideo 0 None) 0 0 5 0.

(** Two cue jumps 40 ms of wall-clock apart, on a hook in sync at 8 s: the
    jump to the cue at 5 s at 1000 ms, after which the element plays on and
    the audio clock advances for 40 ms; then the jump to the cue at 25 s at
    1040 ms. *)
Definition inSync : refs :=
  playing (mkVideo 8 (Some 120)) 2 0 10 0.

Definition firstJump : list op :=
  [Jump (Some 10) 5 1000 false;
   SetContext (Some (mkContext (1004 # 100)));
   SetVideo (Some (mkVideo (504 # 100) (Some 120)))].

Definition secondJump : op :=
  Jump (Some (1004 # 100)) 25 1040 false.

Definition afterFirstJump : refs :=
  snd (run driftThreshold_default firstJump inSync).

(** The element with a drift of [d] seconds against a session resting at
    position 0, and the refs after a drift sample taken there. *)
Definition drifted (d : Q) (r : refs) : refs :=
  set_video (set_session (at_clock r 0) (Some 0) 0) (Some (mkVideo d None)).

Definition sample (d : Q) (r : refs) : refs :=
  snd (calculateDrift (drifted d r)).

(** A hook whose statistics were reset, after one sample of 1 s drift
    followed by a hundred samples without drift. *)
Definition afterEviction : refs :=
  Nat.iter 100 (sample 0) (sample 1 (startSync basicSync)).

(** Scenario D: a tick at wall-clock 1000 ms that finds the drift of
    [basicSync]; then, 40 ms later, with the audio clock 40 ms further and
    the element thrown to 30 s, the refs a second tick finds. *)
Definition firstTick : list op := [Correct 1000 false].

Definition betweenTicks : list op :=
  [SetContext (Some (mkContext (1504 # 100)));
   SetVideo (Some (mkVideo 30 (Some 120)))].

Definition beforeSecondTick : refs :=
  snd (run driftThreshold_default (firstTick ++ betweenTicks) basicSync).

(** An editor over 10 s of audio with two cues, keys "1" and "2". *)
Definition twoCues : CuePointEditor.editor :=
  CuePointEditor.mkEditor
    [CuePointEditor.mkCue 1 "Intro" "1" 48000 48000;
     CuePointEditor.mkCue 3 "Verse" "2" 48000 144000]
    ∅ None.

(** Two cues whose keys differ in letter case only. *)
Definition intro : CuePointEditor.cue :=
  CuePointEditor.mkCue 1 "Intro" "a" 48000 48000.

Definition outro : CuePointEditor.cue :=
  CuePointEditor.mkCue 8 "Outro" "A" 48000 384000.

Definition caseCues : list CuePointEditor.cue := [intro; outro].

(** A cue made at a sample rate of 44100, 11 microseconds into the audio:
    its sample position is [Math.round(0.4851) = 0]. *)
Definition earlyCue : CuePointEditor.cue :=
  CuePointEditor.mkCue (11 # 1000000) "Intro" "1" 44100 0.

(** The keyboard hook installed over [caseCues]. *)
Definition keyboard : CueKeyboardMap.refs :=
  CueKeyboardMap.install true caseCues CueKeyboardMap.mount.

(** Key presses on the page body: plain "a", and "A" typed with Shift. *)
Definition body : option CueKeyboardMap.target :=
  Some (CueKeyboardMap.mkTarget "BODY" false).

Definition pressA : CueKeyboardMap.keyEvent :=
  CueKeyboardMap.mkEvent "a" false false false false body.

Definition pressShiftA : CueKeyboardMap.keyEvent :=
  CueKeyboardMap.mkEvent "A" false false false true body.

End Scenario.

(** * Properties *)

(** ** Rational arithmetic of the host functions *)

Section Numerics.

Local Open Scope Q_scope.

Lemma Qltb_lt (x y : Q) : JS.Qltb x y = true <-> x < y.
Proof.
  unfold JS.Qltb. rewrite negb_true_iff.
  destruct (Qle_bool y x) eqn:E.
  - apply Qle_bool_iff in E. split; [discriminate | intros H; lra].
  - split; [intros _ | reflexivity].
    destruct (Qlt_le_dec x y) as [H | H]; [exact H |].
    apply Qle_bool_iff in H. congruence.
Qed.

Lemma Qltb_ge (x y : Q) : JS.Qltb x y = false <-> y <= x.
Proof.
  unfold JS.Qltb. rewrite negb_false_iff. apply Qle_bool_iff.
Qed.

Lemma max_spec_le (x y : Q) :
  (x <= y /\ JS.max x y == y) \/ (y <= x /\ JS.max x y == x).
Proof.
  unfold JS.max. destruct (Q.max_spec x y) as [[H E] | [H E]].
  - left. split; [lra | exact E].
  - right. split; [exact H | exact E].
Qed.

Lemma min_spec_le (x y : Q) :
  (x <= y /\ JS.min x y == x) \/ (y <= x /\ JS.min x y == y).
Proof.
  unfold JS.min. destruct (Q.min_spec x y) as [[H E] | [H E]].
  - left. split; [lra | exact E].
  - right. split; [exact H | exact E].
Qed.

Lemma abs_nonneg (x : Q) : 0 <= JS.abs x.
Proof. apply Qabs_nonneg. Qed.

Lemma truthy_num_true (x : Q) : JS.truthy_num x = true <-> ~ x == 0.
Proof.
  unfold JS.truthy_num. rewrite negb_true_iff.
  destruct (Qeq_bool x 0) eqn:E.
  - apply Qeq_bool_iff in E. split; [discriminate | tauto].
  - split; [intros _ H | reflexivity].
    apply Qeq_bool_iff in H. congruence.
Qed.

End Numerics.

(** ** The expected follower position *)

Section ExpectedPosition.

Import VideoSync.
Local Open Scope Q_scope.

(** The refs of a session started at [origin] with [offset], read when the
    audio clock shows [now]. *)
Local Abbreviation session r origin offset now :=
  (at_clock (set_session r (Some origin) offset) now).

Lemma expected_nonneg (r : refs) : 0 <= calculateExpectedVideoTime r.
Proof.
  unfold calculateExpectedVideoTime.
  destruct (contextRef r) as [ctx |]; [| lra].
  destruct (audioStartTimeRef r) as [startTime |]; [| lra].
  cbv zeta.
  destruct (max_spec_le 0 (cueOffsetRef r + (ctx_currentTime ctx - startTime)))
    as [[H E] | [H E]]; rewrite E; lra.
Qed.

Lemma expected_session (r : refs) (origin offset now : Q) :
  calculateExpectedVideoTime (session r origin offset now)
  = Qmax 0 (offset + (now - origin)).
Proof. reflexivity. Qed.

(** C1. For every origin, offset and clock reading, the expected video time
    is [max(0, offset + (now - origin))]; for a fixed origin and offset it
    does not decrease when the clock advances, and it is never negative
    (whatever the refs hold). *)
Theorem expected_position_formula_monotone_nonneg :
  forall (r : refs) (origin offset : Q),
    (forall now,
        calculateExpectedVideoTime (session r origin offset now)
        = Qmax 0 (offset + (now - origin)))
    /\ (forall now1 now2, now1 <= now2 ->
        calculateExpectedVideoTime (session r origin offset now1)
        <= calculateExpectedVideoTime (session r origin offset now2))
    /\ (forall r' : refs, 0 <= calculateExpectedVideoTime r').
Proof.
  intros r origin offset. split; [| split].
  - intros now. apply expected_session.
  - intros now1 now2 Hle. rewrite !expected_session.
    apply Q.max_le_compat_l. lra.
  - apply expected_nonneg.
Qed.

Lemma expected_position_witness :
  calculateExpectedVideoTime
    (session (mount None None 0 None true) 5 10 (115 # 10)) == 165 # 10
  /\ calculateExpectedVideoTime
       (session (mount None None 0 None true) 5 10 (115 # 10))
     <= calculateExpectedVideoTime
          (session (mount None None 0 None true) 5 10 12).
Proof.
  split.
  - reflexivity.
  - apply (expected_position_formula_monotone_nonneg
             (mount None None 0 None true) 5 10).
    vm_compute. discriminate.
Defined.

End ExpectedPosition.

(** ** The correction controller *)

Section Correction.

Import VideoSync.
Local Open Scope Q_scope.

Lemma expected_set_stats (r : refs) (s : stats) :
  calculateExpectedVideoTime (set_stats r s) = calculateExpectedVideoTime r.
Proof. reflexivity. Qed.

Lemma expected_applyCorrection (r : refs) (v : video) (t now : Q) :
  calculateExpectedVideoTime (applyCorrection r v t now)
  = calculateExpectedVideoTime r.
Proof. reflexivity. Qed.

Lemma correctionTarget_set_stats (v : video) (r : refs) (s : stats) :
  correctionTarget v (set_stats r s) = correctionTarget v r.
Proof. reflexivity. Qed.

(** What an applied correction tells about the refs before and after. *)
Lemma correctVideoTime_applied (th now : Q) (throws : bool) (r r' : refs) :
  correctVideoTime th now throws r = (true, r') ->
  exists v,
    videoElementRef r = Some v
    /\ throws = false
    /\ CORRECTION_THROTTLE_MS <= now - lastCorrectionTimeRef r
    /\ th < JS.abs (video_currentTime v - calculateExpectedVideoTime r)
    /\ 0 <= correctionTarget v r
    /\ epsilon < JS.abs (correctionTarget v r - video_currentTime v)
    /\ videoElementRef r'
       = Some (mkVideo (correctionTarget v r) (video_duration v))
    /\ lastCorrectionTimeRef r' = now
    /\ calculateExpectedVideoTime r' = calculateExpectedVideoTime r.
Proof.
  unfold correctVideoTime, calculateDrift.
  destruct (videoElementRef r) as [v |] eqn:Hv; [| discriminate].
  destruct (contextRef r) as [c |] eqn:Hc; [| discriminate].
  cbv zeta.
  destruct (JS.Qltb (now - lastCorrectionTimeRef r) CORRECTION_THROTTLE_MS)
    eqn:Hthr; [discriminate |].
  destruct (JS.Qltb th _) eqn:Hdrift; [| discriminate].
  rewrite correctionTarget_set_stats.
  destruct (Qle_bool 0 _) eqn:Hpos; [| discriminate].
  destruct (JS.Qltb epsilon _) eqn:Heps; [| discriminate].
  destruct throws; [discriminate |].
  cbn [andb]. intros [= <-].
  exists v. repeat split.
  - apply Qltb_ge. exact Hthr.
  - apply Qltb_lt. exact Hdrift.
  - apply Qle_bool_iff. exact Hpos.
  - apply Qltb_lt. exact Heps.
Qed.

(** Inside the throttle interval [correctVideoTime] returns before it
    touches anything. *)
Lemma correctVideoTime_throttled (th now : Q) (throws : bool) (r : refs) :
  now - lastCorrectionTimeRef r < CORRECTION_THROTTLE_MS ->
  correctVideoTime th now throws r = (false, r).
Proof.
  intros H. unfold correctVideoTime.
  destruct (videoElementRef r); [| reflexivity].
  destruct (contextRef r); [| reflexivity].
  cbv zeta. apply Qltb_lt in H. rewrite H. reflexivity.
Qed.

Lemma abs_sub_eq (x y : Q) : x == y -> JS.abs (x - y) <= epsilon.
Proof.
  intros H. unfold JS.abs, epsilon. apply Qabs_Qle_condition. lra.
Qed.

Lemma duration_or_cases (d : option Q) (e : Q) :
  (exists x, d = Some x /\ ~ x == 0 /\ duration_or d e = x)
  \/ ((d = None \/ exists x, d = Some x /\ x == 0) /\ duration_or d e = e).
Proof.
  unfold duration_or. destruct d as [x |].
  - destruct (JS.truthy_num x) eqn:E.
    + left. exists x. split; [reflexivity |]. split; [| reflexivity].
      apply truthy_num_true. exact E.
    + right. split; [| reflexivity]. right. exists x. split; [reflexivity |].
      destruct (Qeq_dec x 0) as [H | H]; [exact H |].
      apply truthy_num_true in H. congruence.
  - right. split; [left |]; reflexivity.
Qed.

(** C3 as stated fails when the expected time lies beyond the end of the
    video: the correction that is issued puts the element at 120 s while
    165 s are expected. *)
Lemma correction_misses_expected_beyond_duration :
  fst (correctVideoTime driftThreshold_default 1000 false
         Scenario.beyondDuration) = true
  /\ (exists v',
        videoElementRef
          (snd (correctVideoTime driftThreshold_default 1000 false
                  Scenario.beyondDuration)) = Some v'
        /\ video_currentTime v' == 120
        /\ calculateExpectedVideoTime
             (snd (correctVideoTime driftThreshold_default 1000 false
                     Scenario.beyondDuration)) == 165
        /\ ~ JS.abs (video_currentTime v'
                     - calculateExpectedVideoTime
                         (snd (correctVideoTime driftThreshold_default 1000
                                 false Scenario.beyondDuration)))
            <= epsilon).
Proof.
  split; [reflexivity |].
  eexists. split; [reflexivity |].
  split; [reflexivity |]. split; [reflexivity |].
  vm_compute. intros H. apply H. reflexivity.
Qed.

(** C3, amended. Every issued correction puts the element at the expected
    time clamped to the duration, [min(expected, duration)], never past
    the expected time; whenever the expected time does not exceed the
    duration, or the duration is zero or not a number, the new position is
    the expected time itself, so that [|newPosition - expected| <= 0.01]. *)
Theorem correction_reaches_clamped_expected :
  forall (th now : Q) (throws : bool) (r r' : refs),
    correctVideoTime th now throws r = (true, r') ->
    exists v v',
      videoElementRef r = Some v
      /\ videoElementRef r' = Some v'
      /\ video_currentTime v'
         == JS.min (calculateExpectedVideoTime r')
              (duration_or (video_duration v) (calculateExpectedVideoTime r'))
      /\ video_currentTime v' <= calculateExpectedVideoTime r'
      /\ ((video_duration v = None
           \/ exists d, video_duration v = Some d
                        /\ (d == 0 \/ calculateExpectedVideoTime r' <= d)) ->
          video_currentTime v' == calculateExpectedVideoTime r'
          /\ JS.abs (video_currentTime v' - calculateExpectedVideoTime r')
             <= epsilon).
Proof.
  intros th now throws r r' H.
  apply correctVideoTime_applied in H
    as (v & Hv & _ & _ & _ & _ & _ & Hv' & _ & He).
  exists v, (mkVideo (correctionTarget v r) (video_duration v)).
  split; [exact Hv |]. split; [exact Hv' |].
  rewrite He. cbn [video_currentTime]. unfold correctionTarget. cbv zeta.
  set (e := calculateExpectedVideoTime r).
  split; [reflexivity |].
  destruct (min_spec_le e (duration_or (video_duration v) e))
    as [[Hle E] | [Hle E]].
  - split; [rewrite E; lra |]. intros _. split; [exact E |].
    apply abs_sub_eq. exact E.
  - split; [rewrite E; exact Hle |]. intros Hd.
    assert (Heq : duration_or (video_duration v) e == e).
    { destruct (duration_or_cases (video_duration v) e)
        as [(x & Hx & Hnz & Ex) | [_ Ex]]; [| rewrite Ex; reflexivity].
      rewrite Ex in *. destruct Hd as [Hd | (d & Hd & [Hz | Hd'])].
      - congruence.
      - rewrite Hx in Hd. injection Hd as <-. contradiction.
      - rewrite Hx in Hd. injection Hd as <-. lra. }
    split; [rewrite E; exact Heq |].
    apply abs_sub_eq. rewrite E. exact Heq.
Qed.

Lemma correction_reaches_clamped_expected_witness :
  exists v v',
    videoElementRef Scenario.basicSync = Some v
    /\ videoElementRef
         (snd (correctVideoTime driftThreshold_default 1000 false
                 Scenario.basicSync)) = Some v'
    /\ video_currentTime v' == 20.
Proof.
  destruct (correction_reaches_clamped_expected driftThreshold_default 1000
              false Scenario.basicSync
              (snd (correctVideoTime driftThreshold_default 1000 false
                      Scenario.basicSync)) eq_refl)
    as (v & v' & Hv & Hv' & _ & _ & Hin).
  exists v, v'. split; [exact Hv |]. split; [exact Hv' |].
  destruct Hin as [Heq _].
  - right. exists 120. injection Hv as <-. split; [reflexivity |].
    right. vm_compute. discriminate.
  - rewrite Heq. reflexivity.
Defined.

(** C4 as stated fails for an element whose duration is zero or not
    a number (metadata not loaded): [video.duration || expectedTime] then
    is the expected time, and the correction issued puts the element at
    5 s, outside [[0, 0]] and inside no interval up to [NaN]. *)
Lemma correction_target_outside_zero_duration :
  (fst (correctVideoTime driftThreshold_default 1000 false
          Scenario.zeroDuration) = true
   /\ exists v',
        videoElementRef
          (snd (correctVideoTime driftThreshold_default 1000 false
                  Scenario.zeroDuration)) = Some v'
        /\ video_currentTime v' == 5
        /\ video_duration v' = Some 0
        /\ ~ within_duration (video_currentTime v') (video_duration v'))
  /\ (fst (correctVideoTime driftThreshold_default 1000 false
             Scenario.unknownDuration) = true
      /\ exists v',
           videoElementRef
             (snd (correctVideoTime driftThreshold_default 1000 false
                     Scenario.unknownDuration)) = Some v'
           /\ video_currentTime v' == 5
           /\ video_duration v' = None
           /\ ~ within_duration (video_currentTime v') (video_duration v')).
Proof.
  split; (split; [reflexivity |]);
    (eexists; split; [reflexivity |]);
    (split; [reflexivity |]); (split; [reflexivity |]).
  - cbn. intros [_ H]. revert H. vm_compute. intros H. apply H. reflexivity.
  - cbn. intros [].
Qed.

(** C4, amended. Every correction issued on an element whose duration is a
    number other than zero puts the element inside [[0, duration]]; with a
    duration of 120 s and an expected time of 165 s the element is put at
    120 s. *)
Theorem correction_target_within_duration :
  (forall (th now : Q) (throws : bool) (r r' : refs) (v : video) (d : Q),
      correctVideoTime th now throws r = (true, r') ->
      videoElementRef r = Some v ->
      video_duration v = Some d ->
      ~ d == 0 ->
      exists v',
        videoElementRef r' = Some v'
        /\ video_duration v' = Some d
        /\ within_duration (video_currentTime v') (video_duration v'))
  /\ calculateExpectedVideoTime Scenario.beyondDuration == 165
  /\ exists r' v',
       correctVideoTime driftThreshold_default 1000 false
         Scenario.beyondDuration = (true, r')
       /\ videoElementRef r' = Some v'
       /\ video_currentTime v' == 120.
Proof.
  split; [| split].
  - intros th now throws r r' v d H Hv Hd Hnz.
    apply correctVideoTime_applied in H
      as (v0 & Hv0 & _ & _ & _ & Hpos & _ & Hv' & _ & _).
    rewrite Hv in Hv0. injection Hv0 as <-.
    exists (mkVideo (correctionTarget v r) (video_duration v)).
    split; [exact Hv' |]. split; [exact Hd |].
    cbn [video_currentTime video_duration]. rewrite Hd. cbn.
    split; [exact Hpos |].
    unfold correctionTarget. cbv zeta.
    set (e := calculateExpectedVideoTime r).
    destruct (duration_or_cases (video_duration v) e)
      as [(x & Hx & _ & Ex) | [[Hn | (x & Hx & Hz)] _]].
    + rewrite Ex. rewrite Hd in Hx. injection Hx as <-.
      destruct (min_spec_le e d) as [[Hle E] | [Hle E]]; rewrite E; lra.
    + congruence.
    + rewrite Hd in Hx. injection Hx as <-. contradiction.
  - reflexivity.
  - eexists. eexists. split; [reflexivity |]. split; reflexivity.
Qed.

Lemma correction_target_within_duration_witness :
  exists v',
    videoElementRef
      (snd (correctVideoTime driftThreshold_default 1000 false
              Scenario.beyondDuration)) = Some v'
    /\ video_duration v' = Some 120
    /\ within_duration (video_currentTime v') (video_duration v').
Proof.
  apply (proj1 correction_target_within_duration driftThreshold_default 1000
           false Scenario.beyondDuration _ (mkVideo 150 (Some 120)) 120).
  - reflexivity.
  - reflexivity.
  - reflexivity.
  - vm_compute. discriminate.
Defined.

End Correction.

(** ** The throttle *)

Section Throttle.

Import VideoSync.
Local Open Scope Q_scope.

Lemma calculateDrift_last (r : refs) :
  lastCorrectionTimeRef (snd (calculateDrift r)) = lastCorrectionTimeRef r.
Proof.
  unfold calculateDrift. destruct (videoElementRef r); reflexivity.
Qed.

(** An applied correction comes at least the throttle interval after the
    last one and becomes the last one; a call that applies none leaves the
    time of the last one alone. *)
Lemma correctVideoTime_last (th now : Q) (throws : bool) (r r' : refs)
    (b : bool) :
  correctVideoTime th now throws r = (b, r') ->
  if b then CORRECTION_THROTTLE_MS <= now - lastCorrectionTimeRef r
            /\ lastCorrectionTimeRef r' = now
  else lastCorrectionTimeRef r' = lastCorrectionTimeRef r.
Proof.
  destruct b.
  - intros H. apply correctVideoTime_applied in H
      as (v & _ & _ & Hthr & _ & _ & _ & _ & Hlast & _).
    split; assumption.
  - unfold correctVideoTime.
    destruct (videoElementRef r) as [v |] eqn:Hv;
      [| intros [= <-]; reflexivity].
    destruct (contextRef r); [| intros [= <-]; reflexivity].
    cbv zeta. destruct (JS.Qltb (now - _) _); [intros [= <-]; reflexivity |].
    unfold calculateDrift. rewrite Hv. cbv zeta.
    destruct (JS.Qltb th _); [| intros [= <-]; reflexivity].
    destruct (_ && _); [| intros [= <-]; reflexivity].
    destruct throws; [intros [= <-]; reflexivity | discriminate].
Qed.

Lemma periodicDriftCheck_last (th now : Q) (throws : bool) (r r' : refs)
    (b : bool) :
  periodicDriftCheck th now throws r = (b, r') ->
  if b then CORRECTION_THROTTLE_MS <= now - lastCorrectionTimeRef r
            /\ lastCorrectionTimeRef r' = now
  else lastCorrectionTimeRef r' = lastCorrectionTimeRef r.
Proof.
  unfold periodicDriftCheck. cbv zeta.
  set (r0 := set_active r (isActiveRef r) false).
  destruct (_ || _); [intros [= <- <-]; reflexivity |].
  destruct (calculateDrift r0) as [drift r1] eqn:Hd.
  assert (H1 : lastCorrectionTimeRef r1 = lastCorrectionTimeRef r).
  { change r1 with (snd (drift, r1)). rewrite <- Hd.
    apply (calculateDrift_last r0). }
  destruct (JS.Qltb (th * 2) _).
  - destruct (correctVideoTime th now throws r1) as [applied r2] eqn:Hc.
    apply correctVideoTime_last in Hc. rewrite H1 in Hc.
    destruct (_ && _); intros [= <- <-]; exact Hc.
  - destruct (_ && _); intros [= <- <-]; exact H1.
Qed.

Lemma cueChangeEffect_last (th now : Q) (throws : bool) (r r' : refs)
    (b : bool) :
  cueChangeEffect th now throws r = (b, r') ->
  if b then CORRECTION_THROTTLE_MS <= now - lastCorrectionTimeRef r
            /\ lastCorrectionTimeRef r' = now
  else lastCorrectionTimeRef r' = lastCorrectionTimeRef r.
Proof.
  unfold cueChangeEffect, forceSync. intros H.
  destruct (isPlayingRef r); [| injection H as <- <-; reflexivity].
  destruct (videoElementRef r); [| injection H as <- <-; reflexivity].
  destruct (contextRef r); [| injection H as <- <-; reflexivity].
  apply correctVideoTime_last in H. exact H.
Qed.

Lemma lifecycleEffect_last (r : refs) :
  lastCorrectionTimeRef (lifecycleEffect r) = lastCorrectionTimeRef r.
Proof.
  unfold lifecycleEffect, startSync, stopSync. cbv zeta.
  repeat match goal with
         | |- context [match ?x with _ => _ end] => destruct x; cbn
         end; reflexivity.
Qed.

Lemma step_last (th : Q) (o : op) (r r' : refs) (b : bool) :
  step th o r = (b, r') ->
  if b then exists now, op_now o = Some now
            /\ CORRECTION_THROTTLE_MS <= now - lastCorrectionTimeRef r
            /\ lastCorrectionTimeRef r' = now
  else lastCorrectionTimeRef r' = lastCorrectionTimeRef r.
Proof.
  destruct o as [now t | now t | now t | start offset now t | v | c | p |];
    cbn [step].
  - intros H. apply correctVideoTime_last in H.
    destruct b; [exists now; split; [reflexivity | exact H] | exact H].
  - intros H. apply periodicDriftCheck_last in H.
    destruct b; [exists now; split; [reflexivity | exact H] | exact H].
  - unfold forceSync. intros H.
    assert (H' : if b
                 then CORRECTION_THROTTLE_MS <= now - lastCorrectionTimeRef r
                      /\ lastCorrectionTimeRef r' = now
                 else lastCorrectionTimeRef r' = lastCorrectionTimeRef r).
    { destruct (videoElementRef r); [| injection H as <- <-; reflexivity].
      destruct (contextRef r); [| injection H as <- <-; reflexivity].
      apply correctVideoTime_last in H. exact H. }
    destruct b; [exists now; split; [reflexivity | exact H'] | exact H'].
  - unfold jump. cbv zeta. intros H. apply cueChangeEffect_last in H.
    assert (H0 : lastCorrectionTimeRef
                   (if negb (sameStart (audioStartTimeRef r) start)
                    then lifecycleEffect (set_session r start offset)
                    else set_session r start offset)
                 = lastCorrectionTimeRef r).
    { destruct (negb _); [rewrite lifecycleEffect_last |]; reflexivity. }
    rewrite H0 in H.
    destruct b; [exists now; split; [reflexivity | exact H] | exact H].
  - intros [= <- <-]. reflexivity.
  - intros [= <- <-]. reflexivity.
  - intros [= <- <-]. reflexivity.
  - intros [= <- <-]. apply lifecycleEffect_last.
Qed.

Lemma run_spaced (th : Q) (ops : list op) :
  forall (r r' : refs) (log : list Q),
    run th ops r = (log, r') -> spaced_from (lastCorrectionTimeRef r) log.
Proof.
  induction ops as [| o rest IH]; intros r r' log; cbn [run].
  - intros [= <- <-]. exact I.
  - destruct (step th o r) as [applied r1] eqn:Hs.
    destruct (run th rest r1) as [log1 r2] eqn:Hr.
    intros [= <- <-]. apply step_last in Hs. apply IH in Hr.
    destruct applied.
    + destruct Hs as (now & -> & Hge & Hlast). rewrite Hlast in Hr.
      split; assumption.
    + rewrite Hs in Hr. destruct (op_now o); exact Hr.
Qed.

Lemma spaced_from_after (log : list Q) :
  forall (last : Q) (j : nat) (tj : Q),
    spaced_from last log -> log !! j = Some tj ->
    CORRECTION_THROTTLE_MS <= tj - last.
Proof.
  induction log as [| t rest IH]; intros last j tj Hs Hj; [discriminate |].
  destruct Hs as [Ht Hrest]. destruct j as [| j].
  - injection Hj as <-. exact Ht.
  - cbn in Hj. specialize (IH t j tj Hrest Hj).
    unfold CORRECTION_THROTTLE_MS in *. lra.
Qed.

Lemma spaced_from_pairwise (log : list Q) :
  forall (last : Q) (i j : nat) (ti tj : Q),
    spaced_from last log -> (i < j)%nat ->
    log !! i = Some ti -> log !! j = Some tj ->
    CORRECTION_THROTTLE_MS <= tj - ti.
Proof.
  induction log as [| t rest IH]; intros last i j ti tj Hs Hij Hi Hj;
    [discriminate |].
  destruct Hs as [Ht Hrest]. destruct j as [| j]; [lia |]. cbn in Hj.
  destruct i as [| i].
  - injection Hi as <-. exact (spaced_from_after rest t j tj Hrest Hj).
  - cbn in Hi. apply (IH t i j ti tj Hrest); [lia | assumption | assumption].
Qed.

(** C5. In every run of the hook, whatever calls and changes of the
    environment it is made of, any two corrections applied are at least the
    throttle interval (100 ms) of wall-clock time apart, and the first one
    at least that long after the time the refs held at the start; a call
    inside the interval returns [false] and leaves the refs as they were.
    In scenario D the first tick applies its correction at 1000 ms and the
    tick 40 ms later, which finds a drift of 14.96 s, is such a no-op. *)
Theorem corrections_spaced_by_throttle :
  CORRECTION_THROTTLE_MS == 100
  /\ (forall (th : Q) (ops : list op) (r0 r : refs) (log : list Q),
        run th ops r0 = (log, r) ->
        (forall (j : nat) (tj : Q),
            log !! j = Some tj ->
            CORRECTION_THROTTLE_MS <= tj - lastCorrectionTimeRef r0)
        /\ (forall (i j : nat) (ti tj : Q),
              (i < j)%nat -> log !! i = Some ti -> log !! j = Some tj ->
              CORRECTION_THROTTLE_MS <= tj - ti))
  /\ (forall (th now : Q) (throws : bool) (r : refs),
        now - lastCorrectionTimeRef r < CORRECTION_THROTTLE_MS ->
        correctVideoTime th now throws r = (false, r))
  /\ fst (run driftThreshold_default Scenario.firstTick Scenario.basicSync)
     = [1000]
  /\ driftThreshold_default
     < JS.abs (fst (calculateDrift Scenario.beforeSecondTick))
  /\ correctVideoTime driftThreshold_default 1040 false
       Scenario.beforeSecondTick
     = (false, Scenario.beforeSecondTick)
  /\ fst (correctVideoTime driftThreshold_default 1100 false
            Scenario.beforeSecondTick) = true.
Proof.
  split; [reflexivity |]. split; [| split; [| repeat split]].
  - intros th ops r0 r log Hrun. apply run_spaced in Hrun. split.
    + intros j tj. apply spaced_from_after. exact Hrun.
    + intros i j ti tj.
      apply spaced_from_pairwise with (last := lastCorrectionTimeRef r0).
      exact Hrun.
  - apply correctVideoTime_throttled.
Qed.

Lemma corrections_spaced_by_throttle_witness :
  CORRECTION_THROTTLE_MS <= 1100 - 1000
  /\ correctVideoTime driftThreshold_default 1040 false
       Scenario.beforeSecondTick
     = (false, Scenario.beforeSecondTick).
Proof.
  destruct corrections_spaced_by_throttle as (_ & Hrun & Hthr & _).
  split.
  - destruct (Hrun driftThreshold_default
                (Scenario.firstTick ++ Scenario.betweenTicks
                 ++ [Correct 1100 false])
                Scenario.basicSync
                (snd (run driftThreshold_default
                        (Scenario.firstTick ++ Scenario.betweenTicks
                         ++ [Correct 1100 false]) Scenario.basicSync))
                [1000; 1100] eq_refl) as [_ Hpair].
    apply (Hpair 0%nat 1%nat 1000 1100); [lia | reflexivity | reflexivity].
  - apply Hthr. vm_compute. reflexivity.
Defined.

End Throttle.

(** ** The drift statistics *)

Section DriftStatistics.

Import VideoSync.
Local Open Scope Q_scope.

Lemma recordAll_snoc (ds : list Q) (d : Q) :
  recordAll (ds ++ [d]) = recordDrift (recordAll ds) d.
Proof. unfold recordAll. rewrite fold_left_app. reflexivity. Qed.

Lemma maximum_snoc (l : list Q) (x : Q) :
  maximum (l ++ [x]) = JS.max (maximum l) x.
Proof. unfold maximum. rewrite fold_left_app. reflexivity. Qed.

Lemma fold_max_ge_init (l : list Q) :
  forall a : Q, a <= fold_left JS.max l a.
Proof.
  induction l as [| y l IH]; intros a; cbn [fold_left]; [lra |].
  specialize (IH (JS.max a y)). pose proof (Q.le_max_l a y).
  unfold JS.max in *. lra.
Qed.

Lemma fold_max_ge_elem (l : list Q) :
  forall (a x : Q), x ∈ l -> x <= fold_left JS.max l a.
Proof.
  induction l as [| y l IH]; intros a x Hx; [inversion Hx |].
  cbn [fold_left]. apply elem_of_cons in Hx as [-> | Hx].
  - pose proof (fold_max_ge_init l (JS.max a y)).
    pose proof (Q.le_max_r a y). unfold JS.max in *. lra.
  - apply IH. exact Hx.
Qed.

Lemma maximum_ge (l : list Q) (x : Q) : x ∈ l -> x <= maximum l.
Proof. apply fold_max_ge_elem. Qed.

(** Pushing and shifting keeps the last entries. *)
Lemma shift_after_push (k : nat) (l : list Q) (x : Q) :
  (k <= length l)%nat ->
  tail (drop k l ++ [x]) = drop (S k) (l ++ [x]).
Proof.
  intros Hk. rewrite <- (drop_app_le l [x] k) by exact Hk.
  change (tail (drop k (l ++ [x]))) with (drop 1 (drop k (l ++ [x]))).
  rewrite drop_drop. f_equal. lia.
Qed.

Lemma history_recordDrift (s : stats) (d : Q) :
  driftHistory (recordDrift s d)
  = if (100 <? length (driftHistory s ++ [JS.abs d]))%nat
    then tail (driftHistory s ++ [JS.abs d])
    else driftHistory s ++ [JS.abs d].
Proof. reflexivity. Qed.

(** Since the last reset the history holds the last hundred samples. *)
Lemma history_recordAll (ds : list Q) :
  driftHistory (recordAll ds) = drop (length ds - 100) (map JS.abs ds).
Proof.
  induction ds as [| d ds IH] using rev_ind; [reflexivity |].
  rewrite recordAll_snoc, history_recordDrift, IH.
  rewrite map_app, !length_app, length_drop, length_map. cbn [map length].
  destruct (100 <? _)%nat eqn:E.
  - apply Nat.ltb_lt in E.
    replace (length ds + 1 - 100)%nat with (S (length ds - 100)) by lia.
    apply shift_after_push. rewrite length_map. lia.
  - apply Nat.ltb_ge in E.
    replace (length ds - 100)%nat with 0%nat by lia.
    replace (length ds + 1 - 100)%nat with 0%nat by lia.
    reflexivity.
Qed.

Lemma maxDrift_recordAll (ds : list Q) :
  maxDrift (recordAll ds) = maximum (map JS.abs ds).
Proof.
  induction ds as [| d ds IH] using rev_ind; [reflexivity |].
  rewrite recordAll_snoc, map_app.
  change (map JS.abs [d]) with [JS.abs d]. rewrite maximum_snoc, <- IH.
  reflexivity.
Qed.

(** The history never holds more than a hundred samples once it holds at
    most a hundred. *)
Lemma history_bounded (s : stats) (d : Q) :
  (length (driftHistory s) <= 100)%nat ->
  (length (driftHistory (recordDrift s d)) <= 100)%nat.
Proof.
  intros H. rewrite history_recordDrift.
  destruct (100 <? _)%nat eqn:E.
  - destruct (driftHistory s ++ [JS.abs d]) as [| x l] eqn:El; [cbn; lia |].
    assert (Hl : length (x :: l) = S (length (driftHistory s))).
    { rewrite <- El, length_app. cbn. lia. }
    cbn in *. lia.
  - apply Nat.ltb_ge in E. exact E.
Qed.

Lemma stored_le_maxDrift (s : stats) (d : Q) :
  (forall x, x ∈ driftHistory s -> x <= maxDrift s) ->
  forall x, x ∈ driftHistory (recordDrift s d) ->
            x <= maxDrift (recordDrift s d).
Proof.
  intros Hs x Hx. rewrite history_recordDrift in Hx.
  assert (Hin : x ∈ driftHistory s ++ [JS.abs d]).
  { destruct (100 <? _)%nat; [| exact Hx].
    destruct (driftHistory s ++ [JS.abs d]); [exact Hx |].
    apply elem_of_cons. right. exact Hx. }
  cbn [recordDrift maxDrift].
  pose proof (Q.le_max_l (maxDrift s) (JS.abs d)).
  pose proof (Q.le_max_r (maxDrift s) (JS.abs d)).
  apply elem_of_app in Hin as [Hin | Hin].
  - specialize (Hs x Hin). unfold JS.max. lra.
  - apply list_elem_of_singleton in Hin as ->. unfold JS.max. lra.
Qed.

(** C6 as stated fails for [maxDrift] once a sample has been evicted:
    after a sample of 1 s and a hundred samples of 0 s the history holds a
    hundred zeros, and [maxDrift] still is 1 s. *)
Lemma maxDrift_outlives_evicted_sample :
  length (driftHistory (statsRef Scenario.afterEviction)) = 100%nat
  /\ maximum (driftHistory (statsRef Scenario.afterEviction)) == 0
  /\ maxDrift (statsRef Scenario.afterEviction) == 1
  /\ ~ maxDrift (statsRef Scenario.afterEviction)
       == maximum (driftHistory (statsRef Scenario.afterEviction)).
Proof.
  split; [vm_compute; reflexivity |].
  split; [vm_compute; reflexivity |].
  split; [vm_compute; reflexivity |].
  vm_compute. discriminate.
Qed.

(** C6, amended. A drift sample of a hook with an element records the
    magnitude of [currentTime - expected]. After every sample the history
    holds the samples it held and the new one, less the oldest if that
    makes more than a hundred, hence at most a hundred; [avgDrift] is the
    sum of the stored samples divided by their number; [maxDrift] is the
    larger of its former value and the new magnitude, a running maximum
    that no stored sample exceeds. Counted from the last reset, the history
    is the last hundred samples, and [maxDrift] the maximum of all samples
    taken, which is the maximum of the stored ones as long as there were at
    most a hundred. *)
Theorem drift_statistics_after_sample :
  (forall (r : refs) (v : video),
      videoElementRef r = Some v ->
      calculateDrift r
      = (video_currentTime v - calculateExpectedVideoTime r,
         set_stats r
           (recordDrift (statsRef r)
              (video_currentTime v - calculateExpectedVideoTime r))))
  /\ (forall (s : stats) (d : Q),
        driftHistory (recordDrift s d)
        = (if (100 <? length (driftHistory s ++ [JS.abs d]))%nat
           then tail (driftHistory s ++ [JS.abs d])
           else driftHistory s ++ [JS.abs d])
        /\ ((length (driftHistory s) <= 100)%nat ->
            (length (driftHistory (recordDrift s d)) <= 100)%nat)
        /\ avgDrift (recordDrift s d)
           = JS.sum (driftHistory (recordDrift s d))
             / inject_Z (Z.of_nat (length (driftHistory (recordDrift s d))))
        /\ maxDrift (recordDrift s d) = JS.max (maxDrift s) (JS.abs d)
        /\ ((forall x, x ∈ driftHistory s -> x <= maxDrift s) ->
            forall x, x ∈ driftHistory (recordDrift s d) ->
                      x <= maxDrift (recordDrift s d)))
  /\ (forall ds : list Q,
        driftHistory (recordAll ds)
        = drop (length ds - 100) (map JS.abs ds)
        /\ (length (driftHistory (recordAll ds)) <= 100)%nat
        /\ maxDrift (recordAll ds) = maximum (map JS.abs ds)
        /\ (forall x, x ∈ driftHistory (recordAll ds) ->
                      x <= maxDrift (recordAll ds))
        /\ ((length ds <= 100)%nat ->
            maxDrift (recordAll ds) = maximum (driftHistory (recordAll ds)))).
Proof.
  split; [| split].
  - intros r v Hv. unfold calculateDrift. rewrite Hv. reflexivity.
  - intros s d. split; [reflexivity |].
    split; [apply history_bounded |].
    split; [reflexivity |]. split; [reflexivity |].
    apply stored_le_maxDrift.
  - intros ds. rewrite maxDrift_recordAll, history_recordAll.
    split; [reflexivity |].
    split; [rewrite length_drop, length_map; lia |].
    split; [reflexivity |]. split.
    + intros x Hx. apply maximum_ge.
      apply (subseteq_drop (length ds - 100) (map JS.abs ds)). exact Hx.
    + intros Hle. replace (length ds - 100)%nat with 0%nat by lia.
      reflexivity.
Qed.

Lemma drift_statistics_after_sample_witness :
  calculateDrift Scenario.basicSync
  = (10 - 20,
     set_stats Scenario.basicSync (recordDrift emptyStats (10 - 20)))
  /\ (length (driftHistory (recordDrift emptyStats (10 - 20))) <= 100)%nat
  /\ maxDrift (recordAll [1; 0]) = maximum (driftHistory (recordAll [1; 0])).
Proof.
  destruct drift_statistics_after_sample as (Htick & Hstep & Hall).
  split; [| split].
  - apply (Htick Scenario.basicSync (mkVideo 10 (Some 120))). reflexivity.
  - apply (Hstep emptyStats (10 - 20)). cbn. lia.
  - apply (Hall [1; 0]). cbn. lia.
Defined.

End DriftStatistics.

(** ** The forced sync of a cue jump *)

Section CueJump.

Import VideoSync.
Local Open Scope Q_scope.

(** Inside the throttle interval the cue-change effect corrects nothing. *)
Lemma cueChangeEffect_throttled (th now : Q) (throws : bool) (r : refs) :
  now - lastCorrectionTimeRef r < CORRECTION_THROTTLE_MS ->
  cueChangeEffect th now throws r = (false, r).
Proof.
  intros H. unfold cueChangeEffect, forceSync.
  destruct (isPlayingRef _); [| reflexivity].
  destruct (videoElementRef _); [| reflexivity].
  destruct (contextRef _); [| reflexivity].
  apply correctVideoTime_throttled. exact H.
Qed.

(** C2. Two cue jumps 40 ms of wall-clock apart: the first is corrected
    at 1000 ms; for the second the effect calls [forceSync], which goes
    through the throttle of [correctVideoTime], so that nothing is
    corrected and the element stays at 5.04 s while 25 s are expected. The
    same jump 100 ms after the first correction is corrected. *)
Theorem cue_jump_inside_throttle_not_corrected :
  fst (run driftThreshold_default
         (Scenario.firstJump ++ [Scenario.secondJump]) Scenario.inSync)
  = [1000]
  /\ lastCorrectionTimeRef Scenario.afterFirstJump = 1000
  /\ fst (jump driftThreshold_default (Some (1004 # 100)) 25 1040 false
            Scenario.afterFirstJump) = false
  /\ videoElementRef
       (snd (jump driftThreshold_default (Some (1004 # 100)) 25 1040 false
               Scenario.afterFirstJump))
     = Some (mkVideo (504 # 100) (Some 120))
  /\ calculateExpectedVideoTime
       (snd (jump driftThreshold_default (Some (1004 # 100)) 25 1040 false
               Scenario.afterFirstJump)) == 25
  /\ driftHistory
       (statsRef
          (snd (jump driftThreshold_default (Some (1004 # 100)) 25 1040 false
                  Scenario.afterFirstJump))) = []
  /\ fst (jump driftThreshold_default (Some (1004 # 100)) 25 1100 false
            Scenario.afterFirstJump) = true.
Proof.
  repeat split; vm_compute; reflexivity.
Qed.

End CueJump.

(** ** Sorting by time *)

Section Sorting.

Import CuePointEditor.
Local Open Scope Q_scope.

Context {A : Type} (t : A -> Q).

Lemma insertByTime_perm (x : A) (l : list A) :
  Permutation (insertByTime t x l) (x :: l).
Proof.
  induction l as [| y l IH]; cbn [insertByTime]; [reflexivity |].
  destruct (Qle_bool (t x) (t y)); [reflexivity |].
  rewrite IH. apply perm_swap.
Qed.

Lemma sortByTime_perm (l : list A) : Permutation (sortByTime t l) l.
Proof.
  induction l as [| x l IH]; [reflexivity |].
  cbn [sortByTime fold_right]. fold (sortByTime t l).
  rewrite insertByTime_perm. apply perm_skip. exact IH.
Qed.

Lemma insertByTime_ascending (x : A) (l : list A) :
  ascending t l -> ascending t (insertByTime t x l).
Proof.
  unfold ascending. induction l as [| y l IH]; intros Hs; cbn [insertByTime].
  - constructor; constructor.
  - apply StronglySorted_inv in Hs as [Hl Hy].
    destruct (Qle_bool (t x) (t y)) eqn:E.
    + apply Qle_bool_iff in E. constructor.
      * constructor; assumption.
      * constructor; [exact E |].
        eapply Forall_impl; [exact Hy |]. cbn. intros a Ha. lra.
    + assert (Hlt : t y < t x).
      { apply Qltb_lt. unfold JS.Qltb. rewrite E. reflexivity. }
      constructor; [apply IH; exact Hl |].
      rewrite insertByTime_perm. constructor; [lra | exact Hy].
Qed.

Lemma sortByTime_ascending (l : list A) : ascending t (sortByTime t l).
Proof.
  induction l as [| x l IH]; [constructor |].
  cbn [sortByTime fold_right]. fold (sortByTime t l).
  apply insertByTime_ascending. exact IH.
Qed.

(** The sort is stable: an array already ascending is left as it is. *)
Lemma sortByTime_ascending_id (l : list A) :
  ascending t l -> sortByTime t l = l.
Proof.
  unfold ascending. induction l as [| x l IH]; intros Hs; [reflexivity |].
  apply StronglySorted_inv in Hs as [Hl Hx].
  cbn [sortByTime fold_right]. fold (sortByTime t l). rewrite (IH Hl).
  destruct l as [| y l']; [reflexivity |]. cbn [insertByTime].
  apply Forall_inv in Hx. apply Qle_bool_iff in Hx. rewrite Hx. reflexivity.
Qed.

End Sorting.

(** ** Validation and update of a cue *)

Section Validation.

Import CuePointEditor.
Local Open Scope Q_scope.

Lemma truthy_nonempty (s : string) : Str.truthy s = true <-> s <> ""%string.
Proof. destruct s; cbn; split; congruence. Qed.

Lemma blank_empty : Str.is_blank "" = true.
Proof. reflexivity. Qed.

Lemma findDuplicateFrom_None (l : list cue) (k : string) (index : nat) :
  forall i : nat,
    findDuplicateFrom l k index i = None
    <-> (forall (j : nat) (other : cue),
            l !! j = Some other -> (i + j)%nat <> index -> key other <> k).
Proof.
  induction l as [| c l IH]; intros i; cbn [findDuplicateFrom].
  - split; [intros _ j other Hj; discriminate | reflexivity].
  - destruct (negb (i =? index)%nat && String.eqb (key c) k) eqn:E.
    + split; [discriminate |]. intros H. exfalso.
      apply andb_true_iff in E as [Hi Hk].
      apply negb_true_iff, Nat.eqb_neq in Hi. apply String.eqb_eq in Hk.
      apply (H 0%nat c); [reflexivity | lia | exact Hk].
    + rewrite IH. split.
      * intros H [| j] other Hj Hne.
        -- injection Hj as <-. apply andb_false_iff in E as [Hi | Hk].
           ++ apply negb_false_iff, Nat.eqb_eq in Hi. lia.
           ++ apply String.eqb_neq. exact Hk.
        -- apply (H j other Hj). lia.
      * intros H j other Hj Hne. apply (H (S j) other Hj). lia.
Qed.

(** What [validateCue] accepts. *)
Lemma validateCue_accepts (audioDuration : Q) (cues : list cue) (c : cue)
    (index : nat) :
  no_errors (validateCue audioDuration cues c index) = true
  <-> (0 <= time c /\ time c <= audioDuration)
      /\ Str.is_blank (label c) = false
      /\ (key c = ""%string
          \/ forall (i : nat) (other : cue),
               cues !! i = Some other -> i <> index -> key other <> key c).
Proof.
  unfold no_errors, validateCue. cbn [err_time err_label err_key].
  assert (Hlabel : negb (Str.truthy (label c)) || Str.is_blank (label c)
                   = Str.is_blank (label c)).
  { destruct (label c); reflexivity. }
  rewrite Hlabel. clear Hlabel.
  destruct (JS.Qltb (time c) 0) eqn:Hneg.
  { apply Qltb_lt in Hneg. split; [discriminate | intros [[H _] _]; lra]. }
  apply Qltb_ge in Hneg.
  destruct (JS.Qltb audioDuration (time c)) eqn:Hexc.
  { apply Qltb_lt in Hexc. split; [discriminate | intros [[_ H] _]; lra]. }
  apply Qltb_ge in Hexc.
  destruct (Str.is_blank (label c)) eqn:Hb.
  { split; [discriminate | intros [_ [H _]]; discriminate]. }
  destruct (Str.truthy (key c)) eqn:Hk.
  - apply truthy_nonempty in Hk.
    destruct (findDuplicateFrom cues (key c) index 0) as [d |] eqn:Hd.
    + split; [discriminate |]. intros [_ [_ [H | H]]]; [contradiction |].
      assert (Hn : findDuplicateFrom cues (key c) index 0 = None).
      { apply findDuplicateFrom_None. intros j other Hj Hne.
        apply (H j other Hj). exact Hne. }
      congruence.
    + split; [| reflexivity]. intros _.
      split; [split; assumption |]. split; [reflexivity |]. right.
      intros i other Hi Hne.
      apply (proj1 (findDuplicateFrom_None cues (key c) index 0) Hd i other Hi).
      exact Hne.
  - split; [| reflexivity]. intros _.
    split; [split; assumption |]. split; [reflexivity |]. left.
    destruct (key c); [reflexivity | discriminate].
Qed.

(** C7. For every update of a field of the cue at an index of the
    registry. The modified record is the old one with the field set: for
    the time, the time is the number parsed from the value and the sample
    position is the one of that time at the editor's sample rate; for the
    label or the key, it is the value; every other field is the old one.
    Validation accepts the modified record exactly when its time lies in
    [[0, duration]], its label is not blank and its key is empty or used
    by no other cue; so a time outside the range, an empty label or a key
    of another cue make it fail. When it fails, the errors are stored
    under the index and the registry is the one before: so it is for a
    value parsed to a time below 0 or beyond the duration, for an empty
    label, and for a key that another cue carries. When it succeeds, the
    registry committed holds the modified record in place of the old one,
    re-sorted ascending by time if the field is the time, and as it stands
    otherwise. *)
Theorem updateCue_validates_then_commits :
  forall (audioDuration : Q) (sampleRate : Z) (parseTime : string -> Q)
         (e : editor) (index : nat) (f : field) (value : string) (old : cue),
    cuePoints e !! index = Some old ->
    let c := modifiedCue sampleRate parseTime old f value in
    let errs := validateCue audioDuration (cuePoints e) c index in
    let updated := <[index := c]> (cuePoints e) in
    (no_errors errs = true
     <-> (0 <= time c /\ time c <= audioDuration)
         /\ Str.is_blank (label c) = false
         /\ (key c = ""%string
             \/ forall (i : nat) (other : cue),
                  cuePoints e !! i = Some other -> i <> index ->
                  key other <> key c))
    /\ (time c < 0 \/ audioDuration < time c \/ label c = ""%string
        \/ (key c <> ""%string
            /\ exists (i : nat) (other : cue),
                 i <> index /\ cuePoints e !! i = Some other
                 /\ key other = key c) ->
        no_errors errs = false)
    /\ (no_errors errs = false ->
        exists e',
          updateCue audioDuration sampleRate parseTime e index f value
          = Some e'
          /\ cuePoints e' = cuePoints e
          /\ validationErrors e' !! index = Some errs)
    /\ (no_errors errs = true ->
        exists e',
          updateCue audioDuration sampleRate parseTime e index f value
          = Some e'
          /\ validationErrors e' !! index = Some errs
          /\ Permutation (cuePoints e') updated
          /\ (f = FTime ->
              cuePoints e' = sortByTime time updated
              /\ ascending time (cuePoints e'))
          /\ (f <> FTime -> cuePoints e' = updated))
    /\ (sample_rate c = sample_rate old
        /\ match f with
           | FTime =>
               time c = parseTime value
               /\ sample_position c
                  = JS.round (parseTime value * inject_Z sampleRate)
               /\ label c = label old /\ key c = key old
           | FLabel =>
               label c = value
               /\ time c = time old /\ key c = key old
               /\ sample_position c = sample_position old
           | FKey =>
               key c = value
               /\ time c = time old /\ label c = label old
               /\ sample_position c = sample_position old
           end)
    /\ ((f = FTime
         /\ (parseTime value < 0 \/ audioDuration < parseTime value))
        \/ (f = FLabel /\ value = ""%string)
        \/ (f = FKey /\ value <> ""%string
            /\ exists (i : nat) (other : cue),
                 i <> index /\ cuePoints e !! i = Some other
                 /\ key other = value) ->
        exists e',
          updateCue audioDuration sampleRate parseTime e index f value
          = Some e'
          /\ cuePoints e' = cuePoints e
          /\ validationErrors e' !! index = Some errs
          /\ no_errors errs = false
          /\ (f = FTime -> parseTime value < 0 ->
              err_time errs = Some TimeNegative)
          /\ (f = FTime -> 0 <= parseTime value ->
              err_time errs = Some TimeExceedsDuration)
          /\ (f = FLabel -> err_label errs = true)
          /\ (f = FKey -> exists d : nat, err_key errs = Some d)).
Proof.
  intros audioDuration sampleRate parseTime e index f value old Hold c errs
    updated.
  pose proof (validateCue_accepts audioDuration (cuePoints e) c index)
    as Hacc. fold errs in Hacc.
  assert (Hbad : time c < 0 \/ audioDuration < time c \/ label c = ""%string
                 \/ (key c <> ""%string
                     /\ exists (i : nat) (other : cue),
                          i <> index /\ cuePoints e !! i = Some other
                          /\ key other = key c) ->
                 no_errors errs = false).
  { intros Hbad. destruct (no_errors errs) eqn:E; [| reflexivity].
    destruct (proj1 Hacc eq_refl) as [[H0 Hd] [Hb Hk]]. exfalso.
    destruct Hbad as [H | [H | [H | [Hne (i & other & Hi & Ho & Heq)]]]].
    + lra.
    + lra.
    + rewrite H in Hb. discriminate.
    + destruct Hk as [Hk | Hk]; [contradiction |].
      exact (Hk i other Ho Hi Heq). }
  assert (Hfails : no_errors errs = false ->
                   exists e',
                     updateCue audioDuration sampleRate parseTime e index f
                       value = Some e'
                     /\ cuePoints e' = cuePoints e
                     /\ validationErrors e' !! index = Some errs).
  { intros Hfail. unfold updateCue. rewrite Hold. cbv zeta.
    fold c. fold errs. rewrite Hfail.
    eexists. split; [reflexivity |]. split; [reflexivity |].
    cbn [validationErrors]. apply lookup_insert_eq. }
  split; [exact Hacc |]. split; [exact Hbad |]. split; [exact Hfails |].
  split; [| split].
  - intros Hok. unfold updateCue. rewrite Hold. cbv zeta.
    fold c. fold errs. fold updated. rewrite Hok.
    eexists. split; [reflexivity |].
    cbn [validationErrors cuePoints].
    split; [apply lookup_insert_eq |]. split; [| split].
    + destruct f; [apply sortByTime_perm | reflexivity | reflexivity].
    + intros ->. split; [reflexivity | apply sortByTime_ascending].
    + intros Hf. destruct f; [contradiction | reflexivity | reflexivity].
  - subst c. destruct f; cbn; repeat split.
  - intros Hcase.
    assert (Hfail : no_errors errs = false).
    { apply Hbad.
      destruct Hcase as [[-> Ht] | [[-> Hv] | [-> [Hv (i & other & H)]]]];
        subst c; cbn [modifiedCue time label key].
      - destruct Ht as [Ht | Ht]; [left | right; left]; exact Ht.
      - right. right. left. exact Hv.
      - right. right. right. split; [exact Hv |]. exists i, other. exact H. }
    destruct (Hfails Hfail) as (e' & He' & Hsame & Herr).
    exists e'. split; [exact He' |]. split; [exact Hsame |].
    split; [exact Herr |]. split; [exact Hfail |].
    destruct Hcase as [[-> Ht] | [[-> Hv] | [-> [Hv (i & other & Hi & Ho & Hk)]]]];
      subst errs c; unfold validateCue;
      cbn [modifiedCue time label key err_time err_label err_key].
    + split; [| split; [| split; intros [=]]].
      * intros _ Hneg. apply Qltb_lt in Hneg. rewrite Hneg. reflexivity.
      * intros _ Hpos. destruct Ht as [Ht | Ht]; [lra |].
        apply Qltb_ge in Hpos. apply Qltb_lt in Ht. rewrite Hpos, Ht.
        reflexivity.
    + subst value.
      split; [intros [=] |]. split; [intros [=] |].
      split; [reflexivity | intros [=]].
    + split; [intros [=] |]. split; [intros [=] |]. split; [intros [=] |].
      intros _. apply truthy_nonempty in Hv. rewrite Hv.
      destruct (findDuplicateFrom (cuePoints e) value index 0) as [d |] eqn:Hd;
        [exists d; reflexivity |].
      exfalso.
      apply (proj1 (findDuplicateFrom_None (cuePoints e) value index 0) Hd
               i other Ho); [cbn; exact Hi | exact Hk].
Qed.

Lemma updateCue_validates_then_commits_witness :
  (exists e',
      updateCue 10 48000 (fun _ => 5) Scenario.twoCues 0 FTime "5" = Some e'
      /\ ascending time (cuePoints e'))
  /\ (exists e',
        updateCue 10 48000 (fun _ => 5) Scenario.twoCues 1 FKey "1" = Some e'
        /\ cuePoints e' = cuePoints Scenario.twoCues)
  /\ (exists e',
        updateCue 10 48000 (fun _ => -1) Scenario.twoCues 0 FTime "-1"
        = Some e'
        /\ cuePoints e' = cuePoints Scenario.twoCues).
Proof.
  split; [| split].
  - destruct (updateCue_validates_then_commits 10 48000 (fun _ => 5)
                Scenario.twoCues 0 FTime "5" _ eq_refl)
      as (_ & _ & _ & Hok & _).
    destruct (Hok eq_refl) as (e' & He' & _ & _ & Htime & _).
    exists e'. split; [exact He' |]. apply Htime. reflexivity.
  - destruct (updateCue_validates_then_commits 10 48000 (fun _ => 5)
                Scenario.twoCues 1 FKey "1" _ eq_refl)
      as (_ & _ & Hfail & _).
    destruct (Hfail eq_refl) as (e' & He' & Hsame & _).
    exists e'. split; [exact He' | exact Hsame].
  - destruct (updateCue_validates_then_commits 10 48000 (fun _ => -1)
                Scenario.twoCues 0 FTime "-1" _ eq_refl)
      as (_ & _ & _ & _ & _ & Hrej).
    destruct Hrej as (e' & He' & Hsame & _).
    { left. split; [reflexivity |]. left. reflexivity. }
    exists e'. split; [exact He' | exact Hsame].
Defined.

End Validation.

(** ** Export and import of the registry *)

Section RoundTrip.

Import Json CuePointEditor.
Local Open Scope Q_scope.

Variable sampleRate : Z.

Lemma truthy_num_inject_Z (z : Z) :
  JS.truthy_num (inject_Z z) = negb (z =? 0)%Z.
Proof.
  unfold JS.truthy_num, Qeq_bool, inject_Z. cbn.
  rewrite Z.mul_1_r. reflexivity.
Qed.

Lemma or_default_str (k : string) :
  or_default (Some (JStr k)) (JStr "") = JStr k.
Proof. destruct k; reflexivity. Qed.

Lemma or_default_num (z d : Z) :
  (z = 0%Z -> d = 0%Z) ->
  or_default (Some (JNum (inject_Z z))) (JNum (inject_Z d))
  = JNum (inject_Z z).
Proof.
  intros H. unfold or_default, truthy. rewrite truthy_num_inject_Z.
  destruct (Z.eqb_spec z 0) as [Hz | Hz]; cbn [negb]; [| reflexivity].
  rewrite (H Hz), Hz. reflexivity.
Qed.

Lemma derived_storable (c : cue) :
  derived sampleRate c -> storable sampleRate c.
Proof.
  intros (Hl & Hr & Hp). split; [exact Hl |]. split.
  - intros H. rewrite <- Hr. exact H.
  - intros H. rewrite <- Hp. exact H.
Qed.

(** The import reads a storable cue back as it was written. *)
Lemma loadCue_cueToJson (index : nat) (c : cue) :
  storable sampleRate c ->
  loadCue sampleRate index (cueToJson c) = inr (ofCue c).
Proof.
  intros (Hl & Hr & Hp). unfold loadCue, cueToJson.
  cbn [get_prop String.eqb Ascii.eqb Bool.eqb].
  rewrite or_default_str, (or_default_num _ _ Hr), (or_default_num _ _ Hp).
  assert (Ht : truthy (Some (JStr (label c))) = true).
  { cbn [truthy]. apply truthy_nonempty. exact Hl. }
  rewrite Ht. reflexivity.
Qed.

Lemma loadCuesFrom_cueToJson (X : list cue) :
  Forall (storable sampleRate) X ->
  forall index : nat,
    loadCuesFrom sampleRate index (map cueToJson X) = inr (map ofCue X).
Proof.
  induction 1 as [| c X Hc _ IH]; intros index; [reflexivity |].
  cbn [map loadCuesFrom]. rewrite (loadCue_cueToJson index c Hc), IH.
  reflexivity.
Qed.

Lemma ascending_ofCue (X : list cue) :
  ascending time X -> ascending l_time (map ofCue X).
Proof.
  unfold ascending. induction 1 as [| c X _ IH Hc]; [constructor |].
  cbn [map]. constructor; [exact IH |].
  apply Forall_map. exact Hc.
Qed.

Lemma ofCue_inj (c1 c2 : cue) : ofCue c1 = ofCue c2 -> c1 = c2.
Proof.
  destruct c1, c2. unfold ofCue, inject_Z. cbn. intros H.
  injection H as -> -> -> -> ->. reflexivity.
Qed.

Lemma or_default_num_inv (z d : Z) :
  or_default (Some (JNum (inject_Z z))) (JNum (inject_Z d))
  = JNum (inject_Z z) ->
  z = 0%Z -> d = 0%Z.
Proof.
  intros H ->. unfold or_default, truthy in H.
  rewrite truthy_num_inject_Z in H. cbn in H.
  injection H as H. exact H.
Qed.

(** What the import reads from the object written for a cue. *)
Lemma loadCue_cueToJson_cases (index : nat) (c : cue) :
  loadCue sampleRate index (cueToJson c)
  = if Str.truthy (label c)
    then inr (mkLoaded (time c) (JStr (label c)) (JStr (key c))
                (or_default (Some (JNum (inject_Z (sample_rate c))))
                   (JNum (inject_Z sampleRate)))
                (or_default (Some (JNum (inject_Z (sample_position c))))
                   (JNum (inject_Z
                            (calculateSamplePosition sampleRate (time c))))))
    else inl (InvalidCue index).
Proof.
  unfold loadCue, cueToJson.
  cbn [get_prop String.eqb Ascii.eqb Bool.eqb].
  rewrite or_default_str. cbn [truthy].
  destruct (Str.truthy (label c)); reflexivity.
Qed.

(** Only a storable cue is read back as it was written. *)
Lemma loadCue_cueToJson_inv (index : nat) (c : cue) :
  loadCue sampleRate index (cueToJson c) = inr (ofCue c) ->
  storable sampleRate c.
Proof.
  rewrite loadCue_cueToJson_cases.
  destruct (Str.truthy (label c)) eqn:Hl; [| discriminate].
  unfold ofCue. intros H. injection H as Hr Hp.
  split; [apply truthy_nonempty; exact Hl |]. split.
  - apply (or_default_num_inv _ _ Hr).
  - apply (or_default_num_inv _ _ Hp).
Qed.

(** The cues read from an exported array have the times of the cues
    written. *)
Lemma loadCuesFrom_times (X : list cue) :
  forall (index : nat) (L : list loadedCue),
    loadCuesFrom sampleRate index (map cueToJson X) = inr L ->
    map l_time L = map time X.
Proof.
  induction X as [| c X IH]; intros index L; cbn [map loadCuesFrom].
  - intros [= <-]. reflexivity.
  - rewrite loadCue_cueToJson_cases.
    destruct (Str.truthy (label c)); [| discriminate].
    destruct (loadCuesFrom sampleRate (S index) (map cueToJson X))
      as [err | cs] eqn:E; [discriminate |].
    intros [= <-]. cbn [map l_time]. rewrite (IH _ _ E). reflexivity.
Qed.

Lemma loadCuesFrom_exact (X : list cue) :
  forall index : nat,
    loadCuesFrom sampleRate index (map cueToJson X) = inr (map ofCue X) ->
    Forall (storable sampleRate) X.
Proof.
  induction X as [| c X IH]; intros index; cbn [map loadCuesFrom];
    [constructor |].
  destruct (loadCue sampleRate index (cueToJson c)) as [err | l] eqn:Ec;
    [discriminate |].
  destruct (loadCuesFrom sampleRate (S index) (map cueToJson X))
    as [err | cs] eqn:E; [discriminate |].
  intros [= -> ->]. constructor.
  - apply (loadCue_cueToJson_inv index). exact Ec.
  - apply (IH (S index)). exact E.
Qed.

(** Being ascending depends on the times only. *)
Lemma ascending_times {A B : Type} (t : A -> Q) (u : B -> Q) (l : list A) :
  forall k : list B,
    map t l = map u k -> ascending t l -> ascending u k.
Proof.
  unfold ascending. induction l as [| a l IH]; intros [| b k] E H;
    try discriminate; [constructor |].
  cbn [map] in E. injection E as Eh Et.
  apply StronglySorted_inv in H as [Hl Ha].
  constructor; [apply (IH k Et Hl) |].
  clear IH Hl. revert k Et. induction Ha as [| x l Hx _ IHa]; intros [| y k] Et;
    try discriminate; [constructor |].
  cbn [map] in Et. injection Et as Ex Et.
  constructor; [rewrite <- Eh, <- Ex; exact Hx | apply (IHa k Et)].
Qed.

Lemma import_of_export_exact (X : list cue) :
  ascending time X ->
  loadCuesFromJSON sampleRate (Some (saveCuesToJSON X))
  = Loaded (map ofCue X) ->
  Forall (storable sampleRate) X.
Proof.
  intros Hasc. unfold loadCuesFromJSON, saveCuesToJSON.
  destruct (loadCuesFrom sampleRate 0 (map cueToJson X)) as [err | L] eqn:E;
    [discriminate |].
  intros [= H].
  assert (HL : ascending l_time L).
  { apply (ascending_times time l_time X L); [| exact Hasc].
    symmetry. apply (loadCuesFrom_times X 0 L E). }
  rewrite (sortByTime_ascending_id l_time L HL) in H. subst L.
  apply (loadCuesFrom_exact X 0 E).
Qed.

(** A cue that [validateCue] accepts and that holds the editor's sample
    rate and the sample position of its time is storable. *)
Lemma valid_derived_storable (audioDuration : Q) (cues : list cue)
    (index : nat) (c : cue) :
  no_errors (validateCue audioDuration cues c index) = true ->
  sample_rate c = sampleRate ->
  sample_position c = calculateSamplePosition sampleRate (time c) ->
  storable sampleRate c.
Proof.
  intros Hok Hr Hp. apply derived_storable.
  apply validateCue_accepts in Hok as (_ & Hb & _).
  split; [| split; assumption].
  intros E. rewrite E in Hb. discriminate.
Qed.

End RoundTrip.

(** C9, counterexample. A registry of one cue that [validateCue] accepts,
    sorted, whose sample position is the one of its time at its own sample
    rate of 44100 (0.000011 s is sample 0.4851, rounded 0): exported and
    imported by an editor at 48000 it comes back with the sample position
    1, since the stored 0 is falsy and the import recomputes it as
    [Math.round(0.000011 * 48000)]. *)
Theorem import_of_export_recomputes_zero_position :
  CuePointEditor.no_errors
    (CuePointEditor.validateCue 10 [Scenario.earlyCue] Scenario.earlyCue 0)
  = true
  /\ CuePointEditor.ascending CuePointEditor.time [Scenario.earlyCue]
  /\ CuePointEditor.sample_position Scenario.earlyCue
     = JS.round (CuePointEditor.time Scenario.earlyCue
                 * inject_Z (CuePointEditor.sample_rate Scenario.earlyCue))
  /\ CuePointEditor.loadCuesFromJSON 48000
       (Some (CuePointEditor.saveCuesToJSON [Scenario.earlyCue]))
     = CuePointEditor.Loaded
         [CuePointEditor.mkLoaded (11 # 1000000) (Json.JStr "Intro")
            (Json.JStr "1") (Json.JNum (inject_Z 44100))
            (Json.JNum (inject_Z 1))]
  /\ CuePointEditor.loadCuesFromJSON 48000
       (Some (CuePointEditor.saveCuesToJSON [Scenario.earlyCue]))
     <> CuePointEditor.Loaded (map CuePointEditor.ofCue [Scenario.earlyCue]).
Proof.
  split; [reflexivity |]. split; [repeat constructor |].
  split; [reflexivity |]. split; [reflexivity |].
  vm_compute. discriminate.
Qed.

(** C9. For a registry sorted ascending by time, importing what was
    exported gives the registry back, element for element and field for
    field, exactly when every cue is labelled and holds a sample rate and
    a sample position that the import does not replace by its defaults: a
    sample rate other than 0 (unless the editor's is 0) and a sample
    position other than 0 (unless that is the position of its time at the
    editor's sample rate). Such are the cues made by the editor at its
    sample rate, and the cues [validateCue] accepts that hold the editor's
    sample rate and the sample position of their time; distinct cues are
    read back as distinct. *)
Theorem import_of_export_is_identity :
  forall (sampleRate : Z) (X : list CuePointEditor.cue),
    CuePointEditor.ascending CuePointEditor.time X ->
    (CuePointEditor.loadCuesFromJSON sampleRate
       (Some (CuePointEditor.saveCuesToJSON X))
     = CuePointEditor.Loaded (map CuePointEditor.ofCue X)
     <-> Forall (CuePointEditor.storable sampleRate) X)
    /\ (forall c1 c2 : CuePointEditor.cue,
          CuePointEditor.ofCue c1 = CuePointEditor.ofCue c2 -> c1 = c2)
    /\ (forall c : CuePointEditor.cue,
          CuePointEditor.derived sampleRate c ->
          CuePointEditor.storable sampleRate c)
    /\ (forall (audioDuration : Q) (cues : list CuePointEditor.cue)
               (index : nat) (c : CuePointEditor.cue),
          CuePointEditor.no_errors
            (CuePointEditor.validateCue audioDuration cues c index) = true ->
          CuePointEditor.sample_rate c = sampleRate ->
          CuePointEditor.sample_position c
          = CuePointEditor.calculateSamplePosition sampleRate
              (CuePointEditor.time c) ->
          CuePointEditor.storable sampleRate c).
Proof.
  intros sampleRate X Hasc. split; [| split; [| split]].
  - split.
    + apply import_of_export_exact. exact Hasc.
    + intros Hst.
      unfold CuePointEditor.loadCuesFromJSON, CuePointEditor.saveCuesToJSON.
      rewrite (loadCuesFrom_cueToJson sampleRate X Hst).
      rewrite sortByTime_ascending_id; [reflexivity |].
      apply ascending_ofCue. exact Hasc.
  - apply ofCue_inj.
  - apply derived_storable.
  - apply valid_derived_storable.
Qed.

Lemma import_of_export_is_identity_witness :
  CuePointEditor.loadCuesFromJSON 48000
    (Some (CuePointEditor.saveCuesToJSON
             (CuePointEditor.cuePoints Scenario.twoCues)))
  = CuePointEditor.Loaded
      (map CuePointEditor.ofCue (CuePointEditor.cuePoints Scenario.twoCues)).
Proof.
  refine (proj2 (proj1 (import_of_export_is_identity 48000
                          (CuePointEditor.cuePoints Scenario.twoCues) _)) _).
  - repeat constructor; cbn; discriminate.
  - repeat constructor; cbn; intros H; discriminate H.
Defined.

(** ** The key map *)

Section KeyMap.

Import CuePointEditor CueKeyboardMap.

Lemma toLowerCase_empty (s : string) :
  Str.truthy (Str.toLowerCase s) = Str.truthy s.
Proof. destruct s; reflexivity. Qed.

(** The map built from an array on top of [acc]: what [acc] holds for a
    key stays, other keys go to the first cue of the array carrying them. *)
Lemma buildKeyMapFrom_lookup (cues : list cue) (k : string) :
  forall (acc : gmap string entry * list string) (index : nat),
    fst (buildKeyMapFrom acc index cues) !! k
    = match fst acc !! k with
      | Some e => Some e
      | None => firstWithKey k index cues
      end.
Proof.
  induction cues as [| c rest IH]; intros [m d] index;
    cbn [buildKeyMapFrom firstWithKey fst].
  - destruct (m !! k); reflexivity.
  - rewrite IH. unfold addCueKey.
    destruct (Str.truthy (key c)) eqn:Ht; cbn [andb fst]; [| reflexivity].
    destruct (m !! Str.toLowerCase (key c)) as [e |] eqn:Hm; cbn [fst].
    + destruct (String.eqb_spec (Str.toLowerCase (key c)) k) as [<- | Hne];
        [rewrite Hm |]; reflexivity.
    + destruct (String.eqb_spec (Str.toLowerCase (key c)) k) as [<- | Hne].
      * rewrite lookup_insert_eq, Hm. reflexivity.
      * rewrite lookup_insert_ne by exact Hne. reflexivity.
Qed.

Lemma buildKeyMap_lookup (cues : list cue) (k : string) :
  fst (buildKeyMap cues) !! k = firstWithKey k 0 cues.
Proof.
  unfold buildKeyMap. rewrite buildKeyMapFrom_lookup. reflexivity.
Qed.

(** The first cue with a key is at or before any cue with that key. *)
Lemma firstWithKey_before (k : string) (cues : list cue) :
  forall (index i : nat) (c : cue),
    cues !! i = Some c -> key c <> ""%string ->
    Str.toLowerCase (key c) = k ->
    exists (c0 : cue) (i0 : nat),
      firstWithKey k index cues = Some (c0, (index + i0)%nat)
      /\ (i0 <= i)%nat /\ cues !! i0 = Some c0
      /\ key c0 <> ""%string /\ Str.toLowerCase (key c0) = k.
Proof.
  induction cues as [| c' rest IH]; intros index i c Hi Hne Hk;
    [discriminate |].
  cbn [firstWithKey].
  destruct (Str.truthy (key c') && String.eqb (Str.toLowerCase (key c')) k)
    eqn:E.
  - apply andb_true_iff in E as [Ht He].
    exists c', 0%nat. rewrite Nat.add_0_r. split; [reflexivity |].
    split; [lia |]. split; [reflexivity |].
    split; [apply truthy_nonempty; exact Ht | apply String.eqb_eq; exact He].
  - destruct i as [| i].
    + injection Hi as ->. apply truthy_nonempty in Hne.
      apply String.eqb_eq in Hk. rewrite Hne, Hk in E. discriminate.
    + destruct (IH (S index) i c Hi Hne Hk)
        as (c0 & i0 & Hf & Hle & Hl & Hn0 & Hk0).
      exists c0, (S i0). split; [rewrite Hf; f_equal; f_equal; lia |].
      split; [lia |]. split; [exact Hl |]. split; assumption.
Qed.

Lemma addCueKey_keeps (acc : gmap string entry * list string) (c : cue)
    (i : nat) (k : string) :
  is_Some (fst acc !! k) -> is_Some (fst (addCueKey acc c i) !! k).
Proof.
  destruct acc as [m d]. unfold addCueKey. cbn [fst]. intros Hk.
  destruct (Str.truthy (key c)); [| exact Hk].
  destruct (m !! Str.toLowerCase (key c)) eqn:Hm; cbn [fst]; [exact Hk |].
  destruct (decide (Str.toLowerCase (key c) = k)) as [<- | Hne].
  - rewrite lookup_insert_eq. eexists. reflexivity.
  - rewrite lookup_insert_ne by exact Hne. exact Hk.
Qed.

Lemma addCueKey_sets (acc : gmap string entry * list string) (c : cue)
    (i : nat) :
  key c <> ""%string ->
  is_Some (fst (addCueKey acc c i) !! Str.toLowerCase (key c)).
Proof.
  destruct acc as [m d]. unfold addCueKey. intros Hne.
  apply truthy_nonempty in Hne. rewrite Hne.
  destruct (m !! Str.toLowerCase (key c)) eqn:Hm; cbn [fst].
  - rewrite Hm. eexists. reflexivity.
  - rewrite lookup_insert_eq. eexists. reflexivity.
Qed.

Lemma addCueKey_dup_mono (acc : gmap string entry * list string) (c : cue)
    (i : nat) (k : string) :
  k ∈ snd acc -> k ∈ snd (addCueKey acc c i).
Proof.
  destruct acc as [m d]. unfold addCueKey. cbn [snd]. intros Hk.
  destruct (Str.truthy (key c)); [| exact Hk].
  destruct (m !! Str.toLowerCase (key c)); cbn [snd]; [| exact Hk].
  case_bool_decide; [exact Hk |]. apply elem_of_app. left. exact Hk.
Qed.

Lemma addCueKey_dup (acc : gmap string entry * list string) (c : cue)
    (i : nat) :
  key c <> ""%string ->
  is_Some (fst acc !! Str.toLowerCase (key c)) ->
  Str.toLowerCase (key c) ∈ snd (addCueKey acc c i).
Proof.
  destruct acc as [m d]. unfold addCueKey. cbn [fst]. intros Hne [e He].
  apply truthy_nonempty in Hne. rewrite Hne, He. cbn [snd].
  case_bool_decide as Hin; [exact Hin |].
  apply elem_of_app. right. apply list_elem_of_singleton. reflexivity.
Qed.

Lemma buildKeyMapFrom_dup_mono (cues : list cue) (k : string) :
  forall (acc : gmap string entry * list string) (index : nat),
    k ∈ snd acc -> k ∈ snd (buildKeyMapFrom acc index cues).
Proof.
  induction cues as [| c rest IH]; intros acc index Hk; [exact Hk |].
  cbn [buildKeyMapFrom]. apply IH. apply addCueKey_dup_mono. exact Hk.
Qed.

(** A cue whose key, in lower case, an earlier cue carries is reported in
    [duplicateKeys]. *)
Lemma buildKeyMapFrom_reports (cues : list cue) :
  forall (acc : gmap string entry * list string) (index j : nat) (c : cue),
    cues !! j = Some c -> key c <> ""%string ->
    (is_Some (fst acc !! Str.toLowerCase (key c))
     \/ exists (i : nat) (c1 : cue),
          (i < j)%nat /\ cues !! i = Some c1 /\ key c1 <> ""%string
          /\ Str.toLowerCase (key c1) = Str.toLowerCase (key c)) ->
    Str.toLowerCase (key c) ∈ snd (buildKeyMapFrom acc index cues).
Proof.
  induction cues as [| c' rest IH]; intros acc index j c Hj Hne Hbefore;
    [discriminate |].
  cbn [buildKeyMapFrom]. destruct j as [| j].
  - injection Hj as ->. apply buildKeyMapFrom_dup_mono.
    apply addCueKey_dup; [exact Hne |].
    destruct Hbefore as [H | (i & c1 & Hi & _)]; [exact H | lia].
  - apply (IH _ _ j c Hj Hne).
    destruct Hbefore as [H | (i & c1 & Hi & Hc1 & Hn1 & Hk1)].
    + left. apply addCueKey_keeps. exact H.
    + destruct i as [| i].
      * injection Hc1 as ->. left. rewrite <- Hk1.
        apply addCueKey_sets. exact Hn1.
      * right. exists i, c1. split; [lia |]. split; [exact Hc1 |].
        split; assumption.
Qed.

Lemma validateCue_key_exact (audioDuration : Q) (cues : list cue) (c : cue)
    (index : nat) :
  (forall (i : nat) (other : cue),
      cues !! i = Some other -> i <> index -> key other <> key c) ->
  err_key (validateCue audioDuration cues c index) = None.
Proof.
  intros H. unfold validateCue. cbn [err_key].
  destruct (Str.truthy (key c)); [| reflexivity].
  apply findDuplicateFrom_None. intros j other Hj Hne.
  apply (H j other Hj). exact Hne.
Qed.

(** C10. The key map sends a key to the first cue of the registry whose
    key in lower case it is; a key event is handled by the lower case of
    its key alone, so events whose keys differ in letter case are handled
    alike. Of two cues whose keys agree in lower case the later one is not
    in the map: the key goes to a cue at or before the earlier one and is
    listed among the duplicate keys. The uniqueness check of the registry
    compares keys as they are: a cue whose key no other cue carries letter
    for letter passes it. With cues keyed "a" and "A" both pass validation,
    the map holds "a" for the first only, and Shift+"A" triggers the
    first. *)
Theorem key_resolution_ignores_case :
  (forall (cues : list cue) (k : string),
      fst (buildKeyMap cues) !! k = firstWithKey k 0 cues)
  /\ (forall (enabled : bool) (debounceMs : Z) (excludeTargets : list string)
             (k1 k2 : string) (ctrl alt meta shift : bool)
             (tgt : option target) (now : Z) (r : refs),
        Str.toLowerCase k1 = Str.toLowerCase k2 ->
        handleKeyPress enabled debounceMs excludeTargets
          (mkEvent k1 ctrl alt meta shift tgt) now r
        = handleKeyPress enabled debounceMs excludeTargets
            (mkEvent k2 ctrl alt meta shift tgt) now r)
  /\ (forall (cues : list cue) (i j : nat) (c1 c2 : cue),
        (i < j)%nat -> cues !! i = Some c1 -> cues !! j = Some c2 ->
        key c1 <> ""%string ->
        Str.toLowerCase (key c1) = Str.toLowerCase (key c2) ->
        exists (c0 : cue) (i0 : nat),
          fst (buildKeyMap cues) !! Str.toLowerCase (key c2) = Some (c0, i0)
          /\ (i0 <= i)%nat /\ cues !! i0 = Some c0
          /\ Str.toLowerCase (key c2) ∈ snd (buildKeyMap cues))
  /\ (forall (audioDuration : Q) (cues : list cue) (c : cue) (index : nat),
        (forall (i : nat) (other : cue),
            cues !! i = Some other -> i <> index -> key other <> key c) ->
        err_key (validateCue audioDuration cues c index) = None)
  /\ no_errors (validateCue 10 Scenario.caseCues Scenario.intro 0) = true
  /\ no_errors (validateCue 10 Scenario.caseCues Scenario.outro 1) = true
  /\ fst (buildKeyMap Scenario.caseCues) !! "a"%string
     = Some (Scenario.intro, 0%nat)
  /\ fst (buildKeyMap Scenario.caseCues) !! "A"%string = None
  /\ snd (buildKeyMap Scenario.caseCues) = ["a"%string]
  /\ fst (fst (handleKeyPress true debounceMs_editor excludeTargets_default
                 Scenario.pressShiftA 1000 Scenario.keyboard))
     = Triggered 1 (Scenario.intro, 0%nat).
Proof.
  split; [exact buildKeyMap_lookup |].
  split; [| split; [| split; [exact validateCue_key_exact |]]].
  - intros enabled debounceMs excludeTargets k1 k2 ctrl alt meta shift tgt
      now r Hk.
    unfold handleKeyPress, shouldIgnoreEvent.
    cbn [ev_key ctrlKey altKey metaKey ev_target].
    rewrite Hk. reflexivity.
  - intros cues i j c1 c2 Hij H1 H2 Hne Hk.
    destruct (firstWithKey_before (Str.toLowerCase (key c2)) cues 0 i c1
                H1 Hne Hk) as (c0 & i0 & Hf & Hle & Hl & _ & _).
    exists c0, i0. rewrite buildKeyMap_lookup.
    split; [exact Hf |]. split; [exact Hle |]. split; [exact Hl |].
    unfold buildKeyMap. apply (buildKeyMapFrom_reports cues _ _ j c2 H2).
    + apply truthy_nonempty. rewrite <- toLowerCase_empty, <- Hk.
      rewrite toLowerCase_empty. apply truthy_nonempty. exact Hne.
    + right. exists i, c1. split; [exact Hij |]. split; [exact H1 |].
      split; assumption.
  - repeat split; vm_compute; reflexivity.
Qed.

Lemma key_resolution_ignores_case_witness :
  handleKeyPress true debounceMs_editor excludeTargets_default
    Scenario.pressShiftA 1000 Scenario.keyboard
  = handleKeyPress true debounceMs_editor excludeTargets_default
      (mkEvent "a" false false false true Scenario.body) 1000
      Scenario.keyboard
  /\ (exists (c0 : cue) (i0 : nat),
        fst (buildKeyMap Scenario.caseCues) !! "a"%string = Some (c0, i0)
        /\ (i0 <= 0)%nat)
  /\ err_key (validateCue 10 Scenario.caseCues Scenario.outro 1) = None.
Proof.
  destruct key_resolution_ignores_case as (_ & Hev & Hcol & Hval & _).
  split; [| split].
  - apply (Hev true debounceMs_editor excludeTargets_default "A"%string
             "a"%string). reflexivity.
  - destruct (Hcol Scenario.caseCues 0%nat 1%nat Scenario.intro Scenario.outro)
      as (c0 & i0 & Hm & Hle & _); [lia | reflexivity | reflexivity | | |].
    + discriminate.
    + reflexivity.
    + exists c0, i0. split; [exact Hm | exact Hle].
  - apply (Hval 10%Q Scenario.caseCues Scenario.outro 1%nat).
    intros [| [| i]] other Hi Hne.
    + injection Hi as <-. discriminate.
    + contradiction.
    + discriminate.
Defined.

End KeyMap.

(** ** Key dispatch *)

Section KeyDispatch.

Import CuePointEditor CueKeyboardMap.
Local Open Scope Z_scope.

Lemma debounced_false (debounceMs : Z) (last : option Z) (now : Z) :
  debounced debounceMs last now = false
  <-> (forall t, last = Some t -> t = 0 \/ debounceMs <= now - t).
Proof.
  unfold debounced. destruct last as [t |].
  - rewrite andb_false_iff, negb_false_iff, Z.eqb_eq, Z.ltb_ge. split.
    + intros H t' [= <-]. exact H.
    + intros H. apply H. reflexivity.
  - split; [intros _ t; discriminate | reflexivity].
Qed.

(** C8 as stated fails twice. An event that carries the Shift modifier
    is not ignored: Shift+"A" on the page body triggers the cue bound to
    "a". And the hook's default for [debounceMs] is 100 ms, not 150 ms:
    with the defaults, a repeat of "a" 120 ms after it triggered triggers
    again. *)
Lemma shift_not_ignored_and_default_debounce_100 :
  shiftKey Scenario.pressShiftA = true
  /\ fst (fst (handleKeyPress true debounceMs_editor excludeTargets_default
                 Scenario.pressShiftA 1000 Scenario.keyboard))
     = Triggered 1%Q (Scenario.intro, 0%nat)
  /\ debounceMs_default = 100
  /\ fst (fst (handleKeyPress true debounceMs_default excludeTargets_default
                 Scenario.pressA 1000 Scenario.keyboard))
     = Triggered 1%Q (Scenario.intro, 0%nat)
  /\ fst (fst (handleKeyPress true debounceMs_default excludeTargets_default
                 Scenario.pressA 1120
                 (snd (handleKeyPress true debounceMs_default
                         excludeTargets_default Scenario.pressA 1000
                         Scenario.keyboard))))
     = Triggered 1%Q (Scenario.intro, 0%nat).
Proof.
  repeat split; vm_compute; reflexivity.
Qed.

(** C8, amended. The hook's defaults are a [debounceMs] of 100 ms (the
    editor passes 150 ms) and the excluded targets input, textarea and
    select. Key dispatch ignores, leaving its refs alone, every event that
    carries Ctrl, Alt or Meta, and every event whose target has an excluded
    tag or is content-editable; the Shift modifier has no part in that.
    A mapped key repeated less than [debounceMs] after the time stored at
    its last trigger is dropped; a trigger stores its time. Every other
    event of an enabled hook whose key, in lower case, is mapped triggers
    the cue bound to it. *)
Theorem key_dispatch_filters_then_triggers :
  (debounceMs_default = 100 /\ debounceMs_editor = 150
   /\ excludeTargets_default = ["input"; "textarea"; "select"]%string)
  /\ forall (enabled : bool) (debounceMs : Z) (excludeTargets : list string)
            (event : keyEvent) (now : Z) (r : refs),
      (ctrlKey event = true \/ altKey event = true \/ metaKey event = true ->
       handleKeyPress enabled debounceMs excludeTargets event now r
       = (Ignored, false, r))
      /\ (forall t : target,
            ev_target event = Some t ->
            Str.toLowerCase (tagName t) ∈ excludeTargets
            \/ isContentEditable t = true ->
            handleKeyPress enabled debounceMs excludeTargets event now r
            = (Ignored, false, r))
      /\ (forall shift : bool,
            shouldIgnoreEvent enabled excludeTargets
              (mkEvent (ev_key event) (ctrlKey event) (altKey event)
                 (metaKey event) shift (ev_target event))
            = shouldIgnoreEvent enabled excludeTargets event)
      /\ (forall (cue : entry) (t : Z),
            shouldIgnoreEvent enabled excludeTargets event = false ->
            keyMapRef r !! Str.toLowerCase (ev_key event) = Some cue ->
            lastTriggerRef r !! Str.toLowerCase (ev_key event) = Some t ->
            t <> 0 -> now - t < debounceMs ->
            handleKeyPress enabled debounceMs excludeTargets event now r
            = (Debounced, true, r))
      /\ (forall cue : entry,
            enabled = true ->
            ctrlKey event = false -> altKey event = false ->
            metaKey event = false ->
            (forall t : target,
                ev_target event = Some t ->
                (Str.toLowerCase (tagName t) ∉ excludeTargets)
                /\ isContentEditable t = false) ->
            keyMapRef r !! Str.toLowerCase (ev_key event) = Some cue ->
            (forall t : Z,
                lastTriggerRef r !! Str.toLowerCase (ev_key event) = Some t ->
                t = 0 \/ debounceMs <= now - t) ->
            exists r',
              handleKeyPress enabled debounceMs excludeTargets event now r
              = (Triggered (time (fst cue)) cue, true, r')
              /\ lastTriggerRef r' !! Str.toLowerCase (ev_key event)
                 = Some now
              /\ keyMapRef r' = keyMapRef r).
Proof.
  split; [repeat split |].
  intros enabled debounceMs excludeTargets event now r.
  split; [| split; [| split; [| split]]].
  - intros Hmod. unfold handleKeyPress, shouldIgnoreEvent.
    destruct enabled; [| reflexivity]. cbn [negb].
    destruct Hmod as [-> | [-> | ->]];
      destruct (ctrlKey event), (altKey event); reflexivity.
  - intros t Ht Hex. unfold handleKeyPress, shouldIgnoreEvent.
    destruct enabled; [| reflexivity]. cbn [negb].
    destruct (_ || _); [reflexivity |]. rewrite Ht.
    case_bool_decide as Hin; [reflexivity |].
    destruct Hex as [Hex | ->]; [contradiction | reflexivity].
  - intros shift. reflexivity.
  - intros cue t Hign Hmap Hlast Hnz Hlt. unfold handleKeyPress.
    rewrite Hign. cbv zeta. rewrite Hmap, Hlast. unfold debounced.
    apply Z.eqb_neq in Hnz. apply Z.ltb_lt in Hlt. rewrite Hnz, Hlt.
    reflexivity.
  - intros cue -> Hc Ha Hm Htgt Hmap Hdeb. unfold handleKeyPress.
    assert (Hign : shouldIgnoreEvent true excludeTargets event = false).
    { unfold shouldIgnoreEvent. rewrite Hc, Ha, Hm. cbn [negb orb].
      destruct (ev_target event) as [t |]; [| reflexivity].
      destruct (Htgt t eq_refl) as [Hnin ->].
      case_bool_decide; [contradiction | reflexivity]. }
    rewrite Hign. cbv zeta. rewrite Hmap.
    apply debounced_false in Hdeb. rewrite Hdeb.
    eexists. split; [reflexivity |]. cbn [lastTriggerRef keyMapRef].
    split; [apply lookup_insert_eq | reflexivity].
Qed.

Lemma key_dispatch_filters_then_triggers_witness :
  handleKeyPress true debounceMs_editor excludeTargets_default
    (mkEvent "a" true false false false Scenario.body) 1000 Scenario.keyboard
  = (Ignored, false, Scenario.keyboard)
  /\ exists r',
       handleKeyPress true debounceMs_editor excludeTargets_default
         Scenario.pressA 1000 Scenario.keyboard
       = (Triggered 1%Q (Scenario.intro, 0%nat), true, r').
Proof.
  split.
  - apply (proj2 key_dispatch_filters_then_triggers true debounceMs_editor
             excludeTargets_default
             (mkEvent "a" true false false false Scenario.body) 1000
             Scenario.keyboard).
    left. reflexivity.
  - destruct (proj2 key_dispatch_filters_then_triggers true debounceMs_editor
                excludeTargets_default Scenario.pressA 1000
                Scenario.keyboard) as (_ & _ & _ & _ & Htrig).
    destruct (Htrig (Scenario.intro, 0%nat)) as (r' & Hr' & _).
    + reflexivity.
    + reflexivity.
    + reflexivity.
    + reflexivity.
    + intros t [= <-]. split; [| reflexivity]. cbn. intros Hin.
      repeat (apply elem_of_cons in Hin as [Hin | Hin]; [discriminate |]).
      inversion Hin.
    + vm_compute. reflexivity.
    + intros t Ht. vm_compute in Ht. discriminate.
    + exists r'. exact Hr'.
Defined.

End KeyDispatch.

(** ** The cues the editor makes are storable *)

Section Storable.

Import Json CuePointEditor.
Local Open Scope Q_scope.

Variable audioDuration currentTime : Q.
Variable sampleRate : Z.
Variable parseTime : string -> Q.

Lemma addCue_storable (random : string) (e : editor) :
  Forall (storable sampleRate) (cuePoints e) ->
  Forall (storable sampleRate)
    (cuePoints (addCue currentTime sampleRate random e)).
Proof.
  intros H. unfold addCue. cbn [cuePoints]. rewrite sortByTime_perm.
  apply Forall_app. split; [exact H |].
  constructor; [| constructor].
  apply derived_storable. split; [discriminate |]. split; reflexivity.
Qed.

Lemma modifiedCue_storable (cues : list cue) (old : cue) (index : nat)
    (f : field) (value : string) :
  storable sampleRate old ->
  no_errors
    (validateCue audioDuration cues
       (modifiedCue sampleRate parseTime old f value) index) = true ->
  storable sampleRate (modifiedCue sampleRate parseTime old f value).
Proof.
  intros (Hl & Hr & Hp) Hok. apply validateCue_accepts in Hok as (_ & Hb & _).
  destruct f; cbn [modifiedCue label] in Hb; unfold storable;
    cbn [modifiedCue label sample_rate sample_position time].
  - split; [exact Hl |]. split; [exact Hr | intros H; exact H].
  - split; [| split; assumption].
    intros E. rewrite E in Hb. discriminate.
  - split; [exact Hl |]. split; assumption.
Qed.

Lemma updateCue_storable (e e' : editor) (index : nat) (f : field)
    (value : string) :
  updateCue audioDuration sampleRate parseTime e index f value = Some e' ->
  Forall (storable sampleRate) (cuePoints e) ->
  Forall (storable sampleRate) (cuePoints e').
Proof.
  unfold updateCue. destruct (cuePoints e !! index) as [old |] eqn:Hold;
    [| discriminate].
  cbv zeta. intros H Hall.
  destruct (no_errors _) eqn:Hok; injection H as <-; cbn [cuePoints];
    [| exact Hall].
  assert (Hnew : Forall (storable sampleRate)
                   (<[index := modifiedCue sampleRate parseTime old f value]>
                      (cuePoints e))).
  { apply Forall_insert; [exact Hall |].
    apply (modifiedCue_storable (cuePoints e) old index f value); [| exact Hok].
    rewrite Forall_forall in Hall. apply Hall.
    apply list_elem_of_lookup. exists index. exact Hold. }
  destruct f; [rewrite sortByTime_perm |  |]; exact Hnew.
Qed.

(** What the import does to a cue that is not storable: a sample rate of
    zero is replaced by the editor's. *)
Lemma import_replaces_zero_sample_rate :
  loadCue 48000 0 (cueToJson (mkCue 1 "Intro" "1" 0 0))
  = inr (mkLoaded 1 (JStr "Intro") (JStr "1") (JNum 48000) (JNum 48000)).
Proof. reflexivity. Qed.

End Storable.

(** * Further properties of the sync hook *)

Section CorrectionBehaviour.

Import VideoSync.
Local Open Scope Q_scope.

Lemma abs_self (x : Q) : JS.abs (x - x) == 0.
Proof.
  unfold JS.abs. setoid_replace (x - x) with 0 using relation Qeq by ring.
  reflexivity.
Qed.

(** The refs an applied correction leaves, in full. *)
Lemma correctVideoTime_applied_refs (th now : Q) (throws : bool)
    (r r' : refs) :
  correctVideoTime th now throws r = (true, r') ->
  exists v,
    videoElementRef r = Some v
    /\ r' = applyCorrection
              (set_stats r
                 (recordDrift (statsRef r)
                    (video_currentTime v - calculateExpectedVideoTime r)))
              v (correctionTarget v r) now.
Proof.
  unfold correctVideoTime, calculateDrift.
  destruct (videoElementRef r) as [v |] eqn:Hv; [| discriminate].
  destruct (contextRef r) as [c |]; [| discriminate].
  cbv zeta. destruct (JS.Qltb (now - _) _); [discriminate |].
  destruct (JS.Qltb th _); [| discriminate].
  rewrite correctionTarget_set_stats.
  destruct (_ && _); [| discriminate].
  destruct throws; [discriminate |].
  intros [= <-]. exists v. split; reflexivity.
Qed.

Lemma correctVideoTime_within_threshold (th now : Q) (throws : bool)
    (r : refs) (v : video) :
  videoElementRef r = Some v ->
  JS.abs (video_currentTime v - calculateExpectedVideoTime r) <= th ->
  fst (correctVideoTime th now throws r) = false
  /\ videoElementRef (snd (correctVideoTime th now throws r)) = Some v
  /\ lastCorrectionTimeRef (snd (correctVideoTime th now throws r))
     = lastCorrectionTimeRef r
  /\ corrections (statsRef (snd (correctVideoTime th now throws r)))
     = corrections (statsRef r).
Proof.
  intros Hv Hle.
  unfold correctVideoTime, calculateDrift. rewrite Hv.
  destruct (contextRef r); [| repeat split; assumption].
  cbv zeta. destruct (JS.Qltb (now - _) _); [repeat split; assumption |].
  apply Qltb_ge in Hle. rewrite Hle. cbn. repeat split. exact Hv.
Qed.

(** X1. When the element is within the threshold of the expected time,
    [correctVideoTime] applies nothing: the element, the time of the last
    correction and the correction count stay, whatever the wall clock. *)
Theorem no_correction_within_threshold :
  forall (th now : Q) (throws : bool) (r : refs) (v : video),
    videoElementRef r = Some v ->
    JS.abs (video_currentTime v - calculateExpectedVideoTime r) <= th ->
    fst (correctVideoTime th now throws r) = false
    /\ videoElementRef (snd (correctVideoTime th now throws r)) = Some v
    /\ lastCorrectionTimeRef (snd (correctVideoTime th now throws r))
       = lastCorrectionTimeRef r
    /\ corrections (statsRef (snd (correctVideoTime th now throws r)))
       = corrections (statsRef r).
Proof. exact correctVideoTime_within_threshold. Qed.

Lemma no_correction_within_threshold_witness :
  fst (correctVideoTime driftThreshold_default 1000 false
         (Scenario.playing (mkVideo (2002 # 100) (Some 120)) 15 20 15 0))
  = false.
Proof.
  apply (no_correction_within_threshold driftThreshold_default 1000 false
           (Scenario.playing (mkVideo (2002 # 100) (Some 120)) 15 20 15 0)
           (mkVideo (2002 # 100) (Some 120))).
  - reflexivity.
  - vm_compute. discriminate.
Defined.

(** X2. A correction is idempotent: on the refs an applied correction
    leaves, with the session and the audio clock as they are, no further
    call applies a correction, at whatever wall-clock time and threshold. *)
Theorem correction_is_idempotent :
  forall (th now : Q) (throws : bool) (r r' : refs),
    correctVideoTime th now throws r = (true, r') ->
    forall (th' now' : Q) (throws' : bool),
      fst (correctVideoTime th' now' throws' r') = false
      /\ videoElementRef (snd (correctVideoTime th' now' throws' r'))
         = videoElementRef r'.
Proof.
  intros th now throws r r' H th' now' throws'.
  pose proof H as Happ. apply correctVideoTime_applied in Happ
    as (v0 & Hv0 & _ & _ & _ & _ & _ & _ & _ & _).
  apply correctVideoTime_applied_refs in H as (v & Hv & ->).
  unfold correctVideoTime at 1 2, calculateDrift.
  cbn [applyCorrection videoElementRef contextRef set_stats].
  destruct (contextRef r); [| split; reflexivity].
  cbv zeta. destruct (JS.Qltb (now' - _) _); [split; reflexivity |].
  destruct (JS.Qltb th' _); [| split; reflexivity].
  assert (Hsame : JS.Qltb epsilon
            (JS.abs (correctionTarget v r - correctionTarget v r)) = false).
  { apply Qltb_ge. rewrite abs_self. unfold epsilon. lra. }
  match goal with
  | |- context [Qle_bool 0 ?t && JS.Qltb epsilon (JS.abs (?t - ?c))] =>
      change t with (correctionTarget v r);
      change c with (correctionTarget v r)
  end.
  rewrite Hsame, andb_false_r. split; reflexivity.
Qed.

Lemma correction_is_idempotent_witness :
  fst (correctVideoTime driftThreshold_default 2000 false
         (snd (correctVideoTime driftThreshold_default 1000 false
                 Scenario.basicSync))) = false.
Proof.
  apply (correction_is_idempotent driftThreshold_default 1000 false
           Scenario.basicSync
           (snd (correctVideoTime driftThreshold_default 1000 false
                   Scenario.basicSync)) eq_refl
           driftThreshold_default 2000 false).
Defined.

End CorrectionBehaviour.

Section RunInvariants.

Import VideoSync SyncStatus.
Local Open Scope Q_scope.

Lemma correctVideoTime_corrections (th now : Q) (throws : bool)
    (r r' : refs) (b : bool) :
  correctVideoTime th now throws r = (b, r') ->
  corrections (statsRef r')
  = (corrections (statsRef r) + (if b then 1 else 0))%nat.
Proof.
  unfold correctVideoTime, calculateDrift.
  destruct (videoElementRef r); [| intros [= <- <-]; cbn; lia].
  destruct (contextRef r); [| intros [= <- <-]; cbn; lia].
  cbv zeta. destruct (JS.Qltb (now - _) _); [intros [= <- <-]; cbn; lia |].
  destruct (JS.Qltb th _); [| intros [= <- <-]; cbn; lia].
  destruct (_ && _); [| intros [= <- <-]; cbn; lia].
  destruct throws; intros [= <- <-]; cbn; lia.
Qed.

Lemma step_corrections (th : Q) (o : op) (r r' : refs) (b : bool) :
  keeps_stats o = true ->
  step th o r = (b, r') ->
  corrections (statsRef r')
  = (corrections (statsRef r) + (if b then 1 else 0))%nat.
Proof.
  destruct o as [now t | now t | now t | start offset now t | v | c | p |];
    cbn [keeps_stats step]; intros Hk; try discriminate.
  - apply correctVideoTime_corrections.
  - unfold periodicDriftCheck. cbv zeta.
    set (r0 := set_active r (isActiveRef r) false).
    destruct (_ || _); [intros [= <- <-]; cbn; lia |].
    unfold calculateDrift.
    destruct (videoElementRef r0) eqn:Hv0; cbv zeta.
    + destruct (JS.Qltb (th * 2) _).
      * destruct (correctVideoTime th now t _) as [applied r2] eqn:Hc.
        apply correctVideoTime_corrections in Hc. cbn in Hc.
        destruct (_ && _); intros [= <- <-]; cbn; exact Hc.
      * destruct (_ && _); intros [= <- <-]; cbn; lia.
    + destruct (JS.Qltb (th * 2) _).
      * destruct (correctVideoTime th now t _) as [applied r2] eqn:Hc.
        apply correctVideoTime_corrections in Hc. cbn in Hc.
        destruct (_ && _); intros [= <- <-]; cbn; exact Hc.
      * destruct (_ && _); intros [= <- <-]; cbn; lia.
  - unfold forceSync.
    destruct (videoElementRef r); [| intros [= <- <-]; cbn; lia].
    destruct (contextRef r); [| intros [= <- <-]; cbn; lia].
    apply correctVideoTime_corrections.
  - intros [= <- <-]. cbn. lia.
  - intros [= <- <-]. cbn. lia.
  - intros [= <- <-]. cbn. lia.
Qed.

(** X3. Over a run without a restart of the sync system (no jump, no
    lifecycle effect) the correction count grows by exactly the number of
    corrections applied. *)
Theorem corrections_count_applied :
  forall (th : Q) (ops : list op) (r r' : refs) (log : list Q),
    forallb keeps_stats ops = true ->
    run th ops r = (log, r') ->
    corrections (statsRef r')
    = (corrections (statsRef r) + length log)%nat.
Proof.
  intros th ops. induction ops as [| o rest IH]; intros r r' log Hk;
    cbn [run].
  - intros [= <- <-]. cbn. lia.
  - cbn [forallb] in Hk. apply andb_true_iff in Hk as [Ho Hrest].
    destruct (step th o r) as [applied r1] eqn:Hs.
    destruct (run th rest r1) as [log1 r2] eqn:Hr.
    intros [= <- <-]. pose proof Hs as Hs0.
    apply (step_corrections th o r r1 applied Ho) in Hs.
    apply (IH r1 r2 log1 Hrest) in Hr. rewrite Hr, Hs.
    destruct applied.
    + destruct o; cbn [op_now keeps_stats step] in *; try discriminate;
        cbn [length]; lia.
    + destruct (op_now o); lia.
Qed.

Lemma corrections_count_applied_witness :
  corrections
    (statsRef
       (snd (run driftThreshold_default
               (Scenario.firstTick ++ Scenario.betweenTicks
                ++ [Correct 1100 false]) Scenario.basicSync)))
  = 2%nat.
Proof.
  rewrite (corrections_count_applied driftThreshold_default
             (Scenario.firstTick ++ Scenario.betweenTicks
              ++ [Correct 1100 false]) Scenario.basicSync
             (snd (run driftThreshold_default
                     (Scenario.firstTick ++ Scenario.betweenTicks
                      ++ [Correct 1100 false]) Scenario.basicSync))
             [1000; 1100] eq_refl eq_refl).
  reflexivity.
Defined.

Lemma sum_nonneg (l : list Q) :
  (forall x, x ∈ l -> 0 <= x) ->
  forall a : Q, 0 <= a -> 0 <= fold_left Qplus l a.
Proof.
  induction l as [| y l IH]; intros Hl a Ha; [exact Ha |].
  cbn [fold_left]. apply IH.
  - intros x Hx. apply Hl. apply elem_of_cons. right. exact Hx.
  - assert (0 <= y) by (apply Hl; apply elem_of_cons; left; reflexivity).
    lra.
Qed.

(** The mean of samples none of which is negative, computed as the hook
    does (the sum from the left, divided by the number of samples), is
    not negative. *)
Lemma mean_nonneg (l : list Q) :
  l <> [] ->
  (forall x, x ∈ l -> 0 <= x) ->
  0 <= JS.sum l / inject_Z (Z.of_nat (length l)).
Proof.
  intros Hne Hl.
  assert (Hs : 0 <= JS.sum l) by (apply sum_nonneg; [exact Hl | lra]).
  apply Qle_shift_div_l; [| lra].
  change 0 with (inject_Z 0). rewrite <- Zlt_Qlt.
  destruct l; [contradiction | cbn [length]; lia].
Qed.

Lemma stats_ok_empty : stats_ok emptyStats.
Proof.
  unfold stats_ok. cbn. split; [lia |]. split; [| split; [lra | reflexivity]].
  intros x Hx. inversion Hx.
Qed.

Lemma stats_ok_recordDrift (s : stats) (d : Q) :
  stats_ok s -> stats_ok (recordDrift s d).
Proof.
  intros (Hlen & Hel & Hmax & _). unfold stats_ok.
  split; [apply history_bounded; exact Hlen |].
  pose proof (Q.le_max_l (maxDrift s) (JS.abs d)) as Hl.
  pose proof (Q.le_max_r (maxDrift s) (JS.abs d)) as Hr.
  pose proof (abs_nonneg d) as Hd.
  split; [| split].
  - intros x Hx. rewrite history_recordDrift in Hx.
    assert (Hin : x ∈ driftHistory s ++ [JS.abs d]).
    { destruct (100 <? _)%nat; [| exact Hx].
      destruct (driftHistory s ++ [JS.abs d]); [exact Hx |].
      apply elem_of_cons. right. exact Hx. }
    cbn [recordDrift maxDrift]. unfold JS.max.
    apply elem_of_app in Hin as [Hin | Hin].
    + destruct (Hel x Hin). split; lra.
    + apply list_elem_of_singleton in Hin as ->. split; lra.
  - cbn [recordDrift maxDrift]. unfold JS.max. lra.
  - cbn [recordDrift avgDrift driftHistory].
    set (h := if (100 <? _)%nat then _ else _).
    destruct h eqn:Eh; [| reflexivity]. exfalso. subst h.
    destruct (100 <? _)%nat eqn:E.
    + apply Nat.ltb_lt in E.
      destruct (driftHistory s ++ [JS.abs d]) as [| y l]; [cbn in E; lia |].
      cbn in Eh. subst l. cbn in E. lia.
    + destruct (driftHistory s); discriminate.
Qed.

Lemma calculateDrift_stats_ok (r : refs) :
  stats_ok (statsRef r) -> stats_ok (statsRef (snd (calculateDrift r))).
Proof.
  unfold calculateDrift. destruct (videoElementRef r); [| trivial].
  cbn. apply stats_ok_recordDrift.
Qed.

Lemma stats_ok_bump (s : stats) :
  stats_ok s ->
  stats_ok (mkStats (S (corrections s)) (maxDrift s) (avgDrift s)
              (driftHistory s)).
Proof. intros H. exact H. Qed.

Lemma correctVideoTime_stats_ok (th now : Q) (throws : bool) (r : refs) :
  stats_ok (statsRef r) ->
  stats_ok (statsRef (snd (correctVideoTime th now throws r))).
Proof.
  intros H. unfold correctVideoTime, calculateDrift.
  destruct (videoElementRef r); [| exact H].
  destruct (contextRef r); [| exact H].
  cbv zeta. destruct (JS.Qltb (now - _) _); [exact H |].
  destruct (JS.Qltb th _); [| cbn; apply stats_ok_recordDrift; exact H].
  destruct (_ && _); [| cbn; apply stats_ok_recordDrift; exact H].
  destruct throws; [cbn; apply stats_ok_recordDrift; exact H |].
  exact (stats_ok_bump _ (stats_ok_recordDrift _ _ H)).
Qed.

Lemma lifecycleEffect_stats_ok (r : refs) :
  stats_ok (statsRef r) -> stats_ok (statsRef (lifecycleEffect r)).
Proof.
  intros H. unfold lifecycleEffect, startSync, stopSync. cbv zeta.
  repeat match goal with
         | |- context [match ?x with _ => _ end] => destruct x; cbn
         end; first [exact H | apply stats_ok_empty].
Qed.

Lemma step_stats_ok (th : Q) (o : op) (r : refs) :
  stats_ok (statsRef r) -> stats_ok (statsRef (snd (step th o r))).
Proof.
  intros H.
  destruct o as [now t | now t | now t | start offset now t | v | c | p |];
    cbn [step snd]; try exact H.
  - apply correctVideoTime_stats_ok. exact H.
  - unfold periodicDriftCheck. cbv zeta.
    set (r0 := set_active r (isActiveRef r) false).
    destruct (_ || _); [exact H |].
    pose proof (calculateDrift_stats_ok r0 H) as H1.
    destruct (calculateDrift r0) as [drift r1]. cbn [snd] in H1.
    destruct (JS.Qltb (th * 2) _).
    + pose proof (correctVideoTime_stats_ok th now t r1 H1) as H2.
      destruct (correctVideoTime th now t r1) as [applied r2].
      destruct (_ && _); exact H2.
    + destruct (_ && _); exact H1.
  - unfold forceSync. destruct (videoElementRef r); [| exact H].
    destruct (contextRef r); [| exact H].
    apply correctVideoTime_stats_ok. exact H.
  - unfold jump, cueChangeEffect, forceSync. cbv zeta.
    set (r0 := if negb _ then _ else _).
    assert (H0 : stats_ok (statsRef r0)).
    { subst r0. destruct (negb _); [| exact H].
      apply lifecycleEffect_stats_ok. exact H. }
    destruct (isPlayingRef r0); [| exact H0].
    destruct (videoElementRef r0); [| exact H0].
    destruct (contextRef r0); [| exact H0].
    apply correctVideoTime_stats_ok. exact H0.
  - apply lifecycleEffect_stats_ok. exact H.
Qed.

(** X4. The statistics stay well-formed over every run of the hook: from
    well-formed statistics (those of a mounted or restarted hook are), at
    most a hundred samples are stored, none of them is negative or above
    the maximum drift, and the average drift is the mean of the stored
    samples as the hook computes it, which is not negative. (That the
    average does not exceed the maximum is not stated: it holds of the
    exact mean, not of the rounded one.) *)
Theorem statistics_well_formed_over_runs :
  stats_ok emptyStats
  /\ forall (th : Q) (ops : list op) (r : refs),
       stats_ok (statsRef r) ->
       stats_ok (statsRef (snd (run th ops r)))
       /\ (length (driftHistory (statsRef (snd (run th ops r)))) <= 100)%nat
       /\ (forall x : Q,
             x ∈ driftHistory (statsRef (snd (run th ops r))) ->
             0 <= x /\ x <= maxDrift (statsRef (snd (run th ops r))))
       /\ 0 <= avgDrift (statsRef (snd (run th ops r))).
Proof.
  split; [exact stats_ok_empty |].
  intros th ops r H.
  assert (Hok : stats_ok (statsRef (snd (run th ops r)))).
  { revert r H. induction ops as [| o rest IH]; intros r H; [exact H |].
    cbn [run]. pose proof (step_stats_ok th o r H) as H1.
    destruct (step th o r) as [applied r1]. cbn [snd] in H1.
    specialize (IH r1 H1). destruct (run th rest r1) as [log r2].
    exact IH. }
  split; [exact Hok |].
  destruct Hok as (Hlen & Hel & Hmax & Havg).
  split; [exact Hlen |]. split; [exact Hel |].
  destruct (driftHistory (statsRef (snd (run th ops r)))) as [| x l] eqn:Eh.
  - rewrite Havg. lra.
  - rewrite Havg. apply (mean_nonneg (x :: l)); [discriminate |].
    intros y Hy. apply (Hel y Hy).
Qed.

Lemma statistics_well_formed_over_runs_witness :
  0 <= avgDrift
         (statsRef
            (snd (run driftThreshold_default
                    (Scenario.firstTick ++ Scenario.betweenTicks
                     ++ [Correct 1100 false]) Scenario.basicSync))).
Proof.
  apply (proj2 statistics_well_formed_over_runs driftThreshold_default
           (Scenario.firstTick ++ Scenario.betweenTicks
            ++ [Correct 1100 false]) Scenario.basicSync).
  exact (proj1 statistics_well_formed_over_runs).
Defined.

End RunInvariants.

Section Lifecycle.

Import VideoSync SyncStatus.
Local Open Scope Q_scope.

Lemma correctVideoTime_flags (th now : Q) (throws : bool) (r : refs) :
  isActiveRef (snd (correctVideoTime th now throws r)) = isActiveRef r
  /\ periodicTimeoutRef (snd (correctVideoTime th now throws r))
     = periodicTimeoutRef r
  /\ isPlayingRef (snd (correctVideoTime th now throws r)) = isPlayingRef r.
Proof.
  unfold correctVideoTime, calculateDrift.
  destruct (videoElementRef r); [| repeat split].
  destruct (contextRef r); [| repeat split].
  cbv zeta. destruct (JS.Qltb (now - _) _); [repeat split |].
  destruct (JS.Qltb th _); [| repeat split].
  destruct (_ && _); [| repeat split].
  destruct throws; repeat split.
Qed.

Lemma lifecycleEffect_timer (r : refs) :
  (periodicTimeoutRef r = true -> isActiveRef r = true) ->
  periodicTimeoutRef (lifecycleEffect r) = true ->
  isActiveRef (lifecycleEffect r) = true.
Proof.
  destruct r as [v st off c p last s a t].
  cbn [periodicTimeoutRef isActiveRef].
  unfold lifecycleEffect, stopSync, startSync.
  cbn [isActiveRef isPlayingRef videoElementRef contextRef audioStartTimeRef
       negb set_active set_stats].
  intros Htimer.
  destruct a, p, v, c, st; cbn; intros H;
    first [reflexivity | discriminate H | exact (Htimer H)].
Qed.

Lemma calculateDrift_flags (r : refs) :
  isActiveRef (snd (calculateDrift r)) = isActiveRef r
  /\ periodicTimeoutRef (snd (calculateDrift r)) = periodicTimeoutRef r
  /\ isPlayingRef (snd (calculateDrift r)) = isPlayingRef r.
Proof.
  unfold calculateDrift. destruct (videoElementRef r); repeat split.
Qed.

Lemma periodicDriftCheck_flags (th now : Q) (throws : bool) (r : refs) :
  isActiveRef (snd (periodicDriftCheck th now throws r)) = isActiveRef r
  /\ isPlayingRef (snd (periodicDriftCheck th now throws r)) = isPlayingRef r
  /\ periodicTimeoutRef (snd (periodicDriftCheck th now throws r))
     = isActiveRef r && isPlayingRef r.
Proof.
  destruct r as [v st off c p last s a t].
  unfold periodicDriftCheck. cbv zeta.
  cbn [isActiveRef isPlayingRef set_active].
  destruct a, p; cbn [negb orb andb snd isActiveRef isPlayingRef
                      periodicTimeoutRef]; try (repeat split; reflexivity).
  set (r0 := set_active _ true false).
  destruct (calculateDrift_flags r0) as (Ha1 & _ & Hp1).
  destruct (calculateDrift r0) as [drift r1]. cbn [snd] in Ha1, Hp1.
  cbn in Ha1, Hp1.
  destruct (JS.Qltb (th * 2) _).
  - destruct (correctVideoTime_flags th now throws r1) as (Ha2 & _ & Hp2).
    destruct (correctVideoTime th now throws r1) as [applied r2].
    cbn [snd] in Ha2, Hp2. rewrite Ha2, Hp2, Ha1, Hp1. cbn.
    repeat split; congruence.
  - rewrite Ha1, Hp1. cbn. repeat split; congruence.
Qed.

Lemma cueChangeEffect_flags (th now : Q) (throws : bool) (r : refs) :
  isActiveRef (snd (cueChangeEffect th now throws r)) = isActiveRef r
  /\ periodicTimeoutRef (snd (cueChangeEffect th now throws r))
     = periodicTimeoutRef r.
Proof.
  unfold cueChangeEffect, forceSync.
  destruct (isPlayingRef r); [| split; reflexivity].
  destruct (videoElementRef r); [| split; reflexivity].
  destruct (contextRef r); [| split; reflexivity].
  destruct (correctVideoTime_flags th now throws r) as (H1 & H2 & _).
  split; assumption.
Qed.

(** A watchdog timeout is pending only on an active hook; every operation
    keeps it so. *)
Lemma step_timer (th : Q) (o : op) (r : refs) :
  (periodicTimeoutRef r = true -> isActiveRef r = true) ->
  periodicTimeoutRef (snd (step th o r)) = true ->
  isActiveRef (snd (step th o r)) = true.
Proof.
  intros H.
  destruct o as [now t | now t | now t | start offset now t | v | c | p |];
    cbn [step snd]; try exact H.
  - destruct (correctVideoTime_flags th now t r) as (-> & -> & _). exact H.
  - destruct (periodicDriftCheck_flags th now t r) as (-> & _ & ->).
    intros Ht. apply andb_true_iff in Ht as [Ha _]. exact Ha.
  - unfold forceSync. destruct (videoElementRef r); [| exact H].
    destruct (contextRef r); [| exact H].
    destruct (correctVideoTime_flags th now t r) as (-> & -> & _). exact H.
  - unfold jump. cbv zeta. set (r0 := if negb _ then _ else _).
    destruct (cueChangeEffect_flags th now t r0) as (-> & ->).
    subst r0. destruct (negb _); [apply lifecycleEffect_timer |]; exact H.
  - apply lifecycleEffect_timer. exact H.
Qed.

(** X5. A watchdog timeout is pending only on an active hook, and every
    run keeps it so. On such a hook, after the lifecycle effect the sync
    system is active, with the timeout pending and the statistics reset,
    exactly when the hook is playing with an element, a context and a
    start time; in every other case it is inactive with no timeout pending
    and the statistics kept, and a watchdog tick then does nothing. The
    element, the context, the session and the time of the last correction
    are never touched. *)
Theorem lifecycle_active_exactly_when_ready :
  (forall (th : Q) (ops : list op) (r : refs),
      (periodicTimeoutRef r = true -> isActiveRef r = true) ->
      periodicTimeoutRef (snd (run th ops r)) = true ->
      isActiveRef (snd (run th ops r)) = true)
  /\ forall r : refs,
      (periodicTimeoutRef r = true -> isActiveRef r = true) ->
      let ready :=
        match isPlayingRef r, videoElementRef r, contextRef r,
              audioStartTimeRef r with
        | true, Some _, Some _, Some _ => true
        | _, _, _, _ => false
        end in
      isActiveRef (lifecycleEffect r) = ready
      /\ periodicTimeoutRef (lifecycleEffect r) = ready
      /\ statsRef (lifecycleEffect r)
         = (if ready then emptyStats else statsRef r)
      /\ videoElementRef (lifecycleEffect r) = videoElementRef r
      /\ contextRef (lifecycleEffect r) = contextRef r
      /\ audioStartTimeRef (lifecycleEffect r) = audioStartTimeRef r
      /\ cueOffsetRef (lifecycleEffect r) = cueOffsetRef r
      /\ lastCorrectionTimeRef (lifecycleEffect r) = lastCorrectionTimeRef r
      /\ (ready = false ->
          forall (th now : Q) (throws : bool),
            periodicDriftCheck th now throws (lifecycleEffect r)
            = (false, lifecycleEffect r)).
Proof.
  split.
  - intros th ops. induction ops as [| o rest IH]; intros r H; [exact H |].
    cbn [run]. pose proof (step_timer th o r H) as H1.
    destruct (step th o r) as [applied r1]. cbn [snd] in H1.
    specialize (IH r1 H1). destruct (run th rest r1) as [log r2].
    exact IH.
  - intros [v st off c p last s a t] Htimer.
    cbn [periodicTimeoutRef isActiveRef] in Htimer.
    unfold lifecycleEffect, stopSync, startSync.
    cbn [isActiveRef isPlayingRef videoElementRef contextRef
         audioStartTimeRef negb set_active set_stats].
    destruct a.
    + destruct p, v, c, st; cbn; repeat split;
        first [intros H; discriminate H
              | intros _ th now throws; reflexivity].
    + destruct t; [specialize (Htimer eq_refl); discriminate |].
      destruct p, v, c, st; cbn; repeat split;
        first [intros H; discriminate H
              | intros _ th now throws; reflexivity].
Qed.

Lemma lifecycle_active_exactly_when_ready_witness :
  periodicDriftCheck driftThreshold_default 3000 false
    (lifecycleEffect (set_isPlaying Scenario.basicSync false))
  = (false, lifecycleEffect (set_isPlaying Scenario.basicSync false)).
Proof.
  apply (proj2 lifecycle_active_exactly_when_ready
           (set_isPlaying Scenario.basicSync false)).
  - reflexivity.
  - reflexivity.
Defined.

(** X7. The watchdog tick applies a correction only on an active, playing
    hook whose drift exceeds twice the threshold and whose last correction
    is at least the throttle interval back; it then has recorded that
    drift twice (once itself, once inside [correctVideoTime]), counted one
    correction and re-armed its timeout. *)
Theorem watchdog_corrects_beyond_twice_threshold :
  forall (th now : Q) (throws : bool) (r r' : refs),
    periodicDriftCheck th now throws r = (true, r') ->
    isActiveRef r = true /\ isPlayingRef r = true
    /\ exists v,
         videoElementRef r = Some v
         /\ th * 2
            < JS.abs (video_currentTime v - calculateExpectedVideoTime r)
         /\ CORRECTION_THROTTLE_MS <= now - lastCorrectionTimeRef r
         /\ videoElementRef r'
            = Some (mkVideo (correctionTarget v r) (video_duration v))
         /\ driftHistory (statsRef r')
            = driftHistory
                (recordDrift
                   (recordDrift (statsRef r)
                      (video_currentTime v - calculateExpectedVideoTime r))
                   (video_currentTime v - calculateExpectedVideoTime r))
         /\ corrections (statsRef r') = S (corrections (statsRef r))
         /\ periodicTimeoutRef r' = true.
Proof.
  intros th now throws [v st off c p last s a t] r'.
  unfold periodicDriftCheck. cbv zeta.
  cbn [isActiveRef isPlayingRef].
  destruct a; [| cbn; discriminate]. destruct p; [| cbn; discriminate].
  cbn [negb orb]. set (r0 := set_active _ true false).
  unfold calculateDrift at 1. change (videoElementRef r0) with v.
  destruct v as [v |]; cbv zeta.
  - destruct (JS.Qltb (th * 2) _) eqn:Hd; [| cbn; discriminate].
    destruct (correctVideoTime th now throws _) as [applied r2] eqn:Hc.
    assert (Happ : (let '(applied0, r3) := (applied, r2) in
                    if isActiveRef r3 && isPlayingRef r3
                    then (applied0, set_active r3 (isActiveRef r3) true)
                    else (applied0, r3)) = (true, r') -> applied = true).
    { cbn. destruct (_ && _); intros; congruence. }
    intros H. specialize (Happ H). subst applied.
    pose proof Hc as Hc1. apply correctVideoTime_applied in Hc1
      as (v0 & Hv0 & _ & Hthr & _ & _ & _ & Hv' & _ & _).
    apply correctVideoTime_applied_refs in Hc as (v1 & Hv1 & Hr2).
    cbn in Hv0, Hv1. injection Hv0 as <-. injection Hv1 as <-.
    subst r2. cbn in H. injection H as <-.
    split; [reflexivity |]. split; [reflexivity |].
    exists v. split; [reflexivity |].
    split; [apply Qltb_lt; exact Hd |].
    split; [exact Hthr |]. repeat split.
  - destruct (JS.Qltb (th * 2) _); [| cbn; discriminate].
    unfold correctVideoTime. cbn. discriminate.
Qed.

Lemma watchdog_corrects_beyond_twice_threshold_witness :
  exists v,
    videoElementRef Scenario.basicSync = Some v
    /\ driftThreshold_default * 2
       < JS.abs (video_currentTime v
                 - calculateExpectedVideoTime Scenario.basicSync).
Proof.
  destruct (watchdog_corrects_beyond_twice_threshold driftThreshold_default
              1000 false Scenario.basicSync
              (snd (periodicDriftCheck driftThreshold_default 1000 false
                      Scenario.basicSync)) eq_refl)
    as (_ & _ & v & Hv & Hd & _).
  exists v. split; [exact Hv | exact Hd].
Defined.

End Lifecycle.

Section StatusAndSimulation.

Import VideoSync SyncStatus.
Local Open Scope Q_scope.

(** X6. The status report is consistent with the correction controller:
    its drift is actual minus expected time; with an element and a context
    it reports "in sync" exactly when the magnitude of the drift is within
    the threshold; and whenever it reports "in sync", no call of
    [correctVideoTime] on the refs it leaves applies a correction. The
    report itself records one drift sample. *)
Theorem status_in_sync_means_no_correction :
  forall (th : Q) (r : refs),
    st_drift (fst (getSyncStatus th r))
    == st_actualTime (fst (getSyncStatus th r))
       - st_expectedTime (fst (getSyncStatus th r))
    /\ st_stats (fst (getSyncStatus th r))
       = statsRef (snd (getSyncStatus th r))
    /\ (forall (v : video) (c : context),
          videoElementRef r = Some v -> contextRef r = Some c ->
          st_drift (fst (getSyncStatus th r))
          = video_currentTime v - calculateExpectedVideoTime r
          /\ (st_isInSync (fst (getSyncStatus th r)) = true
              <-> JS.abs (st_drift (fst (getSyncStatus th r))) <= th)
          /\ statsRef (snd (getSyncStatus th r))
             = recordDrift (statsRef r)
                 (video_currentTime v - calculateExpectedVideoTime r))
    /\ (st_isInSync (fst (getSyncStatus th r)) = true ->
        forall (now : Q) (throws : bool),
          fst (correctVideoTime th now throws (snd (getSyncStatus th r)))
          = false).
Proof.
  intros th r. unfold getSyncStatus, calculateDrift.
  destruct (videoElementRef r) as [v |] eqn:Hv.
  - destruct (contextRef r) as [c |] eqn:Hc; cbn [fst snd].
    + cbv zeta. cbn [fst snd st_drift st_actualTime st_expectedTime
                     st_isInSync st_stats statsRef set_stats].
      split; [reflexivity |]. split; [reflexivity |]. split.
      * intros v' c' [= <-] _. split; [reflexivity |].
        split; [apply Qle_bool_iff | reflexivity].
      * intros Hin now throws. apply Qle_bool_iff in Hin.
        apply (correctVideoTime_within_threshold th now throws
                 (set_stats r _) v); [exact Hv | exact Hin].
    + split; [reflexivity |]. split; [reflexivity |]. split.
      * intros v' c' _ [=].
      * intros _ now throws. unfold correctVideoTime. rewrite Hv, Hc.
        reflexivity.
  - cbn [fst snd]. split; [reflexivity |]. split; [reflexivity |]. split.
    + intros v' c' [=].
    + intros _ now throws. unfold correctVideoTime. rewrite Hv. reflexivity.
Qed.

Lemma status_in_sync_means_no_correction_witness :
  st_isInSync
    (fst (getSyncStatus driftThreshold_default
            (Scenario.playing (mkVideo (2002 # 100) (Some 120)) 15 20 15 0)))
  = true
  /\ fst (correctVideoTime driftThreshold_default 1000 false
            (snd (getSyncStatus driftThreshold_default
                    (Scenario.playing (mkVideo (2002 # 100) (Some 120))
                       15 20 15 0)))) = false.
Proof.
  destruct (status_in_sync_means_no_correction driftThreshold_default
              (Scenario.playing (mkVideo (2002 # 100) (Some 120)) 15 20 15 0))
    as (_ & _ & Hpresent & Hno).
  destruct (Hpresent (mkVideo (2002 # 100) (Some 120)) (mkContext 15)
              eq_refl eq_refl) as (_ & Hiff & _).
  assert (Hin : st_isInSync
                  (fst (getSyncStatus driftThreshold_default
                          (Scenario.playing
                             (mkVideo (2002 # 100) (Some 120)) 15 20 15 0)))
                = true).
  { apply Hiff. vm_compute. discriminate. }
  split; [exact Hin | apply Hno; exact Hin].
Defined.

Lemma max0_id (e : Q) : 0 <= e -> JS.max 0 e == e.
Proof.
  intros H. destruct (max_spec_le 0 e) as [[_ E] | [Hle E]]; rewrite E;
    [reflexivity | lra].
Qed.

Lemma duration_or_eq (d : option Q) (e e' : Q) :
  e == e' -> duration_or d e == duration_or d e'.
Proof.
  intros H. unfold duration_or. destruct d as [x |]; [| exact H].
  destruct (JS.truthy_num x); [reflexivity | exact H].
Qed.

Lemma min_eq (a a' b b' : Q) :
  a == a' -> b == b' -> JS.min a b == JS.min a' b'.
Proof.
  intros Ha Hb.
  destruct (min_spec_le a b) as [[H E] | [H E]],
           (min_spec_le a' b') as [[H' E'] | [H' E']];
    rewrite E, E'; lra.
Qed.

Lemma Qltb_eq (x y y' : Q) : y == y' -> JS.Qltb x y = JS.Qltb x y'.
Proof.
  intros H. destruct (JS.Qltb x y') eqn:E.
  - apply Qltb_lt. apply Qltb_lt in E. lra.
  - apply Qltb_ge. apply Qltb_ge in E. lra.
Qed.

Lemma abs_eq (x y : Q) : x == y -> JS.abs x == JS.abs y.
Proof. intros H. unfold JS.abs. rewrite H. reflexivity. Qed.

(** X8. The calculation of the hook's test suite agrees with the hook
    wherever the expected time it computes is not negative: for a hook
    mounted with the same inputs the expected time and the drift are the
    same, the simulation says "should correct" exactly when the drift
    exceeds the threshold, its corrected time is the hook's correction
    target raised to 0, and whenever the hook applies a correction it puts
    the element at the simulation's corrected time. *)
Theorem simulation_agrees_with_hook :
  forall (inputs : simInputs) (res : simResult),
    simulateSyncCalculation inputs = Some res ->
    0 <= sim_expectedVideoTime res ->
    let th :=
      match sim_driftThreshold inputs with
      | Some th => th
      | None => driftThreshold_default
      end in
    calculateExpectedVideoTime (hookOf inputs) == sim_expectedVideoTime res
    /\ fst (calculateDrift (hookOf inputs)) == sim_drift res
    /\ (sim_shouldCorrect res = true
        <-> th < JS.abs (fst (calculateDrift (hookOf inputs))))
    /\ (forall t : Q,
          sim_correctedTime res = Some t ->
          exists v,
            videoElementRef (hookOf inputs) = Some v
            /\ t == JS.max 0 (correctionTarget v (hookOf inputs)))
    /\ (forall (now : Q) (r' : refs),
          correctVideoTime th now false (hookOf inputs) = (true, r') ->
          exists (t : Q) (v' : video),
            sim_correctedTime res = Some t
            /\ videoElementRef r' = Some v'
            /\ video_currentTime v' == t).
Proof.
  intros [v st off c th0] res. unfold simulateSyncCalculation, hookOf.
  cbn [sim_videoElement sim_context sim_audioStartTime sim_cueOffset
       sim_driftThreshold].
  destruct v as [v |]; [| discriminate].
  destruct c as [c |]; [| discriminate].
  destruct st as [st |]; [| discriminate].
  cbv zeta. intros Hres. apply (inj Some) in Hres. subst res.
  cbv beta iota delta
    [sim_expectedVideoTime sim_drift sim_shouldCorrect sim_correctedTime].
  set (e := off + (ctx_currentTime c - st)). intros He.
  set (th := match th0 with Some t => t | None => 5 # 100 end).
  change (match th0 with Some t => t | None => driftThreshold_default end)
    with th.
  set (r := mount (Some v) (Some st) off (Some c) true).
  assert (Hexp : calculateExpectedVideoTime r == e).
  { change (calculateExpectedVideoTime r) with (JS.max 0 e).
    apply max0_id. exact He. }
  assert (Hdrift : fst (calculateDrift r) == video_currentTime v - e).
  { change (fst (calculateDrift r))
      with (video_currentTime v - calculateExpectedVideoTime r).
    rewrite Hexp. reflexivity. }
  assert (Htarget : correctionTarget v r
                    == JS.min e (duration_or (video_duration v) e)).
  { unfold correctionTarget. cbv zeta.
    apply min_eq; [exact Hexp | apply duration_or_eq; exact Hexp]. }
  set (sc := JS.Qltb th (JS.abs (video_currentTime v - e))).
  assert (Hsc : sc = true
                <-> th < JS.abs (fst (calculateDrift r))).
  { unfold sc. rewrite Qltb_lt, (abs_eq _ _ Hdrift). reflexivity. }
  clearbody sc.
  split; [exact Hexp |]. split; [exact Hdrift |].
  split; [exact Hsc |]. split.
  - intros t Ht. exists v. split; [reflexivity |].
    destruct sc; [| discriminate]. cbv iota in Ht. injection Ht as <-.
    unfold JS.max. rewrite Htarget. reflexivity.
  - intros now r' Happ.
    apply correctVideoTime_applied in Happ
      as (v0 & Hv0 & _ & _ & Hth & Hpos & _ & Hv' & _ & _).
    assert (Hv : Some v = Some v0) by exact Hv0. injection Hv as <-.
    apply Hsc in Hth. rewrite Hth.
    eexists. eexists. split; [reflexivity |].
    split; [exact Hv' |]. cbn [video_currentTime].
    rewrite <- Htarget. symmetry. apply max0_id. exact Hpos.
Qed.

Lemma simulation_agrees_with_hook_witness :
  calculateExpectedVideoTime
    (hookOf (mkSimInputs (Some (mkVideo 10 (Some 120))) (Some 5) 10
               (Some (mkContext 15)) (Some (5 # 100))))
  == 20.
Proof.
  destruct (simulation_agrees_with_hook
              (mkSimInputs (Some (mkVideo 10 (Some 120))) (Some 5) 10
                 (Some (mkContext 15)) (Some (5 # 100)))
              _ eq_refl) as (H & _).
  - vm_compute. discriminate.
  - rewrite H. reflexivity.
Defined.

End StatusAndSimulation.

(** * Further properties of the cue registry *)

Section AddCue.

Import CuePointEditor CueRegistry.
Local Open Scope Q_scope.

Lemma insertByTime_first {A : Type} (t : A -> Q) (y : A) (l : list A) :
  Forall (fun z => t y <= t z) l -> insertByTime t y l = y :: l.
Proof.
  intros H. destruct l as [| z l]; [reflexivity |]. cbn [insertByTime].
  apply Forall_inv in H. apply Qle_bool_iff in H. rewrite H. reflexivity.
Qed.

(** Sorting an ascending array with one more element at its end puts that
    element behind the elements not later than it. *)
Lemma sortByTime_snoc {A : Type} (t : A -> Q) (x : A) (l : list A) :
  ascending t l ->
  exists l1 l2,
    l = l1 ++ l2
    /\ sortByTime t (l ++ [x]) = l1 ++ x :: l2
    /\ Forall (fun y => t y <= t x) l1
    /\ Forall (fun y => t x < t y) l2.
Proof.
  unfold sortByTime. rewrite fold_right_app. cbn [fold_right insertByTime].
  unfold ascending. induction l as [| y l IH]; intros Hs.
  - exists [], []. repeat split; constructor.
  - apply StronglySorted_inv in Hs as [Hl Hy].
    destruct (IH Hl) as (l1 & l2 & El & Ef & H1 & H2).
    cbn [fold_right]. rewrite Ef. destruct l1 as [| z l1].
    + cbn [app insertByTime] in *. subst l.
      destruct (Qle_bool (t y) (t x)) eqn:E.
      * apply Qle_bool_iff in E. exists [y], l2.
        repeat split; [constructor; [exact E | constructor] | exact H2].
      * assert (Hlt : t x < t y).
        { apply Qltb_lt. unfold JS.Qltb. rewrite E. reflexivity. }
        rewrite (insertByTime_first t y l2 Hy). exists [], (y :: l2).
        repeat split; [constructor | constructor; assumption].
    + subst l. cbn [app insertByTime].
      pose proof (Forall_inv Hy) as Hyz. cbn in Hyz.
      apply Qle_bool_iff in Hyz. rewrite Hyz.
      exists (y :: z :: l1), l2. repeat split; [| exact H2].
      constructor; [| exact H1].
      apply Forall_inv in H1. apply Qle_bool_iff in Hyz. lra.
Qed.

(** X9. [addCue] adds exactly one cue, at the current time, with the
    sample position of that time, the editor's sample rate and the next
    available key, and commits an array ascending by time. On a registry
    that was ascending the cues keep their order and the new cue comes
    right behind the cues at or before the current time. The last row
    becomes the row being edited. *)
Theorem addCue_inserts_in_order :
  forall (currentTime : Q) (sampleRate : Z) (random : string) (e : editor),
    let newCue :=
      mkCue currentTime
        ("Cue " +:+ pretty (length (cuePoints e) + 1)%nat)
        (getNextAvailableKey (cuePoints e) random) sampleRate
        (JS.round (currentTime * inject_Z sampleRate)) in
    let e' := addCue currentTime sampleRate random e in
    ascending time (cuePoints e')
    /\ Permutation (cuePoints e') (cuePoints e ++ [newCue])
    /\ length (cuePoints e') = S (length (cuePoints e))
    /\ editingId e' = Some (length (cuePoints e))
    /\ validationErrors e' = validationErrors e
    /\ (ascending time (cuePoints e) ->
        exists l1 l2,
          cuePoints e = l1 ++ l2
          /\ cuePoints e' = l1 ++ newCue :: l2
          /\ Forall (fun c => time c <= currentTime) l1
          /\ Forall (fun c => currentTime < time c) l2).
Proof.
  intros currentTime sampleRate random e newCue e'.
  assert (Hperm : Permutation (cuePoints e') (cuePoints e ++ [newCue])).
  { apply sortByTime_perm. }
  split; [apply sortByTime_ascending |]. split; [exact Hperm |].
  assert (Hlen : length (cuePoints e') = S (length (cuePoints e))).
  { rewrite (Permutation_length Hperm), length_app. cbn. lia. }
  split; [exact Hlen |]. split.
  - assert (Hid : editingId e' = Some (length (cuePoints e') - 1)%nat)
      by reflexivity.
    rewrite Hid, Hlen. f_equal. lia.
  - split; [reflexivity |]. intros Hasc.
    destruct (sortByTime_snoc time newCue (cuePoints e) Hasc)
      as (l1 & l2 & El & Ef & H1 & H2).
    exists l1, l2. repeat split; assumption.
Qed.

Lemma addCue_inserts_in_order_witness :
  exists l1 l2,
    cuePoints Scenario.twoCues = l1 ++ l2
    /\ cuePoints (addCue 2 48000 "x" Scenario.twoCues)
       = l1 ++ mkCue 2 "Cue 3" "3" 48000 96000 :: l2.
Proof.
  destruct (addCue_inserts_in_order 2 48000 "x" Scenario.twoCues)
    as (_ & _ & _ & _ & _ & Hord).
  destruct Hord as (l1 & l2 & El & Ef & _).
  - repeat constructor; cbn; discriminate.
  - exists l1, l2. split; [exact El | exact Ef].
Defined.

End AddCue.

Section Keys.

Import CuePointEditor CueRegistry.
Local Open Scope Q_scope.

(** The head of a filtered list is the first element that passes. *)
Lemma filter_head {A : Type} (P : A -> Prop) `{!forall x, Decision (P x)}
    (l : list A) :
  match filter P l with
  | x :: _ =>
      exists pre post,
        l = pre ++ x :: post /\ P x /\ Forall (fun y => ~ P y) pre
  | [] => Forall (fun y => ~ P y) l
  end.
Proof.
  induction l as [| y l IH]; [constructor |].
  rewrite filter_cons. destruct (decide (P y)) as [Hy | Hy].
  - exists [], l. repeat split; [exact Hy | constructor].
  - destruct (filter P l) as [| x rest].
    + constructor; assumption.
    + destruct IH as (pre & post & -> & Hx & Hpre).
      exists (y :: pre), post. repeat split; [exact Hx |].
      constructor; assumption.
Qed.

Lemma candidateKeys_truthy (k : string) :
  k ∈ candidateKeys -> Str.truthy k = true.
Proof.
  intros H.
  assert (Hall : Forall (fun k => Str.truthy k = true) candidateKeys).
  { vm_compute. repeat constructor. }
  rewrite Forall_forall in Hall. apply Hall. exact H.
Qed.

Lemma candidateKeys_NoDup : NoDup candidateKeys.
Proof. refine (bool_decide_unpack _ _). vm_compute. exact I. Qed.

Lemma elem_of_usedKeys (cues : list cue) (k : string) :
  k ∈ usedKeys cues
  <-> Str.truthy k = true /\ exists c, c ∈ cues /\ key c = k.
Proof.
  unfold usedKeys. rewrite list_elem_of_filter, list_elem_of_In, in_map_iff.
  split.
  - intros [Ht (c & Hk & Hc)]. split; [exact Ht |]. exists c.
    split; [apply list_elem_of_In; exact Hc | exact Hk].
  - intros [Ht (c & Hc & Hk)]. split; [exact Ht |]. exists c.
    split; [exact Hk | apply list_elem_of_In; exact Hc].
Qed.

Lemma usedKeys_length (cues : list cue) :
  (length (usedKeys cues) <= length cues)%nat.
Proof.
  unfold usedKeys. etransitivity; [apply length_filter |].
  rewrite length_map. reflexivity.
Qed.

Lemma getNextAvailableKey_cases (cues : list cue) (random : string) :
  (exists pre post,
      candidateKeys = pre ++ getNextAvailableKey cues random :: post
      /\ (forall c, c ∈ cues -> key c <> getNextAvailableKey cues random)
      /\ (forall k, k ∈ pre -> exists c, c ∈ cues /\ key c = k))
  \/ (getNextAvailableKey cues random = random
      /\ (forall k, k ∈ candidateKeys -> exists c, c ∈ cues /\ key c = k)
      /\ (35 <= length cues)%nat).
Proof.
  unfold getNextAvailableKey. fold (usedKeys cues).
  pose proof (filter_head (fun k => k ∉ usedKeys cues) candidateKeys) as H.
  destruct (filter (fun k => k ∉ usedKeys cues) candidateKeys)
    as [| k rest].
  - right. split; [reflexivity |].
    assert (Hused : forall k, k ∈ candidateKeys -> k ∈ usedKeys cues).
    { intros k Hk. rewrite Forall_forall in H. specialize (H k Hk).
      destruct (decide (k ∈ usedKeys cues)); [assumption | contradiction]. }
    split.
    + intros k Hk. apply Hused in Hk. apply elem_of_usedKeys in Hk.
      tauto.
    + pose proof (submseteq_length _ _
                    (NoDup_submseteq _ _ candidateKeys_NoDup Hused)) as Hl.
      pose proof (usedKeys_length cues). change (length candidateKeys)
        with 35%nat in Hl. lia.
  - left. destruct H as (pre & post & E & Hk & Hpre).
    exists pre, post. split; [exact E |]. split.
    + intros c Hc Heq. apply Hk. apply elem_of_usedKeys. split.
      * apply candidateKeys_truthy. rewrite E. apply elem_of_app. right.
        apply elem_of_cons. left. reflexivity.
      * exists c. split; assumption.
    + intros k' Hk'. rewrite Forall_forall in Hpre.
      specialize (Hpre k' Hk').
      destruct (decide (k' ∈ usedKeys cues)) as [Hin | Hn];
        [| contradiction].
      apply elem_of_usedKeys in Hin. tauto.
Qed.

Lemma getNextAvailableKey_fresh (cues : list cue) (random : string) :
  (length cues < 35)%nat ->
  forall c, c ∈ cues -> key c <> getNextAvailableKey cues random.
Proof.
  intros Hlt.
  destruct (getNextAvailableKey_cases cues random)
    as [(pre & post & _ & Hfree & _) | (_ & _ & Hge)]; [exact Hfree | lia].
Qed.

(** X10. [getNextAvailableKey] returns the first of "1".."9", "a".."z"
    that no cue carries, and falls back to the random character only when
    all thirty-five are in use, which takes at least thirty-five cues: in
    a registry of fewer cues the key returned is carried by no cue. *)
Theorem next_key_is_first_unused :
  length candidateKeys = 35%nat
  /\ forall (cues : list cue) (random : string),
      ((exists pre post,
           candidateKeys = pre ++ getNextAvailableKey cues random :: post
           /\ (forall c, c ∈ cues ->
                         key c <> getNextAvailableKey cues random)
           /\ (forall k, k ∈ pre -> exists c, c ∈ cues /\ key c = k))
       \/ (getNextAvailableKey cues random = random
           /\ (forall k, k ∈ candidateKeys ->
                         exists c, c ∈ cues /\ key c = k)
           /\ (35 <= length cues)%nat))
      /\ ((length cues < 35)%nat ->
          forall c, c ∈ cues -> key c <> getNextAvailableKey cues random).
Proof.
  split; [reflexivity |]. intros cues random.
  split; [apply getNextAvailableKey_cases | apply getNextAvailableKey_fresh].
Qed.

Lemma next_key_is_first_unused_witness :
  key (mkCue 3 "Verse" "2" 48000 144000)
  <> getNextAvailableKey (cuePoints Scenario.twoCues) "x".
Proof.
  apply (proj2 (proj2 next_key_is_first_unused
                  (cuePoints Scenario.twoCues) "x")).
  - cbn. lia.
  - cbn. apply elem_of_cons. right. apply elem_of_cons. left. reflexivity.
Defined.

End Keys.

Section RegistryLists.

Import CuePointEditor CueRegistry.
Local Open Scope Q_scope.

Lemma removeAt_take_drop {A : Type} (l : list A) :
  forall i : nat, removeAt l i = take i l ++ drop (S i) l.
Proof.
  induction l as [| x l IH]; intros [| i]; cbn; try reflexivity.
  rewrite IH. reflexivity.
Qed.

Lemma removeAt_ge {A : Type} (l : list A) (i : nat) :
  (length l <= i)%nat -> removeAt l i = l.
Proof.
  intros H. rewrite removeAt_take_drop, take_ge, drop_ge by lia.
  apply app_nil_r.
Qed.

Lemma removeAt_perm {A : Type} (l : list A) (i : nat) (x : A) :
  l !! i = Some x -> Permutation (x :: removeAt l i) l.
Proof.
  intros H. rewrite removeAt_take_drop.
  rewrite <- (take_drop_middle l i x H) at 3.
  apply Permutation_middle.
Qed.

Lemma insertAt_perm {A : Type} (l : list A) (i : nat) (x : A) :
  Permutation (insertAt l i x) (x :: l).
Proof.
  unfold insertAt. rewrite <- Permutation_middle, take_drop. reflexivity.
Qed.

Lemma usedKeys_app (a b : list cue) :
  usedKeys (a ++ b) = usedKeys a ++ usedKeys b.
Proof. unfold usedKeys. rewrite map_app, filter_app. reflexivity. Qed.

Lemma usedKeys_cons (c : cue) (l : list cue) :
  usedKeys (c :: l)
  = (if Str.truthy (key c) then [key c] else []) ++ usedKeys l.
Proof.
  unfold usedKeys. cbn [map]. rewrite filter_cons.
  destruct (Str.truthy (key c)) eqn:E.
  - rewrite decide_True by reflexivity. reflexivity.
  - rewrite decide_False by discriminate. reflexivity.
Qed.

Lemma usedKeys_perm (l l' : list cue) :
  Permutation l l' -> Permutation (usedKeys l) (usedKeys l').
Proof.
  intros H. unfold usedKeys. apply filter_Permutation.
  apply Permutation_map. exact H.
Qed.

Lemma uniqueKeys_perm (l l' : list cue) :
  Permutation l l' -> uniqueKeys l -> uniqueKeys l'.
Proof.
  intros H. unfold uniqueKeys. rewrite (usedKeys_perm l l' H). trivial.
Qed.

Lemma uniqueKeys_drop_middle (a b : list cue) (c : cue) :
  uniqueKeys (a ++ c :: b) -> uniqueKeys (a ++ b).
Proof.
  unfold uniqueKeys. rewrite !usedKeys_app, usedKeys_cons.
  rewrite !NoDup_app. intros (Ha & Hab & _ & _ & Hb).
  split; [exact Ha |]. split; [| exact Hb].
  intros x Hx Hin. apply (Hab x Hx). apply elem_of_app. right. exact Hin.
Qed.

Lemma uniqueKeys_add_middle (a b : list cue) (c : cue) :
  uniqueKeys (a ++ b) ->
  (key c = ""%string
   \/ forall other, other ∈ a ++ b -> key other <> key c) ->
  uniqueKeys (a ++ c :: b).
Proof.
  unfold uniqueKeys. rewrite !usedKeys_app, usedKeys_cons.
  rewrite !NoDup_app. intros (Ha & Hab & Hb) Hc.
  destruct (Str.truthy (key c)) eqn:Ht.
  - destruct Hc as [Hc | Hc]; [rewrite Hc in Ht; discriminate |].
    assert (Hfresh : forall l, (forall o, o ∈ l -> o ∈ a ++ b) ->
                               key c ∉ usedKeys l).
    { intros l Hl Hin. apply elem_of_usedKeys in Hin as [_ (o & Ho & Hk)].
      exact (Hc o (Hl o Ho) Hk). }
    split; [exact Ha |]. split.
    + intros x Hx Hin. apply elem_of_app in Hin as [Hin | Hin].
      * apply list_elem_of_singleton in Hin as ->.
        revert Hx. apply Hfresh. intros o Ho. apply elem_of_app. left.
        exact Ho.
      * exact (Hab x Hx Hin).
    + split; [apply NoDup_singleton |]. split; [| exact Hb].
      intros x Hx. apply list_elem_of_singleton in Hx as ->.
      apply Hfresh. intros o Ho. apply elem_of_app. right. exact Ho.
  - cbn [app]. split; [exact Ha |]. split; [exact Hab |].
    split; [apply NoDup_nil; trivial |]. split; [| exact Hb].
    intros x Hx. inversion Hx.
Qed.

Lemma uniqueKeys_insert (l : list cue) (i : nat) (old c : cue) :
  l !! i = Some old ->
  uniqueKeys l ->
  (key c = ""%string
   \/ forall (j : nat) (other : cue),
        l !! j = Some other -> j <> i -> key other <> key c) ->
  uniqueKeys (<[i := c]> l).
Proof.
  intros Hold Hu Hc.
  assert (Hi : (i < length l)%nat) by (apply lookup_lt_Some in Hold; exact Hold).
  rewrite insert_take_drop by exact Hi.
  rewrite <- (take_drop_middle l i old Hold) in Hu.
  apply uniqueKeys_add_middle; [apply (uniqueKeys_drop_middle _ _ old Hu) |].
  destruct Hc as [Hc | Hc]; [left; exact Hc | right].
  intros other Hin. apply elem_of_app in Hin as [Hin | Hin].
  - apply list_elem_of_lookup in Hin as [j Hj].
    pose proof (lookup_lt_Some _ _ _ Hj) as Hlt. rewrite length_take in Hlt.
    rewrite lookup_take_lt in Hj by lia. apply (Hc j other Hj). lia.
  - apply list_elem_of_lookup in Hin as [j Hj].
    rewrite lookup_drop in Hj. apply (Hc _ other Hj). lia.
Qed.

End RegistryLists.

Section UniqueKeys.

Import CuePointEditor CueRegistry.
Local Open Scope Q_scope.

Lemma uniqueKeys_distinct (l : list cue) :
  uniqueKeys l ->
  forall (i j : nat) (ci cj : cue),
    (i < j)%nat -> l !! i = Some ci -> l !! j = Some cj ->
    key ci <> ""%string -> key ci <> key cj.
Proof.
  intros Hu i j ci cj Hij Hi Hj Hne Heq.
  rewrite <- (take_drop_middle l j cj Hj) in Hu.
  unfold uniqueKeys in Hu. rewrite usedKeys_app, usedKeys_cons in Hu.
  apply NoDup_app in Hu as (_ & Hdisj & _).
  apply (Hdisj (key ci)).
  - apply elem_of_usedKeys. split; [apply truthy_nonempty; exact Hne |].
    exists ci. split; [| reflexivity]. apply list_elem_of_lookup. exists i.
    rewrite lookup_take_lt by exact Hij. exact Hi.
  - apply elem_of_app. left. rewrite <- Heq.
    apply truthy_nonempty in Hne. rewrite Hne.
    apply list_elem_of_singleton. reflexivity.
Qed.

(** X11. Once no key is carried by two cues of the registry, it stays so:
    under every [updateCue], accepted or rejected, under [deleteCue],
    under a drag-and-drop reordering, and under [addCue] as long as the
    registry holds fewer than 35 cues. *)
Theorem registry_keys_stay_unique :
  (forall l : list cue,
      uniqueKeys l ->
      forall (i j : nat) (ci cj : cue),
        i <> j -> l !! i = Some ci -> l !! j = Some cj ->
        key ci <> ""%string -> key ci <> key cj)
  /\ (forall (audioDuration : Q) (sampleRate : Z) (parseTime : string -> Q)
            (e e' : editor) (index : nat) (f : field) (value : string),
        updateCue audioDuration sampleRate parseTime e index f value
        = Some e' ->
        uniqueKeys (cuePoints e) -> uniqueKeys (cuePoints e'))
  /\ (forall (e : editor) (index : nat),
        uniqueKeys (cuePoints e) ->
        uniqueKeys (cuePoints (deleteCue e index)))
  /\ (forall (l l' : list cue) (dragged : option nat) (dropIndex : nat),
        handleDrop l dragged dropIndex = Reordered l' ->
        uniqueKeys l -> uniqueKeys l')
  /\ (forall (currentTime : Q) (sampleRate : Z) (random : string)
            (e : editor),
        (length (cuePoints e) < 35)%nat ->
        uniqueKeys (cuePoints e) ->
        uniqueKeys (cuePoints (addCue currentTime sampleRate random e))).
Proof.
  split; [| split; [| split; [| split]]].
  - intros l Hu i j ci cj Hij Hi Hj Hne.
    destruct (Nat.lt_total i j) as [Hlt | [Heq | Hgt]]; [| contradiction |].
    + exact (uniqueKeys_distinct l Hu i j ci cj Hlt Hi Hj Hne).
    + intros Heq. apply (uniqueKeys_distinct l Hu j i cj ci Hgt Hj Hi).
      * rewrite <- Heq. exact Hne.
      * symmetry. exact Heq.
  - intros audioDuration sampleRate parseTime e e' index f value H Hu.
    unfold updateCue in H.
    destruct (cuePoints e !! index) as [old |] eqn:Hold; [| discriminate].
    cbv zeta in H.
    destruct (no_errors _) eqn:Hok; injection H as <-; cbn [cuePoints];
      [| exact Hu].
    apply validateCue_accepts in Hok as (_ & _ & Hk).
    pose proof (uniqueKeys_insert (cuePoints e) index old _ Hold Hu Hk)
      as Hnew.
    destruct f; [| exact Hnew | exact Hnew].
    apply (uniqueKeys_perm _ _ (Permutation_sym (sortByTime_perm time _))).
    exact Hnew.
  - intros e index Hu. unfold deleteCue. cbn [cuePoints].
    destruct (cuePoints e !! index) as [c |] eqn:Hc.
    + rewrite removeAt_take_drop.
      rewrite <- (take_drop_middle _ _ _ Hc) in Hu.
      exact (uniqueKeys_drop_middle _ _ c Hu).
    + rewrite removeAt_ge; [exact Hu |]. apply lookup_ge_None. exact Hc.
  - intros l l' dragged dropIndex H Hu. unfold handleDrop in H.
    destruct dragged as [d |]; [| discriminate].
    destruct (d =? dropIndex)%nat; [discriminate |].
    destruct (l !! d) as [c |] eqn:Hc; [| discriminate].
    cbv zeta in H. injection H as <-.
    apply (uniqueKeys_perm l); [| exact Hu].
    rewrite insertAt_perm. symmetry. apply removeAt_perm. exact Hc.
  - intros currentTime sampleRate random e Hlt Hu.
    unfold addCue. cbn [cuePoints].
    apply (uniqueKeys_perm _ _ (Permutation_sym (sortByTime_perm time _))).
    rewrite <- (app_nil_r [_]) at 1.
    rewrite (app_assoc (cuePoints e) [_] []), <- app_assoc. cbn [app].
    apply uniqueKeys_add_middle; [rewrite app_nil_r; exact Hu |].
    right. rewrite app_nil_r. cbn [key]. intros other Hin.
    apply (getNextAvailableKey_fresh (cuePoints e) random Hlt).
    exact Hin.
Qed.

Lemma registry_keys_stay_unique_witness :
  uniqueKeys (cuePoints (addCue 2 48000 "x" Scenario.twoCues))
  /\ uniqueKeys (cuePoints (deleteCue Scenario.twoCues 0)).
Proof.
  assert (Hu : uniqueKeys (cuePoints Scenario.twoCues)).
  { refine (bool_decide_unpack _ _). vm_compute. exact I. }
  destruct registry_keys_stay_unique as (_ & _ & Hdel & _ & Hadd).
  split.
  - apply Hadd; [cbn; lia | exact Hu].
  - apply Hdel. exact Hu.
Defined.

End UniqueKeys.

Section DeleteAndReorder.

Import CuePointEditor CueRegistry.
Local Open Scope Q_scope.

Lemma Forall_removeAt {A : Type} (P : A -> Prop) (l : list A) :
  forall i : nat, Forall P l -> Forall P (removeAt l i).
Proof.
  induction l as [| x l IH]; intros [| i] H; cbn; try exact H.
  - apply Forall_inv_tail in H. exact H.
  - constructor; [apply (Forall_inv H) | apply IH, (Forall_inv_tail H)].
Qed.

Lemma ascending_removeAt {A : Type} (t : A -> Q) (l : list A) :
  forall i : nat, ascending t l -> ascending t (removeAt l i).
Proof.
  unfold ascending. induction l as [| x l IH]; intros [| i] H; cbn;
    try exact H.
  - apply StronglySorted_inv in H as [H _]. exact H.
  - apply StronglySorted_inv in H as [H Hx].
    constructor; [apply IH; exact H | apply Forall_removeAt; exact Hx].
Qed.

Lemma removeAt_lookup {A : Type} (l : list A) (i j : nat) :
  removeAt l i !! j = if (j <? i)%nat then l !! j else l !! (S j).
Proof.
  revert i j. induction l as [| x l IH]; intros i j.
  - destruct i as [| i]; cbn [removeAt]; rewrite !lookup_nil;
      [reflexivity | destruct (j <? S i)%nat; reflexivity].
  - destruct i as [| i], j as [| j]; cbn; try reflexivity.
    rewrite IH. reflexivity.
Qed.

Lemma removeAt_length {A : Type} (l : list A) (i : nat) :
  (i < length l)%nat -> length (removeAt l i) = (length l - 1)%nat.
Proof.
  intros H. rewrite removeAt_take_drop, length_app, length_take, length_drop.
  lia.
Qed.

(** X12. [deleteCue] at the index of a row removes that cue and nothing
    else: the cues before it keep their index, the cues behind it move up
    by one, an ascending registry stays ascending. At an index outside
    the registry it leaves the cues as they are. It ends the editing of a
    row and forgets the errors stored under the index, leaving the errors
    stored under every other index where they are. *)
Theorem deleteCue_removes_one :
  forall (e : editor) (index : nat),
    (forall j : nat,
        cuePoints (deleteCue e index) !! j
        = if (j <? index)%nat then cuePoints e !! j
          else cuePoints e !! (S j))
    /\ ((index < length (cuePoints e))%nat ->
        length (cuePoints (deleteCue e index))
        = (length (cuePoints e) - 1)%nat)
    /\ ((length (cuePoints e) <= index)%nat ->
        cuePoints (deleteCue e index) = cuePoints e)
    /\ (ascending time (cuePoints e) ->
        ascending time (cuePoints (deleteCue e index)))
    /\ editingId (deleteCue e index) = None
    /\ validationErrors (deleteCue e index) !! index = None
    /\ (forall j : nat,
          j <> index ->
          validationErrors (deleteCue e index) !! j
          = validationErrors e !! j).
Proof.
  intros e index. unfold deleteCue.
  cbn [cuePoints editingId validationErrors].
  split; [intros j; apply removeAt_lookup |].
  split; [apply removeAt_length |].
  split; [apply removeAt_ge |].
  split; [apply ascending_removeAt |].
  split; [reflexivity |].
  split; [apply lookup_delete_eq |].
  intros j Hj. apply lookup_delete_ne. congruence.
Qed.

Lemma deleteCue_removes_one_witness :
  length (cuePoints (deleteCue Scenario.twoCues 0)) = 1%nat
  /\ cuePoints (deleteCue Scenario.twoCues 5) = cuePoints Scenario.twoCues.
Proof.
  destruct (deleteCue_removes_one Scenario.twoCues 0) as (_ & Hlen & _).
  destruct (deleteCue_removes_one Scenario.twoCues 5) as (_ & _ & Hout & _).
  split; [apply Hlen; cbn; lia | apply Hout; cbn; lia].
Defined.

Lemma insertAt_lookup {A : Type} (l : list A) (a : nat) (x : A) :
  (a <= length l)%nat -> insertAt l a x !! a = Some x.
Proof.
  intros H. unfold insertAt. rewrite lookup_app_r; rewrite length_take;
    [| lia]. replace (a - a `min` length l)%nat with 0%nat by lia.
  reflexivity.
Qed.

Lemma removeAt_insertAt {A : Type} (l : list A) (a : nat) (x : A) :
  (a <= length l)%nat -> removeAt (insertAt l a x) a = l.
Proof.
  intros H. unfold insertAt. rewrite removeAt_take_drop.
  assert (Hl : length (take a l) = a) by (rewrite length_take; lia).
  rewrite take_app_le by lia. rewrite (take_ge (take a l)) by lia.
  rewrite drop_app_ge by lia. rewrite Hl.
  replace (S a - a)%nat with 1%nat by lia.
  change (drop 1 (x :: drop a l)) with (drop a l).
  apply take_drop.
Qed.

(** X14. A drop reorders without loss: the array handed to [onUpdate] is
    a permutation of the registry, the dragged cue lies at the drop index
    (one less when it was dragged downwards), and the other cues keep
    their order. Nothing happens when no row is dragged or a row is
    dropped onto itself; and dropping a row onto the row right below it
    hands over the registry as it was. *)
Theorem handleDrop_moves_one_row :
  (forall (l : list cue) (dropIndex : nat),
      handleDrop l None dropIndex = NotMoved
      /\ handleDrop l (Some dropIndex) dropIndex = NotMoved)
  /\ (forall (l l' : list cue) (dragged dropIndex : nat),
        handleDrop l (Some dragged) dropIndex = Reordered l' ->
        (dropIndex < length l)%nat ->
        exists c,
          l !! dragged = Some c
          /\ Permutation l' l
          /\ length l' = length l
          /\ l' !! (if (dragged <? dropIndex)%nat then (dropIndex - 1)%nat
                    else dropIndex) = Some c
          /\ removeAt l'
               (if (dragged <? dropIndex)%nat then (dropIndex - 1)%nat
                else dropIndex)
             = removeAt l dragged)
  /\ (forall (l : list cue) (dragged : nat) (c : cue),
        l !! dragged = Some c ->
        handleDrop l (Some dragged) (S dragged) = Reordered l).
Proof.
  split; [| split].
  - intros l dropIndex. split; [reflexivity |].
    unfold handleDrop. rewrite Nat.eqb_refl. reflexivity.
  - intros l l' dragged dropIndex H Hdrop. unfold handleDrop in H.
    destruct (dragged =? dropIndex)%nat eqn:Hne; [discriminate |].
    apply Nat.eqb_neq in Hne.
    destruct (l !! dragged) as [c |] eqn:Hc; [| discriminate].
    cbv zeta in H. injection H as <-. exists c. split; [reflexivity |].
    pose proof (lookup_lt_Some _ _ _ Hc) as Hd.
    pose proof (removeAt_length l dragged Hd) as Hlen.
    set (a := if (dragged <? dropIndex)%nat then (dropIndex - 1)%nat
              else dropIndex).
    assert (Ha : (a <= length (removeAt l dragged))%nat).
    { subst a. destruct (Nat.ltb_spec dragged dropIndex); lia. }
    assert (Hperm : Permutation (insertAt (removeAt l dragged) a c) l).
    { rewrite insertAt_perm. apply removeAt_perm. exact Hc. }
    split; [exact Hperm |].
    split; [apply Permutation_length; exact Hperm |].
    split; [apply insertAt_lookup; exact Ha |].
    apply removeAt_insertAt. exact Ha.
  - intros l dragged c Hc. unfold handleDrop.
    assert (Hne : (dragged =? S dragged)%nat = false)
      by (apply Nat.eqb_neq; lia).
    assert (Hlt : (dragged <? S dragged)%nat = true)
      by (apply Nat.ltb_lt; lia).
    rewrite Hne, Hc. cbv zeta. rewrite Hlt. f_equal.
    replace (S dragged - 1)%nat with dragged by lia.
    unfold insertAt. rewrite removeAt_take_drop.
    pose proof (lookup_lt_Some _ _ _ Hc) as Hd.
    assert (Hl : length (take dragged l) = dragged)
      by (rewrite length_take; lia).
    rewrite take_app_le by lia.
    rewrite (take_ge (take dragged l)) by lia.
    rewrite drop_app_ge by lia. rewrite Hl, Nat.sub_diag.
    change (drop 0 (drop (S dragged) l)) with (drop (S dragged) l).
    apply take_drop_middle. exact Hc.
Qed.

Lemma handleDrop_moves_one_row_witness :
  exists c,
    cuePoints Scenario.twoCues !! 1%nat = Some c
    /\ rev (cuePoints Scenario.twoCues) !! 0%nat = Some c.
Proof.
  destruct (proj1 (proj2 handleDrop_moves_one_row)
              (cuePoints Scenario.twoCues)
              (rev (cuePoints Scenario.twoCues)) 1%nat 0%nat eq_refl)
    as (c & Hc & _ & _ & Hat & _).
  - cbn. lia.
  - exists c. split; [exact Hc | exact Hat].
Defined.

End DeleteAndReorder.

Section ImportCues.

Import Json CuePointEditor CueRegistry.
Local Open Scope Q_scope.

Variable sampleRate : Z.

Lemma loadCue_importable (index : nat) (v : json) :
  importable v = true ->
  exists c,
    loadCue sampleRate index v = inr c
    /\ truthy (Some (l_label c)) = true.
Proof.
  unfold importable, loadCue. destruct v as [| | | | | props]; try discriminate.
  destruct (get_prop props "time") as [[| | t | | |] |]; try discriminate.
  destruct (get_prop props "label") as [lbl |]; [| discriminate].
  intros H. rewrite H. eexists. split; [reflexivity | exact H].
Qed.

Lemma loadCue_rejects (index : nat) (v : json) :
  importable v = false ->
  loadCue sampleRate index v = inl (rejection index v).
Proof.
  unfold importable, loadCue, rejection.
  destruct v as [| | | | | props]; try reflexivity.
  destruct (get_prop props "time") as [[| | t | | |] |]; try reflexivity.
  destruct (get_prop props "label") as [lbl |]; [| reflexivity].
  intros H. rewrite H. reflexivity.
Qed.

Lemma loadCuesFrom_all (items : list json) :
  Forall (fun v => importable v = true) items ->
  forall index : nat,
    exists cs,
      loadCuesFrom sampleRate index items = inr cs
      /\ length cs = length items
      /\ Forall (fun c => truthy (Some (l_label c)) = true) cs.
Proof.
  induction 1 as [| v items Hv _ IH]; intros index.
  - exists []. repeat split. constructor.
  - destruct (loadCue_importable index v Hv) as (c & Hc & Hl).
    destruct (IH (S index)) as (cs & Hcs & Hlen & Hall).
    exists (c :: cs). cbn [loadCuesFrom]. rewrite Hc, Hcs.
    split; [reflexivity |]. split; [cbn; lia | constructor; assumption].
Qed.

Lemma loadCuesFrom_first_bad (pre post : list json) (v : json) :
  Forall (fun v => importable v = true) pre ->
  importable v = false ->
  forall index : nat,
    loadCuesFrom sampleRate index (pre ++ v :: post)
    = inl (rejection (index + length pre) v).
Proof.
  induction 1 as [| w pre Hw _ IH]; intros Hv index.
  - cbn [app loadCuesFrom length]. rewrite (loadCue_rejects index v Hv).
    rewrite Nat.add_0_r. reflexivity.
  - destruct (loadCue_importable index w Hw) as (c & Hc & _).
    cbn [app loadCuesFrom length]. rewrite Hc, (IH Hv (S index)).
    f_equal. f_equal. lia.
Qed.

Lemma loadCuesFrom_inr (items : list json) :
  forall (index : nat) (cs : list loadedCue),
    loadCuesFrom sampleRate index items = inr cs ->
    Forall (fun v => importable v = true) items.
Proof.
  induction items as [| v items IH]; intros index cs H; [constructor |].
  cbn [loadCuesFrom] in H.
  destruct (importable v) eqn:Hv.
  - constructor; [exact Hv |].
    destruct (loadCue sampleRate index v); [discriminate |].
    destruct (loadCuesFrom sampleRate (S index) items) eqn:E;
      [discriminate |]. exact (IH _ _ E).
  - rewrite (loadCue_rejects index v Hv) in H. discriminate.
Qed.

(** X13. The import is all or nothing. An array is imported exactly when
    every element is an object with a number as time and a truthy label;
    the cues handed over are then as many as the elements, ascending by
    time, each with a truthy label. Otherwise nothing is handed over and
    the failure names the first element not accepted, as a type error if
    that element is [null]. Text that does not parse and a root that is
    not an array are refused as such. *)
Theorem import_is_all_or_nothing :
  (forall items : list json,
      Forall (fun v => importable v = true) items ->
      exists cs,
        loadCuesFromJSON sampleRate (Some (JArr items)) = Loaded cs
        /\ length cs = length items
        /\ ascending l_time cs
        /\ Forall (fun c => truthy (Some (l_label c)) = true) cs)
  /\ (forall (pre post : list json) (v : json),
        Forall (fun v => importable v = true) pre ->
        importable v = false ->
        loadCuesFromJSON sampleRate (Some (JArr (pre ++ v :: post)))
        = LoadFailed (rejection (length pre) v))
  /\ (forall (items : list json) (cs : list loadedCue),
        loadCuesFromJSON sampleRate (Some (JArr items)) = Loaded cs ->
        Forall (fun v => importable v = true) items)
  /\ loadCuesFromJSON sampleRate None = LoadFailed SyntaxError
  /\ (forall v : json,
        (forall items, v <> JArr items) ->
        loadCuesFromJSON sampleRate (Some v) = LoadFailed NotAnArray).
Proof.
  split; [| split; [| split; [| split]]].
  - intros items Hall.
    destruct (loadCuesFrom_all items Hall 0%nat) as (cs & Hcs & Hlen & Hl).
    exists (sortByTime l_time cs). unfold loadCuesFromJSON. rewrite Hcs.
    split; [reflexivity |].
    split; [rewrite (Permutation_length (sortByTime_perm l_time cs));
            exact Hlen |].
    split; [apply sortByTime_ascending |].
    rewrite (sortByTime_perm l_time cs). exact Hl.
  - intros pre post v Hpre Hv. unfold loadCuesFromJSON.
    rewrite (loadCuesFrom_first_bad pre post v Hpre Hv 0%nat). reflexivity.
  - intros items cs H. unfold loadCuesFromJSON in H.
    destruct (loadCuesFrom sampleRate 0 items) as [err | cs'] eqn:E;
      [discriminate |]. exact (loadCuesFrom_inr items _ _ E).
  - reflexivity.
  - intros v Hv. destruct v; try reflexivity. exfalso.
    exact (Hv items eq_refl).
Qed.

End ImportCues.

Lemma import_is_all_or_nothing_witness :
  CuePointEditor.loadCuesFromJSON 48000
    (Some (Json.JArr
             ([CuePointEditor.cueToJson Scenario.intro]
              ++ Json.JNull :: [CuePointEditor.cueToJson Scenario.outro])))
  = CuePointEditor.LoadFailed (CuePointEditor.TypeError 1).
Proof.
  apply (proj1 (proj2 (import_is_all_or_nothing 48000))
           [CuePointEditor.cueToJson Scenario.intro]
           [CuePointEditor.cueToJson Scenario.outro] Json.JNull).
  - repeat constructor.
  - reflexivity.
Defined.

Section SamplePosition.

Import CuePointEditor.
Local Open Scope Q_scope.

Lemma round_bounds (x : Q) :
  x - (1 # 2) < inject_Z (JS.round x) /\ inject_Z (JS.round x) <= x + (1 # 2).
Proof.
  unfold JS.round. pose proof (Qfloor_le (x + (1 # 2))) as Hle.
  pose proof (Qlt_floor (x + (1 # 2))) as Hlt.
  rewrite inject_Z_plus in Hlt. change (inject_Z 1) with 1 in Hlt.
  split; lra.
Qed.

Lemma round_integer (x : Q) (n : Z) : x == inject_Z n -> JS.round x = n.
Proof.
  intros H. destruct (round_bounds x) as [Hlo Hhi].
  assert (H1 : (JS.round x < n + 1)%Z).
  { rewrite Zlt_Qlt, inject_Z_plus. change (inject_Z 1) with 1. lra. }
  assert (H2 : (n < JS.round x + 1)%Z).
  { rewrite Zlt_Qlt, inject_Z_plus. change (inject_Z 1) with 1. lra. }
  lia.
Qed.

(** X15. The sample position of a time is the integer nearest to time
    times sample rate, never more than half a sample away from it and
    equal to it when it is an integer; for a sample rate that is not
    negative it does not decrease with the time and is not negative for a
    time that is not negative. *)
Theorem sample_position_is_nearest_sample :
  forall (sampleRate : Z) (t : Q),
    (t * inject_Z sampleRate - (1 # 2)
     < inject_Z (calculateSamplePosition sampleRate t)
     /\ inject_Z (calculateSamplePosition sampleRate t)
        <= t * inject_Z sampleRate + (1 # 2))
    /\ (forall n : Z,
          t * inject_Z sampleRate == inject_Z n ->
          calculateSamplePosition sampleRate t = n)
    /\ ((0 <= sampleRate)%Z ->
        (forall t' : Q,
            t <= t' ->
            (calculateSamplePosition sampleRate t
             <= calculateSamplePosition sampleRate t')%Z)
        /\ (0 <= t -> (0 <= calculateSamplePosition sampleRate t)%Z)).
Proof.
  intros sampleRate t. unfold calculateSamplePosition.
  split; [apply round_bounds |]. split; [intros n; apply round_integer |].
  intros Hrate.
  assert (Hr : 0 <= inject_Z sampleRate).
  { change 0 with (inject_Z 0). rewrite <- Zle_Qle. exact Hrate. }
  assert (Hmono : forall a b, a <= b ->
            (JS.round (a * inject_Z sampleRate)
             <= JS.round (b * inject_Z sampleRate))%Z).
  { intros a b Hab. unfold JS.round. apply Qfloor_resp_le.
    assert (a * inject_Z sampleRate <= b * inject_Z sampleRate)
      by (apply Qmult_le_compat_r; assumption).
    lra. }
  split; [intros t'; apply Hmono |].
  intros Ht. specialize (Hmono 0 t Ht).
  assert (H0 : JS.round (0 * inject_Z sampleRate) = 0%Z).
  { apply round_integer. ring. }
  rewrite H0 in Hmono. exact Hmono.
Qed.

Lemma sample_position_is_nearest_sample_witness :
  calculateSamplePosition 48000 (5 # 2) = 120000%Z
  /\ (calculateSamplePosition 48000 1 <= calculateSamplePosition 48000 2)%Z.
Proof.
  destruct (sample_position_is_nearest_sample 48000 (5 # 2))
    as (_ & Hint & _).
  destruct (sample_position_is_nearest_sample 48000 1) as (_ & _ & Hmono).
  split.
  - apply Hint. reflexivity.
  - apply Hmono; [lia | vm_compute; discriminate].
Defined.

End SamplePosition.

Section ValidationReport.

Import CuePointEditor.
Local Open Scope Q_scope.

Lemma findDuplicateFrom_Some (l : list cue) (k : string) (index : nat) :
  forall i d : nat,
    findDuplicateFrom l k index i = Some d
    <-> exists (j : nat) (other : cue),
          d = (i + j)%nat /\ l !! j = Some other /\ d <> index
          /\ key other = k
          /\ (forall (j' : nat) (o : cue),
                (j' < j)%nat -> l !! j' = Some o ->
                (i + j')%nat <> index -> key o <> k).
Proof.
  induction l as [| c l IH]; intros i d; cbn [findDuplicateFrom].
  - split; [discriminate | intros (j & other & _ & H & _); discriminate].
  - destruct (negb (i =? index)%nat && String.eqb (key c) k) eqn:E.
    + apply andb_true_iff in E as [Hi Hk].
      apply negb_true_iff, Nat.eqb_neq in Hi. apply String.eqb_eq in Hk.
      split.
      * intros [= <-]. exists 0%nat, c. rewrite Nat.add_0_r.
        repeat split; try assumption. intros j' o Hj'. lia.
      * intros (j & other & -> & Hj & Hne & Hko & Hfirst).
        destruct j as [| j]; [rewrite Nat.add_0_r; reflexivity |].
        exfalso. apply (Hfirst 0%nat c); [lia | reflexivity | | exact Hk].
        rewrite Nat.add_0_r. exact Hi.
    + rewrite IH. split.
      * intros (j & other & -> & Hj & Hne & Hko & Hfirst).
        exists (S j), other. split; [lia |]. split; [exact Hj |].
        split; [lia |]. split; [exact Hko |].
        intros [| j'] o Hlt Ho Hni.
        -- injection Ho as <-. apply andb_false_iff in E as [Hi | Hk].
           ++ apply negb_false_iff, Nat.eqb_eq in Hi. lia.
           ++ apply String.eqb_neq. exact Hk.
        -- apply (Hfirst j' o); [lia | exact Ho | lia].
      * intros (j & other & -> & Hj & Hne & Hko & Hfirst).
        destruct j as [| j].
        -- injection Hj as <-. apply andb_false_iff in E as [Hi | Hk].
           ++ apply negb_false_iff, Nat.eqb_eq in Hi. lia.
           ++ apply String.eqb_neq in Hk. contradiction.
        -- exists j, other. split; [lia |]. split; [exact Hj |].
           split; [lia |]. split; [exact Hko |].
           intros j' o Hlt Ho Hni. apply (Hfirst (S j') o); [lia | exact Ho |].
           lia.
Qed.

(** X16. What [validateCue] reports: a negative time as such and, only
    for a time that is not negative, a time beyond the duration; a label
    that is empty or all white space; and for a cue with a key, the index
    of the first other cue that carries the same key. *)
Theorem validateCue_reports :
  forall (audioDuration : Q) (cues : list cue) (c : cue) (index : nat),
    let errs := validateCue audioDuration cues c index in
    (err_time errs = Some TimeNegative <-> time c < 0)
    /\ (err_time errs = Some TimeExceedsDuration
        <-> 0 <= time c /\ audioDuration < time c)
    /\ (err_label errs = true <-> Str.is_blank (label c) = true)
    /\ (forall d : nat,
          err_key errs = Some d
          <-> key c <> ""%string /\ d <> index
              /\ exists other,
                   cues !! d = Some other /\ key other = key c
                   /\ (forall (j : nat) (o : cue),
                         (j < d)%nat -> cues !! j = Some o -> j <> index ->
                         key o <> key c)).
Proof.
  intros audioDuration cues c index errs. subst errs. unfold validateCue.
  cbn [err_time err_label err_key].
  split; [| split; [| split]].
  - destruct (JS.Qltb (time c) 0) eqn:E.
    + apply Qltb_lt in E. tauto.
    + apply Qltb_ge in E.
      destruct (JS.Qltb audioDuration (time c));
        (split; [discriminate | intros H; lra]).
  - destruct (JS.Qltb (time c) 0) eqn:E.
    + apply Qltb_lt in E. split; [discriminate | intros [H _]; lra].
    + apply Qltb_ge in E.
      destruct (JS.Qltb audioDuration (time c)) eqn:E2.
      * apply Qltb_lt in E2. tauto.
      * apply Qltb_ge in E2. split; [discriminate | intros [_ H]; lra].
  - destruct (label c); cbn; tauto.
  - intros d. destruct (Str.truthy (key c)) eqn:Ht.
    + apply truthy_nonempty in Ht. rewrite findDuplicateFrom_Some. split.
      * intros (j & other & -> & Hj & Hne & Hk & Hfirst). cbn in *.
        split; [exact Ht |]. split; [exact Hne |]. exists other.
        split; [exact Hj |]. split; [exact Hk |].
        intros j' o Hlt Ho Hni. exact (Hfirst j' o Hlt Ho Hni).
      * intros (_ & Hne & other & Hd & Hk & Hfirst).
        exists d, other. cbn. repeat split; assumption.
    + split; [discriminate |]. intros (Hne & _).
      apply truthy_nonempty in Hne. congruence.
Qed.

End ValidationReport.

Section KeyMapContents.

Import CuePointEditor CueKeyboardMap.

(** What [firstWithKey] finds is the first cue carrying the key. *)
Lemma firstWithKey_Some (k : string) (cues : list cue) :
  forall (index i : nat) (c : cue),
    firstWithKey k index cues = Some (c, i) ->
    exists i0 : nat,
      i = (index + i0)%nat /\ cues !! i0 = Some c
      /\ key c <> ""%string /\ Str.toLowerCase (key c) = k
      /\ (forall (j : nat) (c' : cue),
            (j < i0)%nat -> cues !! j = Some c' -> key c' <> ""%string ->
            Str.toLowerCase (key c') <> k).
Proof.
  induction cues as [| c0 rest IH]; intros index i c Hf; [discriminate |].
  cbn [firstWithKey] in Hf.
  destruct (Str.truthy (key c0) && String.eqb (Str.toLowerCase (key c0)) k)
    eqn:E.
  - injection Hf as <- <-. apply andb_true_iff in E as [Ht He].
    exists 0%nat. split; [lia |]. split; [reflexivity |].
    split; [apply truthy_nonempty; exact Ht |].
    split; [apply String.eqb_eq; exact He |]. intros j c' Hj. lia.
  - destruct (IH _ _ _ Hf) as (i0 & -> & Hl & Hne & Hk & Hfirst).
    exists (S i0). split; [lia |]. split; [exact Hl |].
    split; [exact Hne |]. split; [exact Hk |].
    intros [| j] c' Hj Hc' Hne' Hk'.
    + injection Hc' as ->. apply truthy_nonempty in Hne'.
      apply String.eqb_eq in Hk'. rewrite Hne', Hk' in E. discriminate.
    + apply (Hfirst j c'); [lia | exact Hc' | exact Hne' | exact Hk'].
Qed.

Lemma firstWithKey_None (k : string) (cues : list cue) :
  forall index : nat,
    firstWithKey k index cues = None
    <-> (forall (j : nat) (c' : cue),
           cues !! j = Some c' -> key c' <> ""%string ->
           Str.toLowerCase (key c') <> k).
Proof.
  intros index. split.
  - intros Hn j c' Hj Hne Hk.
    destruct (firstWithKey_before k cues index j c' Hj Hne Hk)
      as (c0 & i0 & Hf & _). congruence.
  - intros Hall. destruct (firstWithKey k index cues) as [[c i] |] eqn:Hf;
      [| reflexivity].
    destruct (firstWithKey_Some _ _ _ _ _ Hf) as (i0 & _ & Hl & Hne & Hk & _).
    destruct (Hall i0 c Hl Hne Hk).
Qed.

Lemma buildKeyMapFrom_size (cues : list cue) :
  forall (acc : gmap string entry * list string) (index : nat),
    (size (fst (buildKeyMapFrom acc index cues))
     <= size (fst acc) + length cues)%nat.
Proof.
  induction cues as [| c rest IH]; intros [m d] index;
    cbn [buildKeyMapFrom fst length]; [lia |].
  etransitivity; [apply IH |]. unfold addCueKey.
  destruct (Str.truthy (key c)); cbn [fst]; [| lia].
  destruct (m !! Str.toLowerCase (key c)) eqn:Hm; cbn [fst]; [lia |].
  rewrite map_size_insert_None by exact Hm. lia.
Qed.

Lemma buildKeyMapFrom_dup_NoDup (cues : list cue) :
  forall (acc : gmap string entry * list string) (index : nat),
    NoDup (snd acc) -> NoDup (snd (buildKeyMapFrom acc index cues)).
Proof.
  induction cues as [| c rest IH]; intros [m d] index Hnd;
    cbn [buildKeyMapFrom]; [exact Hnd |].
  apply IH. unfold addCueKey.
  destruct (Str.truthy (key c)); [| exact Hnd].
  destruct (m !! Str.toLowerCase (key c)); cbn [snd]; [| exact Hnd].
  case_bool_decide as Hin; [exact Hnd |].
  apply NoDup_app. split; [exact Hnd |]. split; [| apply NoDup_singleton].
  intros x Hx Hx'. apply list_elem_of_singleton in Hx'. subst x.
  exact (Hin Hx).
Qed.

(** A key is reported as duplicate only for a cue that comes after another
    carrier of the key. *)
Lemma buildKeyMapFrom_reported (cues : list cue) (k : string) :
  forall (acc : gmap string entry * list string) (index : nat),
    k ∈ snd (buildKeyMapFrom acc index cues) ->
    k ∈ snd acc
    \/ exists (j : nat) (c : cue),
         cues !! j = Some c /\ key c <> ""%string
         /\ Str.toLowerCase (key c) = k
         /\ (is_Some (fst acc !! k)
             \/ exists (i : nat) (c1 : cue),
                  (i < j)%nat /\ cues !! i = Some c1
                  /\ key c1 <> ""%string /\ Str.toLowerCase (key c1) = k).
Proof.
  induction cues as [| c rest IH]; intros [m d] index Hk;
    cbn [buildKeyMapFrom] in Hk; [left; exact Hk |].
  apply IH in Hk. unfold addCueKey in Hk.
  destruct (Str.truthy (key c)) eqn:Ht.
  - apply truthy_nonempty in Ht.
    destruct (m !! Str.toLowerCase (key c)) as [e |] eqn:Hm;
      cbn [fst snd] in Hk.
    + destruct Hk as [Hk | (j & cj & Hj & Hne & Hkj & Hbefore)].
      * case_bool_decide as Hin; [left; exact Hk |].
        apply elem_of_app in Hk as [Hk | Hk]; [left; exact Hk |].
        apply list_elem_of_singleton in Hk. subst k. right.
        exists 0%nat, c. split; [reflexivity |]. split; [exact Ht |].
        split; [reflexivity |]. left. cbn [fst]. rewrite Hm. eexists.
        reflexivity.
      * right. exists (S j), cj. split; [exact Hj |]. split; [exact Hne |].
        split; [exact Hkj |].
        destruct Hbefore as [Hs | (i & c1 & Hi & Hc1 & Hn1 & Hk1)].
        -- left. exact Hs.
        -- right. exists (S i), c1. split; [lia |]. split; [exact Hc1 |].
           split; assumption.
    + destruct Hk as [Hk | (j & cj & Hj & Hne & Hkj & Hbefore)];
        [left; exact Hk |].
      right. exists (S j), cj. split; [exact Hj |]. split; [exact Hne |].
      split; [exact Hkj |].
      destruct Hbefore as [Hs | (i & c1 & Hi & Hc1 & Hn1 & Hk1)].
      * destruct (decide (Str.toLowerCase (key c) = k)) as [He | Hne'].
        -- right. exists 0%nat, c. split; [lia |]. split; [reflexivity |].
           split; assumption.
        -- left. cbn [fst]. rewrite lookup_insert_ne in Hs by exact Hne'.
           exact Hs.
      * right. exists (S i), c1. split; [lia |]. split; [exact Hc1 |].
        split; assumption.
  - destruct Hk as [Hk | (j & cj & Hj & Hne & Hkj & Hbefore)];
      [left; exact Hk |].
    right. exists (S j), cj. split; [exact Hj |]. split; [exact Hne |].
    split; [exact Hkj |].
    destruct Hbefore as [Hs | (i & c1 & Hi & Hc1 & Hn1 & Hk1)].
    + left. exact Hs.
    + right. exists (S i), c1. split; [lia |]. split; [exact Hc1 |].
      split; assumption.
Qed.

(** X17. The key map is sound and complete for the cue points: an entry
    under a key is the first cue, with its index, whose key in lower case
    is that key; a key has no entry exactly when no cue carries it; the
    map has at most as many entries as there are cues. [duplicateKeys]
    lists, each once, exactly the keys carried by two cues. *)
Theorem buildKeyMap_sound_and_complete :
  forall cues : list cue,
    let keyMap := fst (buildKeyMap cues) in
    let duplicateKeys := snd (buildKeyMap cues) in
    (forall (k : string) (c : cue) (i : nat),
        keyMap !! k = Some (c, i) ->
        cues !! i = Some c /\ key c <> ""%string
        /\ Str.toLowerCase (key c) = k
        /\ (forall (j : nat) (c' : cue),
              (j < i)%nat -> cues !! j = Some c' -> key c' <> ""%string ->
              Str.toLowerCase (key c') <> k))
    /\ (forall k : string,
          keyMap !! k = None
          <-> (forall (j : nat) (c' : cue),
                 cues !! j = Some c' -> key c' <> ""%string ->
                 Str.toLowerCase (key c') <> k))
    /\ (size keyMap <= length cues)%nat
    /\ NoDup duplicateKeys
    /\ (forall k : string,
          k ∈ duplicateKeys
          <-> exists (i j : nat) (ci cj : cue),
                (i < j)%nat /\ cues !! i = Some ci /\ cues !! j = Some cj
                /\ key ci <> ""%string /\ key cj <> ""%string
                /\ Str.toLowerCase (key ci) = k
                /\ Str.toLowerCase (key cj) = k).
Proof.
  intros cues keyMap duplicateKeys. subst keyMap duplicateKeys.
  split; [| split; [| split; [| split]]].
  - intros k c i Hk. rewrite buildKeyMap_lookup in Hk.
    destruct (firstWithKey_Some _ _ _ _ _ Hk)
      as (i0 & -> & Hl & Hne & Hk0 & Hfirst).
    repeat split; assumption.
  - intros k. rewrite buildKeyMap_lookup. apply firstWithKey_None.
  - pose proof (buildKeyMapFrom_size cues (∅, []) 0) as H.
    cbn [fst] in H. rewrite map_size_empty in H. exact H.
  - apply buildKeyMapFrom_dup_NoDup. apply NoDup_nil_2.
  - intros k. split.
    + intros Hk. apply buildKeyMapFrom_reported in Hk.
      destruct Hk as [Hk | (j & cj & Hj & Hne & Hkj & Hbefore)].
      * cbn [snd] in Hk. apply elem_of_nil in Hk. destruct Hk.
      * destruct Hbefore as [Hs | (i & c1 & Hi & Hc1 & Hn1 & Hk1)].
        -- cbn [fst] in Hs. rewrite lookup_empty in Hs.
           destruct Hs as [? Hs]. discriminate.
        -- exists i, j, c1, cj. repeat split; assumption.
    + intros (i & j & ci & cj & Hij & Hi & Hj & Hni & Hnj & Hki & Hkj).
      rewrite <- Hkj.
      apply (buildKeyMapFrom_reports cues (∅, []) 0 j cj Hj Hnj).
      right. exists i, ci. split; [exact Hij |]. split; [exact Hi |].
      split; [exact Hni |]. congruence.
Qed.

End KeyMapContents.

Section KeyRuns.

Import CuePointEditor CueKeyboardMap CueKeyboardRuns.
Local Open Scope Z_scope.

Variable enabled : bool.
Variable debounceMs : Z.
Variable excludeTargets : list string.

(** A step that calls [onTriggerCue]: a key event passed the filter, found
    its cue and was not debounced. *)
Lemma step_triggered (o : op) (r r1 : refs) (x : trigger) :
  step enabled debounceMs excludeTargets o r = (Some x, r1) ->
  debounced debounceMs (lastTriggerRef r !! tr_key x) (tr_now x) = false
  /\ keyMapRef r !! tr_key x = Some (tr_cue x)
  /\ lastTriggerRef r1 = <[tr_key x := tr_now x]> (lastTriggerRef r)
  /\ keyMapRef r1 = keyMapRef r
  /\ statsRef r1 = countTrigger (statsRef r) (tr_key x) (tr_now x).
Proof.
  destruct o as [event now | | cues]; cbn [step]; [| discriminate ..].
  unfold handleKeyPress.
  destruct (shouldIgnoreEvent enabled excludeTargets event); [discriminate |].
  destruct (keyMapRef r !! Str.toLowerCase (ev_key event)) as [cue |] eqn:Hm;
    [| discriminate].
  destruct (debounced debounceMs
              (lastTriggerRef r !! Str.toLowerCase (ev_key event)) now)
    eqn:Hd; [discriminate |].
  intros [= <- <-]. cbn. repeat split; assumption.
Qed.

(** A step that makes no call leaves the statistics alone, and the
    debounce times too unless it is [clearDebounce]. *)
Lemma step_silent (o : op) (r r1 : refs) :
  step enabled debounceMs excludeTargets o r = (None, r1) ->
  statsRef r1 = statsRef r
  /\ (keeps_debounce o = true -> lastTriggerRef r1 = lastTriggerRef r).
Proof.
  destruct o as [event now | | cues]; cbn [step keeps_debounce].
  - unfold handleKeyPress.
    destruct (shouldIgnoreEvent enabled excludeTargets event);
      [intros [= <-]; split; reflexivity |].
    destruct (keyMapRef r !! Str.toLowerCase (ev_key event)) as [cue |];
      [| intros [= <-]; split; reflexivity].
    destruct (debounced debounceMs
                (lastTriggerRef r !! Str.toLowerCase (ev_key event)) now);
      [intros [= <-]; split; reflexivity | discriminate].
  - intros [= <-]. split; [reflexivity | discriminate].
  - intros [= <-]. unfold install. destruct enabled; split; reflexivity.
Qed.

Lemma run_cons (o : op) (ops : list op) (r : refs) :
  run enabled debounceMs excludeTargets (o :: ops) r
  = (match fst (step enabled debounceMs excludeTargets o r) with
     | Some x =>
         x :: fst (run enabled debounceMs excludeTargets ops
                     (snd (step enabled debounceMs excludeTargets o r)))
     | None =>
         fst (run enabled debounceMs excludeTargets ops
                (snd (step enabled debounceMs excludeTargets o r)))
     end,
     snd (run enabled debounceMs excludeTargets ops
            (snd (step enabled debounceMs excludeTargets o r)))).
Proof.
  cbn [run]. destruct (step enabled debounceMs excludeTargets o r) as [t r1].
  cbn [fst snd].
  destruct (run enabled debounceMs excludeTargets ops r1) as [log r2].
  reflexivity.
Qed.

Lemma countSum_insert (m : gmap string nat) (k : string) :
  countSum (<[k := S (default 0%nat (m !! k))]> m) = S (countSum m).
Proof.
  unfold countSum.
  destruct (m !! k) as [n |] eqn:Hk; cbn [default]; unfold id.
  - rewrite <- insert_delete_eq.
    rewrite (map_fold_insert_L _ _ k);
      [| intros; cbv beta; lia | apply lookup_delete_eq].
    rewrite (map_fold_delete_L _ _ k n m);
      [cbv beta; lia | intros; cbv beta; lia | exact Hk].
  - rewrite (map_fold_insert_L _ _ k);
      [cbv beta; lia | intros; cbv beta; lia | exact Hk].
Qed.

Lemma last_cons_cons {A : Type} (x : A) (l : list A) :
  last (x :: l) = match last l with Some y => Some y | None => Some x end.
Proof. destruct l as [| y l]; [reflexivity |]. cbn [last]. 
  destruct (last (y :: l)) eqn:E; [reflexivity |].
  apply last_None in E. discriminate.
Qed.

(** X18. The statistics count the calls of [onTriggerCue]. Over every run
    of key events, calls of [clearDebounce] and changes of the cue points,
    [totalTriggers] grows by the number of calls made, the count of each
    key by the number of calls made for that key, and [lastTriggerTime]
    is the time of the last call; nothing resets them. A total that is
    the sum of the counts per key, as on a mounted hook, stays so. *)
Theorem trigger_statistics_count_calls :
  forall (ops : list op) (r : refs),
    let log := fst (run enabled debounceMs excludeTargets ops r) in
    let r' := snd (run enabled debounceMs excludeTargets ops r) in
    totalTriggers (statsRef r')
    = (totalTriggers (statsRef r) + length log)%nat
    /\ (forall k : string,
          default 0%nat (triggersByKey (statsRef r') !! k)
          = (default 0%nat (triggersByKey (statsRef r) !! k)
             + length (triggersOf k log))%nat)
    /\ lastTriggerTime (statsRef r')
       = match last log with
         | Some x => Some (tr_now x)
         | None => lastTriggerTime (statsRef r)
         end
    /\ (totalTriggers (statsRef r) = countSum (triggersByKey (statsRef r)) ->
        totalTriggers (statsRef r') = countSum (triggersByKey (statsRef r')))
    /\ totalTriggers (statsRef mount)
       = countSum (triggersByKey (statsRef mount))
    /\ (forall now : Z,
          rp_totalTriggers (getStats now r')
          = (totalTriggers (statsRef r) + length log)%nat
          /\ lastTriggerAge (getStats now r')
             = match last log with
               | Some x =>
                   if tr_now x =? 0 then None else Some (now - tr_now x)
               | None => lastTriggerAge (getStats now r)
               end).
Proof.
  intros ops r log r'.
  cut (totalTriggers (statsRef r')
       = (totalTriggers (statsRef r) + length log)%nat
       /\ (forall k : string,
             default 0%nat (triggersByKey (statsRef r') !! k)
             = (default 0%nat (triggersByKey (statsRef r) !! k)
                + length (triggersOf k log))%nat)
       /\ lastTriggerTime (statsRef r')
          = match last log with
            | Some x => Some (tr_now x)
            | None => lastTriggerTime (statsRef r)
            end
       /\ (totalTriggers (statsRef r)
           = countSum (triggersByKey (statsRef r)) ->
           totalTriggers (statsRef r')
           = countSum (triggersByKey (statsRef r')))
       /\ totalTriggers (statsRef mount)
          = countSum (triggersByKey (statsRef mount))).
  { intros (Htot & Hkey & Hlast & Hsum & Hm).
    do 5 (split; [assumption |]). intros now.
    unfold getStats. cbn [rp_totalTriggers lastTriggerAge].
    split; [exact Htot |]. rewrite Hlast. destruct (last log); reflexivity. }
  subst log r'. revert r.
  induction ops as [| o ops IH]; intros r.
  - cbn [run fst snd length last]. split; [lia |].
    split; [intros k; unfold triggersOf; rewrite filter_nil; cbn; lia |].
    split; [reflexivity |]. split; [intros H; exact H | reflexivity].
  - rewrite run_cons. cbn [fst snd].
    destruct (step enabled debounceMs excludeTargets o r) as [t r1] eqn:Hs.
    cbn [fst snd]. specialize (IH r1). cbn zeta in IH.
    destruct IH as (Htot & Hkey & Hlast & Hsum & Hm).
    destruct t as [x |].
    + destruct (step_triggered _ _ _ _ Hs) as (_ & _ & _ & _ & Hst).
      rewrite Hst in Htot, Hkey, Hlast, Hsum.
      cbn [countTrigger totalTriggers triggersByKey lastTriggerTime]
        in Htot, Hkey, Hlast, Hsum.
      split; [rewrite Htot; cbn [length]; lia |].
      split.
      { intros k. rewrite Hkey. unfold triggersOf. rewrite filter_cons.
        destruct (decide (tr_key x = k)) as [<- | Hne].
        - rewrite lookup_insert_eq. cbn [default length]. unfold id. lia.
        - rewrite lookup_insert_ne by exact Hne. lia. }
      split.
      { rewrite Hlast, last_cons_cons.
        destruct (last (fst (run enabled debounceMs excludeTargets ops r1)));
          reflexivity. }
      split; [| exact Hm].
      intros H0. apply Hsum. rewrite countSum_insert. lia.
    + destruct (step_silent _ _ _ Hs) as (Hst & _).
      rewrite Hst in Htot, Hkey, Hlast, Hsum.
      repeat split; assumption.
Qed.

(** The first call made for a key in a run without [clearDebounce] is
    not debounced against the time stored for the key. *)
Lemma run_first_trigger (ops : list op) :
  forall (r : refs) (l2 l3 : list trigger) (t2 : trigger) (t0 : Z),
    forallb keeps_debounce ops = true ->
    fst (run enabled debounceMs excludeTargets ops r) = l2 ++ t2 :: l3 ->
    triggersOf (tr_key t2) l2 = [] ->
    lastTriggerRef r !! tr_key t2 = Some t0 -> t0 <> 0 ->
    debounceMs <= tr_now t2 - t0.
Proof.
  induction ops as [| o ops IH]; intros r l2 l3 t2 t0 Hops Hlog Hl2 Hlast Ht0.
  - cbn [run fst] in Hlog. destruct l2; discriminate.
  - cbn [forallb] in Hops. apply andb_true_iff in Hops as [Ho Hops].
    rewrite run_cons in Hlog. cbn [fst] in Hlog.
    destruct (step enabled debounceMs excludeTargets o r) as [t r1] eqn:Hs.
    cbn [fst snd] in Hlog. destruct t as [x |].
    + destruct (step_triggered _ _ _ _ Hs) as (Hd & _ & Hl & _).
      destruct l2 as [| y l2]; cbn [app] in Hlog;
        injection Hlog as Hx Hlog.
      * subst x. rewrite Hlast in Hd. unfold debounced in Hd.
        apply andb_false_iff in Hd as [Hd | Hd].
        -- apply negb_false_iff, Z.eqb_eq in Hd. contradiction.
        -- apply Z.ltb_ge in Hd. exact Hd.
      * subst y. unfold triggersOf in Hl2. rewrite filter_cons in Hl2.
        destruct (decide (tr_key x = tr_key t2)) as [He | Hne];
          [discriminate |].
        apply (IH r1 l2 l3 t2 t0 Hops Hlog Hl2); [| exact Ht0].
        rewrite Hl, lookup_insert_ne by exact Hne. exact Hlast.
    + destruct (step_silent _ _ _ Hs) as (_ & Hl).
      apply (IH r1 l2 l3 t2 t0 Hops Hlog Hl2); [| exact Ht0].
      rewrite (Hl Ho). exact Hlast.
Qed.

(** X19. Debouncing is per key and holds over whole runs: as long as
    [clearDebounce] is not called, two successive calls of [onTriggerCue]
    for the same key are at least [debounceMs] apart, whatever other keys
    were pressed and however the cue points changed in between. (A call
    made at [Date.now() = 0] debounces nothing: a stored 0 is falsy.) *)
Theorem key_triggers_spaced_by_debounce :
  forall (ops : list op) (r r' : refs) (log l1 l2 l3 : list trigger)
         (t1 t2 : trigger),
    forallb keeps_debounce ops = true ->
    run enabled debounceMs excludeTargets ops r = (log, r') ->
    log = l1 ++ t1 :: l2 ++ t2 :: l3 ->
    tr_key t1 = tr_key t2 ->
    triggersOf (tr_key t2) l2 = [] ->
    tr_now t1 <> 0 ->
    debounceMs <= tr_now t2 - tr_now t1.
Proof.
  intros ops. induction ops as [| o ops IH];
    intros r r' log l1 l2 l3 t1 t2 Hops Hrun -> Hk Hl2 Ht1.
  - cbn [run] in Hrun. injection Hrun as Hlog _. destruct l1; discriminate.
  - cbn [forallb] in Hops. apply andb_true_iff in Hops as [Ho Hops].
    rewrite run_cons in Hrun.
    destruct (step enabled debounceMs excludeTargets o r) as [t r1] eqn:Hs.
    cbn [fst snd] in Hrun. injection Hrun as Hlog Hr'.
    assert (Hrest : run enabled debounceMs excludeTargets ops r1
                    = (fst (run enabled debounceMs excludeTargets ops r1),
                       r')).
    { rewrite <- Hr'. apply surjective_pairing. }
    destruct t as [x |].
    + destruct l1 as [| y l1]; cbn [app] in Hlog; injection Hlog as Hx Hlog.
      * subst x. destruct (step_triggered _ _ _ _ Hs) as (_ & _ & Hl & _).
        apply (run_first_trigger ops r1 l2 l3 t2 (tr_now t1) Hops Hlog Hl2);
          [| exact Ht1].
        rewrite Hl, Hk, lookup_insert_eq. reflexivity.
      * apply (IH r1 r' _ l1 l2 l3 t1 t2 Hops Hrest); assumption.
    + apply (IH r1 r' _ l1 l2 l3 t1 t2 Hops Hrest); assumption.
Qed.

Lemma lower_ascii_idem (c : ascii) :
  Str.lower_ascii (Str.lower_ascii c) = Str.lower_ascii c.
Proof. destruct c as [[] [] [] [] [] [] [] []]; reflexivity. Qed.

Lemma toLowerCase_idem (s : string) :
  Str.toLowerCase (Str.toLowerCase s) = Str.toLowerCase s.
Proof.
  induction s as [| c s IH]; [reflexivity |].
  cbn [Str.toLowerCase]. rewrite lower_ascii_idem, IH. reflexivity.
Qed.

(** X20. The programmatic trigger reaches the cue a key press reaches,
    without the filter and the debounce: [triggerByKey] succeeds exactly
    when the callback is there and [isKeyMapped] holds, in whatever
    letter case the key is given; it hands over the entry of the key map,
    which is what a key press that triggers hands over; and it may hand
    it over while a key press is debounced. After [clearDebounce] a key
    press that passes the filter and finds a cue always triggers. *)
Theorem triggerByKey_agrees_with_key_press :
  forall (onTriggerCue : bool) (k : string) (r : refs),
    fst (triggerByKey onTriggerCue k r) = onTriggerCue && isKeyMapped k r
    /\ triggerByKey onTriggerCue (Str.toLowerCase k) r
       = triggerByKey onTriggerCue k r
    /\ (forall cue : entry,
          keyMapRef r !! Str.toLowerCase k = Some cue ->
          triggerByKey true k r = (true, Some (time (fst cue), cue)))
    /\ (forall (event : keyEvent) (now : Z) (t : Q) (cue : entry)
               (handled : bool) (r' : refs),
          handleKeyPress enabled debounceMs excludeTargets event now r
          = (Triggered t cue, handled, r') ->
          triggerByKey true (ev_key event) r = (true, Some (t, cue))
          /\ triggerByKey true (ev_key event) r' = (true, Some (t, cue)))
    /\ (forall (event : keyEvent) (now : Z),
          shouldIgnoreEvent enabled excludeTargets event = false ->
          isKeyMapped (ev_key event) r = true ->
          exists (cue : entry) (r' : refs),
            handleKeyPress enabled debounceMs excludeTargets event now
              (clearDebounce r)
            = (Triggered (time (fst cue)) cue, true, r')
            /\ keyMapRef r !! Str.toLowerCase (ev_key event) = Some cue).
Proof.
  intros onTriggerCue k r. unfold triggerByKey, isKeyMapped.
  split; [| split; [| split; [| split]]].
  - destruct (keyMapRef r !! Str.toLowerCase k) as [cue |] eqn:Hm.
    + rewrite bool_decide_true by (eexists; reflexivity).
      destruct onTriggerCue; reflexivity.
    + rewrite bool_decide_false by (intros [? ?]; discriminate).
      destruct onTriggerCue; reflexivity.
  - rewrite toLowerCase_idem. reflexivity.
  - intros cue ->. reflexivity.
  - intros event now t cue handled r'. unfold handleKeyPress.
    destruct (shouldIgnoreEvent enabled excludeTargets event);
      [discriminate |].
    destruct (keyMapRef r !! Str.toLowerCase (ev_key event)) as [c |] eqn:Hm;
      [| discriminate].
    destruct (debounced debounceMs
                (lastTriggerRef r !! Str.toLowerCase (ev_key event)) now);
      [discriminate |].
    intros [= <- <- _ <-]. cbn [keyMapRef]. rewrite Hm. split; reflexivity.
  - intros event now Hi Hm. apply bool_decide_eq_true in Hm as [cue Hm].
    exists cue. eexists. split; [| exact Hm].
    unfold handleKeyPress, clearDebounce. cbn [keyMapRef lastTriggerRef].
    rewrite Hi, Hm, lookup_empty. cbn [debounced]. reflexivity.
Qed.

End KeyRuns.

Lemma trigger_statistics_count_calls_witness :
  CueKeyboardMap.totalTriggers
    (CueKeyboardMap.statsRef
       (snd (CueKeyboardRuns.run true 100
               CueKeyboardMap.excludeTargets_default
               [CueKeyboardRuns.KeyDown Scenario.pressA 1000;
                CueKeyboardRuns.KeyDown Scenario.pressA 1050;
                CueKeyboardRuns.KeyDown Scenario.pressShiftA 1200]
               Scenario.keyboard)))
  = 2%nat.
Proof.
  rewrite (proj1 (trigger_statistics_count_calls true 100
                    CueKeyboardMap.excludeTargets_default _
                    Scenario.keyboard)).
  vm_compute. reflexivity.
Defined.

Lemma key_triggers_spaced_by_debounce_witness :
  fst (CueKeyboardRuns.run true 100 CueKeyboardMap.excludeTargets_default
         [CueKeyboardRuns.KeyDown Scenario.pressA 1000;
          CueKeyboardRuns.KeyDown Scenario.pressA 1050;
          CueKeyboardRuns.KeyDown Scenario.pressShiftA 1200]
         Scenario.keyboard)
  = [CueKeyboardRuns.mkTrigger "a" 1000 (Scenario.intro, 0%nat);
     CueKeyboardRuns.mkTrigger "a" 1200 (Scenario.intro, 0%nat)]
  /\ (100 <= 1200 - 1000)%Z.
Proof.
  split; [vm_compute; reflexivity |].
  refine (key_triggers_spaced_by_debounce true 100
            CueKeyboardMap.excludeTargets_default
            [CueKeyboardRuns.KeyDown Scenario.pressA 1000;
             CueKeyboardRuns.KeyDown Scenario.pressA 1050;
             CueKeyboardRuns.KeyDown Scenario.pressShiftA 1200]
            Scenario.keyboard _ _ [] [] []
            (CueKeyboardRuns.mkTrigger "a" 1000 (Scenario.intro, 0%nat))
            (CueKeyboardRuns.mkTrigger "a" 1200 (Scenario.intro, 0%nat))
            _ _ _ _ _ _).
  - reflexivity.
  - vm_compute. reflexivity.
  - reflexivity.
  - reflexivity.
  - reflexivity.
  - discriminate.
Defined.

Section GridKeys.

Import CuePointEditor CuePointGrid.

Lemma toLowerCase_length (s : string) :
  String.length (Str.toLowerCase s) = String.length s.
Proof.
  induction s as [| c s IH]; [reflexivity |].
  cbn [Str.toLowerCase String.length]. rewrite IH. reflexivity.
Qed.

Lemma lower_pretty_N_char (x : N) :
  Str.lower_ascii (pretty_N_char x) = pretty_N_char x.
Proof. unfold pretty_N_char. repeat case_match; reflexivity. Qed.

(** The digits of a number have no letter case. *)
Lemma pretty_N_go_lower (x : N) :
  forall s : string,
    Str.toLowerCase s = s ->
    Str.toLowerCase (pretty_N_go x s) = pretty_N_go x s.
Proof.
  induction (N.lt_wf_0 x) as [x _ IH]. intros s Hs.
  assert (x = 0 \/ 0 < x)%N as [-> | Hx] by lia.
  - rewrite pretty_N_go_0. exact Hs.
  - rewrite pretty_N_go_step by exact Hx. apply IH.
    + apply N.div_lt; lia.
    + cbn [Str.toLowerCase]. rewrite lower_pretty_N_char, Hs. reflexivity.
Qed.

Lemma pretty_N_go_length (x : N) :
  forall s : string,
    (String.length s <= String.length (pretty_N_go x s))%nat.
Proof.
  induction (N.lt_wf_0 x) as [x _ IH]. intros s.
  assert (x = 0 \/ 0 < x)%N as [-> | Hx] by lia.
  - rewrite pretty_N_go_0. lia.
  - rewrite pretty_N_go_step by exact Hx.
    etransitivity; [| apply IH; apply N.div_lt; lia].
    cbn [String.length]. lia.
Qed.

Lemma lower_pretty_nat (n : nat) :
  Str.toLowerCase (pretty n) = pretty n.
Proof.
  unfold pretty, pretty_nat, pretty, pretty_N.
  case_decide; [reflexivity |]. apply pretty_N_go_lower. reflexivity.
Qed.

Lemma pretty_nat_length (n : nat) :
  (10 <= n)%nat -> (2 <= String.length (pretty n))%nat.
Proof.
  intros Hn. unfold pretty, pretty_nat, pretty, pretty_N.
  case_decide; [lia |].
  rewrite pretty_N_go_step by lia.
  rewrite pretty_N_go_step
    by (apply N.div_str_pos; lia).
  etransitivity; [| apply pretty_N_go_length]. cbn [String.length]. lia.
Qed.

(** The keys of the sixteen slots of the grid. *)
Lemma getKeyForSlot_grid :
  map getKeyForSlot (seq 0 16)
  = ["1"; "2"; "3"; "4"; "Q"; "W"; "E"; "R";
     "A"; "S"; "D"; "F"; "Z"; "X"; "C"; "V"]%string.
Proof. vm_compute. reflexivity. Qed.

Lemma getKeyForSlot_beyond (i : nat) :
  (16 <= i)%nat -> getKeyForSlot i = pretty (i + 1)%nat.
Proof.
  intros Hi. unfold getKeyForSlot.
  destruct (i <? 4)%nat eqn:E1; [apply Nat.ltb_lt in E1; lia |].
  destruct (i <? 8)%nat eqn:E2; [apply Nat.ltb_lt in E2; lia |].
  destruct (i <? 12)%nat eqn:E3; [apply Nat.ltb_lt in E3; lia |].
  rewrite (lookup_ge_None_2 _ (i - 12)%nat) by (cbn [length]; lia).
  reflexivity.
Qed.

Lemma getKeyForSlot_length (i : nat) :
  if (i <? 16)%nat then String.length (getKeyForSlot i) = 1%nat
  else (2 <= String.length (getKeyForSlot i))%nat.
Proof.
  destruct (i <? 16)%nat eqn:E.
  - apply Nat.ltb_lt in E.
    do 16 (destruct i as [| i]; [vm_compute; reflexivity |]). lia.
  - apply Nat.ltb_ge in E. rewrite getKeyForSlot_beyond by exact E.
    apply pretty_nat_length. lia.
Qed.

Lemma getKeyForSlot_lower_inj (i j : nat) :
  Str.toLowerCase (getKeyForSlot i) = Str.toLowerCase (getKeyForSlot j) ->
  i = j.
Proof.
  intros H.
  pose proof (getKeyForSlot_length i) as Li.
  pose proof (getKeyForSlot_length j) as Lj.
  pose proof (f_equal String.length H) as HL.
  rewrite !toLowerCase_length in HL.
  destruct (i <? 16)%nat eqn:Ei; destruct (j <? 16)%nat eqn:Ej;
    try lia.
  - apply Nat.ltb_lt in Ei, Ej. clear Li Lj HL.
    do 16 (destruct i as [| i];
           [do 16 (destruct j as [| j];
                   [vm_compute in H; first [reflexivity | discriminate H] |]);
            lia |]).
    lia.
  - apply Nat.ltb_ge in Ei, Ej.
    rewrite !getKeyForSlot_beyond, !lower_pretty_nat in H by assumption.
    apply (inj pretty) in H. lia.
Qed.

Lemma getKeyForSlot_truthy (i : nat) : Str.truthy (getKeyForSlot i) = true.
Proof.
  pose proof (getKeyForSlot_length i) as L.
  destruct (getKeyForSlot i); [| reflexivity].
  destruct (i <? 16)%nat; cbn [String.length] in L; lia.
Qed.

(** X21. The grid gives every slot a key of its own, also when letter
    case is ignored, as the keyboard map does: the sixteen slots of the
    4x4 grid have the one-character keys 1 2 3 4, Q W E R, A S D F,
    Z X C V; a slot beyond them has its number as key, of two characters
    or more; no slot has an empty key. *)
Theorem getKeyForSlot_distinct_keys :
  map getKeyForSlot (seq 0 16)
  = ["1"; "2"; "3"; "4"; "Q"; "W"; "E"; "R";
     "A"; "S"; "D"; "F"; "Z"; "X"; "C"; "V"]%string
  /\ forall i : nat,
       getKeyForSlot i <> ""%string
       /\ (String.length (getKeyForSlot i) = 1%nat <-> (i < 16)%nat)
       /\ ((16 <= i)%nat -> getKeyForSlot i = pretty (i + 1)%nat)
       /\ (forall j : nat,
             i <> j ->
             Str.toLowerCase (getKeyForSlot i)
             <> Str.toLowerCase (getKeyForSlot j)).
Proof.
  split; [exact getKeyForSlot_grid |]. intros i.
  split; [apply truthy_nonempty, getKeyForSlot_truthy |].
  split.
  { pose proof (getKeyForSlot_length i) as L.
    destruct (i <? 16)%nat eqn:E.
    - apply Nat.ltb_lt in E. tauto.
    - apply Nat.ltb_ge in E. split; lia. }
  split; [apply getKeyForSlot_beyond |].
  intros j Hij H. apply Hij. apply getKeyForSlot_lower_inj. exact H.
Qed.

End GridKeys.

Section GridRegistry.

Import CuePointEditor CueKeyboardMap CueRegistry CuePointGrid.
Import UnifiedVideoEditor.
Local Open Scope Q_scope.

Lemma find_empty_from (l : list cue) :
  forall n a : nat,
    (a <= length l)%nat ->
    find (fun slotIndex =>
            match l !! slotIndex with Some _ => false | None => true end)
         (seq a n)
    = if (length l <? a + n)%nat then Some (length l) else None.
Proof.
  induction n as [| n IH]; intros a Ha; cbn [seq find].
  - destruct (length l <? a + 0)%nat eqn:E; [| reflexivity].
    apply Nat.ltb_lt in E. lia.
  - destruct (l !! a) as [c |] eqn:Hl.
    + apply lookup_lt_Some in Hl. rewrite IH by lia.
      replace (S a + n)%nat with (a + S n)%nat by lia. reflexivity.
    + apply lookup_ge_None in Hl. assert (a = length l) as -> by lia.
      destruct (length l <? length l + S n)%nat eqn:E; [reflexivity |].
      apply Nat.ltb_ge in E. lia.
Qed.

(** The first empty slot is the one right behind the cues. *)
Lemma firstEmptySlot_length (maxSlots : nat) (l : list cue) :
  firstEmptySlot maxSlots l
  = if (length l <? maxSlots)%nat then Some (length l) else None.
Proof. unfold firstEmptySlot. rewrite find_empty_from by lia. reflexivity. Qed.

Lemma clickAddCue_cues (t : Q) (s : state) :
  cuePoints (clickAddCue t s)
  = if (length (cuePoints s) <? 16)%nat
    then sortByTime time
           (cuePoints s ++ [slotCue t (length (cuePoints s))])
    else cuePoints s.
Proof.
  unfold clickAddCue, handleAddCueAtCurrentTime, maxCueSlots.
  rewrite firstEmptySlot_length.
  destruct (length (cuePoints s) <? 16)%nat; reflexivity.
Qed.

(** Two cues of a registry whose keys agree up to letter case, at
    different rows: the key is reported as duplicate. *)
Lemma buildKeyMap_reports_pair (l : list cue) (i j : nat) (ci cj : cue) :
  i <> j -> l !! i = Some ci -> l !! j = Some cj ->
  key ci <> ""%string -> key cj <> ""%string ->
  Str.toLowerCase (key ci) = Str.toLowerCase (key cj) ->
  Str.toLowerCase (key ci) ∈ snd (buildKeyMap l).
Proof.
  intros Hij Hi Hj Hni Hnj Hk.
  destruct (Nat.lt_total i j) as [Hlt | [He | Hlt]]; [| contradiction |].
  - rewrite Hk.
    apply (buildKeyMapFrom_reports l (∅, []) 0 j cj Hj Hnj).
    right. exists i, ci. repeat split; assumption.
  - apply (buildKeyMapFrom_reports l (∅, []) 0 i ci Hi Hni).
    right. exists j, cj. repeat split; auto.
Qed.

(** A registry whose keys, in lower case, are all different reports no
    duplicate and maps every key to its own cue. *)
Lemma buildKeyMap_distinct (l : list cue) :
  NoDup (map (fun c => Str.toLowerCase (key c)) l) ->
  Forall (fun c => key c <> ""%string) l ->
  snd (buildKeyMap l) = []
  /\ forall (i : nat) (c : cue),
       l !! i = Some c ->
       fst (buildKeyMap l) !! Str.toLowerCase (key c) = Some (c, i).
Proof.
  intros Hnd Hne.
  assert (Hsame : forall (i j : nat) (ci cj : cue),
             l !! i = Some ci -> l !! j = Some cj ->
             Str.toLowerCase (key ci) = Str.toLowerCase (key cj) -> i = j).
  { intros i j ci cj Hi Hj Hk.
    apply (NoDup_lookup _ i j (Str.toLowerCase (key ci)) Hnd).
    - change (map ?f l) with (f <$> l). rewrite list_lookup_fmap, Hi.
      reflexivity.
    - change (map ?f l) with (f <$> l). rewrite list_lookup_fmap, Hj.
      cbn. rewrite Hk. reflexivity. }
  split.
  - destruct (snd (buildKeyMap l)) as [| k rest] eqn:E; [reflexivity |].
    assert (Hk : k ∈ snd (buildKeyMap l))
      by (rewrite E; apply elem_of_cons; left; reflexivity).
    apply buildKeyMapFrom_reported in Hk.
    destruct Hk as [Hk | (j & cj & Hj & _ & Hkj & Hbefore)].
    + cbn [snd] in Hk. apply elem_of_nil in Hk. destruct Hk.
    + destruct Hbefore as [Hs | (i & c1 & Hi & Hc1 & _ & Hk1)].
      * cbn [fst] in Hs. rewrite lookup_empty in Hs.
        destruct Hs as [? Hs]. discriminate.
      * assert (i = j) by (apply (Hsame i j c1 cj); congruence). lia.
  - intros i c Hi. rewrite buildKeyMap_lookup.
    assert (Hc : key c <> ""%string).
    { rewrite Forall_forall in Hne. apply Hne.
      apply list_elem_of_lookup. exists i. exact Hi. }
    destruct (firstWithKey_before (Str.toLowerCase (key c)) l 0 i c Hi Hc
                eq_refl) as (c0 & i0 & Hf & _ & Hl0 & _ & Hk0).
    assert (i0 = i) as -> by (apply (Hsame i0 i c0 c); assumption).
    rewrite Hf. cbn [Nat.add]. congruence.
Qed.

Lemma fold_clicks_snoc (times : list Q) (t : Q) (s : state) :
  clicksAddCue (times ++ [t]) s = clickAddCue t (clicksAddCue times s).
Proof. unfold clicksAddCue. rewrite fold_left_app. reflexivity. Qed.

(** What the clicks on "+ Add Cue" keep: the keys are those of the slots
    filled, the times those of the clicks that added a cue. *)
Lemma clicksAddCue_keys (times : list Q) :
  length (cuePoints (clicksAddCue times initial))
  = Nat.min (length times) 16
  /\ Permutation (map key (cuePoints (clicksAddCue times initial)))
       (map getKeyForSlot
          (seq 0 (length (cuePoints (clicksAddCue times initial)))))
  /\ Permutation (map time (cuePoints (clicksAddCue times initial)))
       (take 16 times).
Proof.
  induction times as [| t times IH] using rev_ind.
  - cbn. repeat split; constructor.
  - rewrite fold_clicks_snoc, clickAddCue_cues.
    destruct IH as (Hlen & Hkeys & Htimes).
    set (l := cuePoints (clicksAddCue times initial)) in *.
    rewrite length_app. cbn [length].
    destruct (length l <? 16)%nat eqn:E.
    + apply Nat.ltb_lt in E.
      pose proof (sortByTime_perm time (l ++ [slotCue t (length l)]))
        as Hp.
      rewrite (Permutation_length Hp), length_app. cbn [length].
      split; [lia |]. split.
      * rewrite (Permutation_map key Hp), map_app.
        replace (length l + 1)%nat with (S (length l)) by lia.
        rewrite seq_S, map_app. cbn [map Nat.add key slotCue].
        apply Permutation_app_tail. exact Hkeys.
      * rewrite (Permutation_map time Hp), map_app.
        cbn [map time slotCue].
        rewrite take_app_ge by lia. rewrite take_ge in Htimes by lia.
        replace (16 - length times)%nat with (S (15 - length times)) by lia.
        cbn [take]. rewrite take_nil.
        apply Permutation_app_tail. exact Htimes.
    + apply Nat.ltb_ge in E. split; [lia |]. split; [exact Hkeys |].
      rewrite take_app_le by lia. exact Htimes.
Qed.

Lemma clicksAddCue_ascending (times : list Q) :
  ascending time (cuePoints (clicksAddCue times initial)).
Proof.
  induction times as [| t times IH] using rev_ind; [constructor |].
  rewrite fold_clicks_snoc, clickAddCue_cues.
  destruct (length (cuePoints (clicksAddCue times initial)) <? 16)%nat;
    [apply sortByTime_ascending | exact IH].
Qed.

(** The keys of a registry filled by clicks on "+ Add Cue" are apart, and
    the keyboard map finds every cue under its key. *)
Lemma clicksAddCue_keyMap (times : list Q) :
  uniqueKeys (cuePoints (clicksAddCue times initial))
  /\ snd (buildKeyMap (cuePoints (clicksAddCue times initial))) = []
  /\ (forall (i : nat) (c : cue),
        cuePoints (clicksAddCue times initial) !! i = Some c ->
        fst (buildKeyMap (cuePoints (clicksAddCue times initial)))
          !! Str.toLowerCase (key c) = Some (c, i)).
Proof.
  destruct (clicksAddCue_keys times) as (_ & Hkeys & _).
  set (cues := cuePoints (clicksAddCue times initial)) in *.
  assert (Hlow : NoDup (map (fun c => Str.toLowerCase (key c)) cues)).
  { rewrite <- (map_map key Str.toLowerCase), (Permutation_map _ Hkeys),
      map_map.
    change (map ?f ?l) with (f <$> l). apply NoDup_fmap_2_strong.
    - intros i j _ _ H. apply getKeyForSlot_lower_inj. exact H.
    - apply NoDup_seq. }
  assert (Hne : Forall (fun c => key c <> ""%string) cues).
  { apply Forall_forall. intros c Hc.
    assert (Hk : key c ∈ map key cues)
      by (apply list_elem_of_In, in_map, list_elem_of_In; exact Hc).
    rewrite Hkeys in Hk. apply list_elem_of_In, in_map_iff in Hk.
    destruct Hk as (i & <- & _). apply truthy_nonempty, getKeyForSlot_truthy. }
  split.
  { unfold uniqueKeys, usedKeys. apply NoDup_filter.
    rewrite Hkeys. change (map ?f ?l) with (f <$> l).
    apply NoDup_fmap_2_strong; [| apply NoDup_seq].
    intros i j _ _ H. apply getKeyForSlot_lower_inj. rewrite H. reflexivity. }
  apply buildKeyMap_distinct; assumption.
Qed.

(** X22. A registry filled by clicks on "+ Add Cue" alone has one cue
    for each of the first sixteen clicks, in ascending order of time, and
    the keys of the slots filled, each once: no key is carried twice, the
    keyboard map reports no duplicate and maps the key of every cue to
    that cue. Clicks beyond the sixteenth add nothing. *)
Theorem grid_clicks_fill_slots_in_order :
  forall times : list Q,
    let cues := cuePoints (clicksAddCue times initial) in
    length cues = Nat.min (length times) 16
    /\ Permutation (map time cues) (take 16 times)
    /\ Permutation (map key cues) (map getKeyForSlot (seq 0 (length cues)))
    /\ ascending time cues
    /\ uniqueKeys cues
    /\ snd (buildKeyMap cues) = []
    /\ (forall (i : nat) (c : cue),
          cues !! i = Some c ->
          fst (buildKeyMap cues) !! Str.toLowerCase (key c) = Some (c, i)).
Proof.
  intros times cues. subst cues.
  destruct (clicksAddCue_keys times) as (Hlen & Hkeys & Htimes).
  destruct (clicksAddCue_keyMap times) as (Hu & Hdup & Hmap).
  split; [exact Hlen |]. split; [exact Htimes |]. split; [exact Hkeys |].
  split; [apply clicksAddCue_ascending |]. split; [exact Hu |].
  split; [exact Hdup | exact Hmap].
Qed.

End GridRegistry.

Section GridDuplicates.

Import CuePointEditor CueKeyboardMap CueRegistry CuePointGrid.
Import UnifiedVideoEditor.
Local Open Scope Q_scope.

(** X23. The grid does not keep the keys apart. A click on the empty slot
    behind the first empty one adds a cue with the key of the slot
    clicked; the cue takes the first empty place of the array, so that the
    next click on "+ Add Cue" finds that same slot as the first empty one
    and adds a second cue with the same key. The keyboard map reports the
    key as duplicate, and one of the two cues cannot be triggered by its
    key. *)
Theorem slot_click_then_add_repeats_key :
  forall (t1 t2 : Q) (s : state),
    (S (length (cuePoints s)) < 16)%nat ->
    let slot := S (length (cuePoints s)) in
    let cues := cuePoints (clickAddCue t2 (clickSlot t1 slot s)) in
    Permutation cues (cuePoints s ++ [slotCue t1 slot; slotCue t2 slot])
    /\ ~ uniqueKeys cues
    /\ Str.toLowerCase (getKeyForSlot slot) ∈ snd (buildKeyMap cues)
    /\ exists (i : nat) (c : cue),
         cues !! i = Some c /\ key c = getKeyForSlot slot
         /\ fst (buildKeyMap cues) !! Str.toLowerCase (key c)
            <> Some (c, i).
Proof.
  intros t1 t2 s Hlen slot cues.
  assert (Hs1 : cuePoints (clickSlot t1 slot s)
                = sortByTime time (cuePoints s ++ [slotCue t1 slot])).
  { unfold clickSlot, maxCueSlots.
    rewrite (proj2 (Nat.ltb_lt slot 16)) by exact Hlen.
    rewrite (lookup_ge_None_2 (cuePoints s) slot) by (subst slot; lia).
    reflexivity. }
  assert (Hl1 : length (cuePoints (clickSlot t1 slot s)) = slot).
  { rewrite Hs1, (Permutation_length (sortByTime_perm time _)), length_app.
    cbn [length]. subst slot. lia. }
  assert (Hperm : Permutation cues
                    (cuePoints s ++ [slotCue t1 slot; slotCue t2 slot])).
  { subst cues. rewrite clickAddCue_cues, Hl1.
    rewrite (proj2 (Nat.ltb_lt slot 16)) by exact Hlen.
    rewrite sortByTime_perm, Hs1, sortByTime_perm, <- app_assoc.
    reflexivity. }
  assert (Hkey : Str.truthy (getKeyForSlot slot) = true)
    by apply getKeyForSlot_truthy.
  assert (Hpair : exists i1 i2 : nat,
             i1 <> i2 /\ cues !! i1 = Some (slotCue t1 slot)
             /\ cues !! i2 = Some (slotCue t2 slot)).
  { symmetry in Hperm. apply Permutation_inj in Hperm as (_ & f & Hf & Hl).
    exists (f (length (cuePoints s))), (f (S (length (cuePoints s)))).
    split; [intros H; apply Hf in H; lia |].
    rewrite <- !Hl. split.
    - rewrite lookup_app_r by lia. rewrite Nat.sub_diag. reflexivity.
    - rewrite lookup_app_r by lia.
      replace (S (length (cuePoints s)) - length (cuePoints s))%nat
        with 1%nat by lia.
      reflexivity. }
  destruct Hpair as (i1 & i2 & Hne & Hi1 & Hi2).
  split; [exact Hperm |]. split; [| split].
  - intros Hu. apply (uniqueKeys_perm _ _ Hperm) in Hu.
    unfold uniqueKeys in Hu.
    rewrite usedKeys_app, !usedKeys_cons in Hu. cbn [key slotCue] in Hu.
    rewrite Hkey in Hu. apply NoDup_app in Hu as (_ & _ & Hu).
    cbn [app] in Hu. apply NoDup_cons in Hu as [Hu _]. apply Hu.
    apply elem_of_cons. left. reflexivity.
  - apply (buildKeyMap_reports_pair cues i1 i2 _ _ Hne Hi1 Hi2);
      first [apply truthy_nonempty; exact Hkey | reflexivity].
  - destruct (fst (buildKeyMap cues)
                !! Str.toLowerCase (getKeyForSlot slot))
      as [[c0 i0] |] eqn:Hm.
    + destruct (decide (i0 = i1)) as [-> | Hn].
      * exists i2, (slotCue t2 slot). split; [exact Hi2 |].
        split; [reflexivity |]. cbn [key slotCue]. rewrite Hm.
        intros [= _ H]. apply Hne. exact H.
      * exists i1, (slotCue t1 slot). split; [exact Hi1 |].
        split; [reflexivity |]. cbn [key slotCue]. rewrite Hm.
        intros [= _ H]. apply Hn. exact H.
    + exists i1, (slotCue t1 slot). split; [exact Hi1 |].
      split; [reflexivity |]. cbn [key slotCue]. rewrite Hm. discriminate.
Qed.

Lemma slot_click_then_add_repeats_key_witness :
  ~ uniqueKeys (cuePoints (clickAddCue 2 (clickSlot 1 1 initial))).
Proof.
  refine (proj1 (proj2 (slot_click_then_add_repeats_key 1 2 initial _))).
  cbn. lia.
Defined.

End GridDuplicates.

Section PlayerAndHook.

Import VideoSync.
Local Open Scope Q_scope.

(** What the editor knows of a player: whether it plays and, while it
    plays, its start time and offset; no start time while it does not. *)
Lemma stopAudio_mirror (p : WaveformPlayer.player) (h : refs) :
  let p' := fst (WaveformPlayer.stopAudio p) in
  let h' := fold_left WaveformPlayer.handlePlaybackStateChange
              (snd (WaveformPlayer.stopAudio p)) h in
  WaveformPlayer.isPlaying p' = false
  /\ isPlayingRef h' = false /\ audioStartTimeRef h' = None
  /\ WaveformPlayer.audioSourceRef p' = None.
Proof. cbn. repeat split. Qed.

Lemma startAudio_mirror (fails : WaveformPlayer.failure) (source : nat)
    (offset : Q) (p : WaveformPlayer.player) (h : refs) :
  WaveformPlayer.audioBufferRef p = true ->
  is_Some (WaveformPlayer.audioContextRef p) ->
  let p' := fst (WaveformPlayer.startAudio fails source offset p) in
  let h' := fold_left WaveformPlayer.handlePlaybackStateChange
              (snd (WaveformPlayer.startAudio fails source offset p)) h in
  isPlayingRef h' = WaveformPlayer.isPlaying p'
  /\ (WaveformPlayer.isPlaying p' = true ->
      audioStartTimeRef h' = WaveformPlayer.audioStartTimeRef p'
      /\ is_Some (WaveformPlayer.audioStartTimeRef p')
      /\ cueOffsetRef h' = WaveformPlayer.cueOffsetRef p'
      /\ is_Some (WaveformPlayer.audioSourceRef p'))
  /\ (WaveformPlayer.isPlaying p' = false ->
      audioStartTimeRef h' = None
      /\ WaveformPlayer.audioSourceRef p' = None).
Proof.
  intros Hb [ctx Hc]. unfold WaveformPlayer.startAudio. rewrite Hb, Hc.
  destruct fails; cbn; repeat split; try discriminate; eexists; reflexivity.
Qed.

Lemma step_mirror (o : WaveformPlayer.op) (p : WaveformPlayer.player)
    (h : refs) :
  (isPlayingRef h = WaveformPlayer.isPlaying p
   /\ (WaveformPlayer.isPlaying p = true ->
       audioStartTimeRef h = WaveformPlayer.audioStartTimeRef p
       /\ is_Some (WaveformPlayer.audioStartTimeRef p)
       /\ cueOffsetRef h = WaveformPlayer.cueOffsetRef p
       /\ is_Some (WaveformPlayer.audioSourceRef p))
   /\ (WaveformPlayer.isPlaying p = false ->
       audioStartTimeRef h = None
       /\ WaveformPlayer.audioSourceRef p = None)) ->
  let p' := fst (WaveformPlayer.step o p) in
  let h' := fold_left WaveformPlayer.handlePlaybackStateChange
              (snd (WaveformPlayer.step o p)) h in
  isPlayingRef h' = WaveformPlayer.isPlaying p'
  /\ (WaveformPlayer.isPlaying p' = true ->
      audioStartTimeRef h' = WaveformPlayer.audioStartTimeRef p'
      /\ is_Some (WaveformPlayer.audioStartTimeRef p')
      /\ cueOffsetRef h' = WaveformPlayer.cueOffsetRef p'
      /\ is_Some (WaveformPlayer.audioSourceRef p'))
  /\ (WaveformPlayer.isPlaying p' = false ->
      audioStartTimeRef h' = None
      /\ WaveformPlayer.audioSourceRef p' = None).
Proof.
  intros Inv.
  destruct o as [| hasBuffer | | now | resumeFails fails source
                 | fails source time | source |];
    cbn [WaveformPlayer.step].
  - unfold WaveformPlayer.initAudioContext.
    destruct (WaveformPlayer.audioContextRef p); exact Inv.
  - exact Inv.
  - exact Inv.
  - exact Inv.
  - unfold WaveformPlayer.togglePlayback.
    destruct (WaveformPlayer.audioBufferRef p) eqn:Hb; [| exact Inv].
    destruct (WaveformPlayer.audioContextRef p) as [ctx |] eqn:Hc;
      [| exact Inv].
    destruct (WaveformPlayer.isReady p); [| exact Inv].
    destruct resumeFails; [exact Inv |].
    destruct (WaveformPlayer.isPlaying p) eqn:Hp.
    + cbn. repeat split; discriminate.
    + apply startAudio_mirror; [exact Hb | rewrite Hc; eexists; reflexivity].
  - unfold WaveformPlayer.jumpToCue.
    destruct (WaveformPlayer.audioBufferRef p) eqn:Hb; [| exact Inv].
    destruct (WaveformPlayer.audioContextRef p) as [ctx |] eqn:Hc;
      [| exact Inv].
    apply startAudio_mirror; [exact Hb | rewrite Hc; eexists; reflexivity].
  - unfold WaveformPlayer.onended.
    destruct (WaveformPlayer.audioSourceRef p) as [current |] eqn:Hsrc;
      [| cbn [fst snd fold_left]; rewrite ?Hsrc; exact Inv].
    destruct (current =? source)%nat;
      [| cbn [fst snd fold_left]; rewrite ?Hsrc; exact Inv].
    cbn. repeat split; discriminate.
  - unfold WaveformPlayer.updateCurrentTime.
    destruct (WaveformPlayer.audioContextRef p); [| exact Inv].
    destruct (WaveformPlayer.audioStartTimeRef p) as [start |] eqn:Hst;
      [| cbn [fst snd fold_left]; rewrite ?Hst; exact Inv].
    destruct (JS.truthy_num start && WaveformPlayer.isPlaying p);
      cbn [fst snd fold_left]; rewrite ?Hst; exact Inv.
Qed.

Lemma run_mirror (ops : list WaveformPlayer.op) :
  forall (p : WaveformPlayer.player) (h : refs),
    (isPlayingRef h = WaveformPlayer.isPlaying p
     /\ (WaveformPlayer.isPlaying p = true ->
         audioStartTimeRef h = WaveformPlayer.audioStartTimeRef p
         /\ is_Some (WaveformPlayer.audioStartTimeRef p)
         /\ cueOffsetRef h = WaveformPlayer.cueOffsetRef p
         /\ is_Some (WaveformPlayer.audioSourceRef p))
     /\ (WaveformPlayer.isPlaying p = false ->
         audioStartTimeRef h = None
         /\ WaveformPlayer.audioSourceRef p = None)) ->
    let p' := fst (WaveformPlayer.run ops p) in
    let h' := fold_left WaveformPlayer.handlePlaybackStateChange
                (snd (WaveformPlayer.run ops p)) h in
    isPlayingRef h' = WaveformPlayer.isPlaying p'
    /\ (WaveformPlayer.isPlaying p' = true ->
        audioStartTimeRef h' = WaveformPlayer.audioStartTimeRef p'
        /\ is_Some (WaveformPlayer.audioStartTimeRef p')
        /\ cueOffsetRef h' = WaveformPlayer.cueOffsetRef p'
        /\ is_Some (WaveformPlayer.audioSourceRef p'))
    /\ (WaveformPlayer.isPlaying p' = false ->
        audioStartTimeRef h' = None
        /\ WaveformPlayer.audioSourceRef p' = None).
Proof.
  induction ops as [| o ops IH]; intros p h Inv; [exact Inv |].
  cbn [WaveformPlayer.run].
  pose proof (step_mirror o p h Inv) as Hs. cbn zeta in Hs.
  destruct (WaveformPlayer.step o p) as [p1 calls]. cbn [fst snd] in Hs.
  specialize (IH p1 _ Hs). cbn zeta in IH.
  destruct (WaveformPlayer.run ops p1) as [p2 more]. cbn [fst snd] in *.
  rewrite fold_left_app. exact IH.
Qed.

Lemma fold_calls_kept (calls : list WaveformPlayer.playbackState) :
  forall h : refs,
    videoElementRef (fold_left WaveformPlayer.handlePlaybackStateChange calls h)
    = videoElementRef h.
Proof.
  induction calls as [| c calls IH]; intros h; [reflexivity |].
  cbn [fold_left]. rewrite IH. reflexivity.
Qed.

(** A player that plays has a context and a buffer. *)
Lemma step_playing_ready (o : WaveformPlayer.op) (p : WaveformPlayer.player) :
  (WaveformPlayer.isPlaying p = true ->
   is_Some (WaveformPlayer.audioContextRef p)
   /\ WaveformPlayer.audioBufferRef p = true) ->
  WaveformPlayer.isPlaying (fst (WaveformPlayer.step o p)) = true ->
  is_Some (WaveformPlayer.audioContextRef (fst (WaveformPlayer.step o p)))
  /\ WaveformPlayer.audioBufferRef (fst (WaveformPlayer.step o p)) = true.
Proof.
  intros Inv.
  destruct o as [| hasBuffer | | now | resumeFails fails source
                 | fails source time | source |];
    cbn [WaveformPlayer.step].
  - unfold WaveformPlayer.initAudioContext.
    destruct (WaveformPlayer.audioContextRef p) eqn:Hc.
    + cbn [fst]. rewrite Hc. exact Inv.
    + cbn. intros Hp. split; [eexists; reflexivity | apply Inv; exact Hp].
  - cbn. intros Hp. destruct (Inv Hp) as [Hc ->]. split; [exact Hc |].
    apply orb_true_r.
  - exact Inv.
  - cbn. intros Hp. destruct (Inv Hp) as [[c Hc] Hb]. rewrite Hc.
    split; [eexists; reflexivity | exact Hb].
  - unfold WaveformPlayer.togglePlayback, WaveformPlayer.startAudio.
    destruct (WaveformPlayer.audioBufferRef p) eqn:Hb;
      [| cbn [fst]; rewrite ?Hb; exact Inv].
    destruct (WaveformPlayer.audioContextRef p) as [ctx |] eqn:Hc;
      [| cbn [fst]; rewrite ?Hb, ?Hc; exact Inv].
    destruct (WaveformPlayer.isReady p);
      [| cbn [fst]; rewrite ?Hb, ?Hc; exact Inv].
    destruct resumeFails; [cbn [fst]; rewrite ?Hb, ?Hc; exact Inv |].
    destruct (WaveformPlayer.isPlaying p); [cbn; discriminate |].
    intros _. destruct fails; cbn [fst WaveformPlayer.stopAudio
      WaveformPlayer.audioContextRef WaveformPlayer.audioBufferRef];
      rewrite Hc, Hb; (split; [eexists; reflexivity | reflexivity]).
  - unfold WaveformPlayer.jumpToCue, WaveformPlayer.startAudio.
    destruct (WaveformPlayer.audioBufferRef p) eqn:Hb;
      [| cbn [fst]; rewrite ?Hb; exact Inv].
    destruct (WaveformPlayer.audioContextRef p) as [ctx |] eqn:Hc;
      [| cbn [fst]; rewrite ?Hb, ?Hc; exact Inv].
    intros _. destruct fails; cbn [fst WaveformPlayer.stopAudio
      WaveformPlayer.audioContextRef WaveformPlayer.audioBufferRef];
      rewrite Hc, Hb; (split; [eexists; reflexivity | reflexivity]).
  - unfold WaveformPlayer.onended.
    destruct (WaveformPlayer.audioSourceRef p) as [current |];
      [| exact Inv].
    destruct (current =? source)%nat; [cbn; discriminate | exact Inv].
  - unfold WaveformPlayer.updateCurrentTime.
    destruct (WaveformPlayer.audioContextRef p) as [ctx |] eqn:Hc;
      [| cbn [fst]; rewrite ?Hc; exact Inv].
    destruct (WaveformPlayer.audioStartTimeRef p) as [start |];
      [| cbn [fst]; rewrite ?Hc; exact Inv].
    destruct (JS.truthy_num start && WaveformPlayer.isPlaying p) eqn:E;
      [| cbn [fst]; rewrite ?Hc; exact Inv].
    cbn [fst WaveformPlayer.isPlaying WaveformPlayer.audioContextRef
         WaveformPlayer.audioBufferRef]. exact Inv.
Qed.

Lemma run_playing_ready (ops : list WaveformPlayer.op) :
  forall p : WaveformPlayer.player,
    (WaveformPlayer.isPlaying p = true ->
     is_Some (WaveformPlayer.audioContextRef p)
     /\ WaveformPlayer.audioBufferRef p = true) ->
    WaveformPlayer.isPlaying (fst (WaveformPlayer.run ops p)) = true ->
    is_Some (WaveformPlayer.audioContextRef (fst (WaveformPlayer.run ops p)))
    /\ WaveformPlayer.audioBufferRef (fst (WaveformPlayer.run ops p)) = true.
Proof.
  induction ops as [| o ops IH]; intros p Inv; [exact Inv |].
  cbn [WaveformPlayer.run].
  pose proof (step_playing_ready o p Inv) as Hs.
  destruct (WaveformPlayer.step o p) as [p1 calls]. cbn [fst] in Hs.
  specialize (IH p1 Hs).
  destruct (WaveformPlayer.run ops p1) as [p2 more]. exact IH.
Qed.

Lemma mount_mirror (v : option video) :
  isPlayingRef (mount v None 0 None false)
  = WaveformPlayer.isPlaying WaveformPlayer.mount
  /\ (WaveformPlayer.isPlaying WaveformPlayer.mount = true ->
      audioStartTimeRef (mount v None 0 None false)
      = WaveformPlayer.audioStartTimeRef WaveformPlayer.mount
      /\ is_Some (WaveformPlayer.audioStartTimeRef WaveformPlayer.mount)
      /\ cueOffsetRef (mount v None 0 None false)
         = WaveformPlayer.cueOffsetRef WaveformPlayer.mount
      /\ is_Some (WaveformPlayer.audioSourceRef WaveformPlayer.mount))
  /\ (WaveformPlayer.isPlaying WaveformPlayer.mount = false ->
      audioStartTimeRef (mount v None 0 None false) = None
      /\ WaveformPlayer.audioSourceRef WaveformPlayer.mount = None).
Proof. cbn. repeat split; discriminate. Qed.

(** X24. The editor's view of the playback stays true to the player.
    After every run of a player from its mount, with the calls of
    [onPlaybackStateChange] handed on to the video hook: the hook is told
    "playing" exactly when the player plays; while it plays, the hook has
    the start time and the offset of the player, and the player has a
    source, a buffer and a context; while it does not, the hook has no
    start time, so that it expects the video at 0, and the player has no
    source, even where a failed start has left a start time in the
    player's ref. *)
Theorem editor_mirrors_player :
  forall (ops : list WaveformPlayer.op) (v : option video),
    let p := fst (WaveformPlayer.run ops WaveformPlayer.mount) in
    let h := WaveformPlayer.hookAfter
               (snd (WaveformPlayer.run ops WaveformPlayer.mount)) p
               (mount v None 0 None false) in
    isPlayingRef h = WaveformPlayer.isPlaying p
    /\ contextRef h = WaveformPlayer.audioContextRef p
    /\ videoElementRef h = v
    /\ (WaveformPlayer.isPlaying p = true ->
        audioStartTimeRef h = WaveformPlayer.audioStartTimeRef p
        /\ is_Some (WaveformPlayer.audioStartTimeRef p)
        /\ cueOffsetRef h = WaveformPlayer.cueOffsetRef p
        /\ is_Some (WaveformPlayer.audioSourceRef p)
        /\ is_Some (WaveformPlayer.audioContextRef p)
        /\ WaveformPlayer.audioBufferRef p = true)
    /\ (WaveformPlayer.isPlaying p = false ->
        audioStartTimeRef h = None
        /\ WaveformPlayer.audioSourceRef p = None
        /\ calculateExpectedVideoTime h = 0).
Proof.
  intros ops v p h. subst p h. unfold WaveformPlayer.hookAfter.
  destruct (run_mirror ops _ _ (mount_mirror v)) as (Hp & Hon & Hoff).
  cbn [set_context isPlayingRef contextRef videoElementRef
       audioStartTimeRef cueOffsetRef].
  split; [exact Hp |]. split; [reflexivity |].
  split; [apply fold_calls_kept |]. split.
  - intros Hplay. destruct (Hon Hplay) as (H1 & H2 & H3 & H4).
    destruct (run_playing_ready ops WaveformPlayer.mount) as [H5 H6];
      [cbn; discriminate | exact Hplay |].
    repeat split; assumption.
  - intros Hplay. destruct (Hoff Hplay) as (H1 & H2).
    split; [exact H1 |]. split; [exact H2 |].
    unfold calculateExpectedVideoTime.
    cbn [set_context contextRef audioStartTimeRef]. rewrite H1.
    destruct (WaveformPlayer.audioContextRef _); reflexivity.
Qed.

(** X25. The time the player shows is the time the hook expects of the
    video. After every run of a player, with its calls handed on to the
    hook: whenever [updateCurrentTime] hands a time to [onTimeUpdate],
    the hook is playing and expects the video at that time, raised to 0.
    A player that plays reports a time exactly when its start time is not
    0: a playback started before the audio clock has moved is never
    reported, while the hook expects the video at offset plus clock. *)
Theorem shown_time_is_expected_video_time :
  forall (ops : list WaveformPlayer.op) (v : option video),
    let p := fst (WaveformPlayer.run ops WaveformPlayer.mount) in
    let h := WaveformPlayer.hookAfter
               (snd (WaveformPlayer.run ops WaveformPlayer.mount)) p
               (mount v None 0 None false) in
    (forall t : Q,
        snd (WaveformPlayer.updateCurrentTime p) = Some t ->
        isPlayingRef h = true
        /\ calculateExpectedVideoTime h = JS.max 0 t)
    /\ (WaveformPlayer.isPlaying p = true ->
        exists (ctx : context) (startTime : Q),
          WaveformPlayer.audioContextRef p = Some ctx
          /\ WaveformPlayer.audioStartTimeRef p = Some startTime
          /\ calculateExpectedVideoTime h
             = JS.max 0 (WaveformPlayer.cueOffsetRef p
                         + (ctx_currentTime ctx - startTime))
          /\ snd (WaveformPlayer.updateCurrentTime p)
             = if Qeq_bool startTime 0 then None
               else Some (WaveformPlayer.cueOffsetRef p
                          + (ctx_currentTime ctx - startTime))).
Proof.
  intros ops v p h. subst p h. unfold WaveformPlayer.hookAfter.
  destruct (run_mirror ops _ _ (mount_mirror v)) as (Hp & Hon & _).
  pose proof (run_playing_ready ops WaveformPlayer.mount) as Hready.
  set (p := fst (WaveformPlayer.run ops WaveformPlayer.mount)) in *.
  set (h0 := fold_left WaveformPlayer.handlePlaybackStateChange
               (snd (WaveformPlayer.run ops WaveformPlayer.mount))
               (mount v None 0 None false)) in *.
  assert (Hplaying : WaveformPlayer.isPlaying p = true ->
            exists (ctx : context) (startTime : Q),
              WaveformPlayer.audioContextRef p = Some ctx
              /\ WaveformPlayer.audioStartTimeRef p = Some startTime
              /\ calculateExpectedVideoTime
                   (set_context h0 (WaveformPlayer.audioContextRef p))
                 = JS.max 0 (WaveformPlayer.cueOffsetRef p
                             + (ctx_currentTime ctx - startTime))
              /\ snd (WaveformPlayer.updateCurrentTime p)
                 = if Qeq_bool startTime 0 then None
                   else Some (WaveformPlayer.cueOffsetRef p
                              + (ctx_currentTime ctx - startTime))).
  { intros Hplay. destruct (Hon Hplay) as (Hst & [startTime Hs] & Hoff & _).
    destruct Hready as [[ctx Hc] _]; [cbn; discriminate | exact Hplay |].
    exists ctx, startTime. split; [exact Hc |]. split; [exact Hs |].
    unfold calculateExpectedVideoTime, WaveformPlayer.updateCurrentTime.
    cbn [set_context contextRef audioStartTimeRef cueOffsetRef].
    rewrite Hc, Hst, Hs, Hoff, Hplay. unfold JS.truthy_num.
    split; [reflexivity |].
    destruct (Qeq_bool startTime 0); reflexivity. }
  split; [| exact Hplaying].
  intros t Ht.
  assert (Hplay : WaveformPlayer.isPlaying p = true).
  { unfold WaveformPlayer.updateCurrentTime in Ht.
    destruct (WaveformPlayer.audioContextRef p); [| discriminate].
    destruct (WaveformPlayer.audioStartTimeRef p); [| discriminate].
    destruct (WaveformPlayer.isPlaying p); [reflexivity |].
    rewrite andb_false_r in Ht. discriminate. }
  split; [cbn [set_context isPlayingRef]; rewrite Hp; exact Hplay |].
  destruct (Hplaying Hplay) as (ctx & startTime & _ & _ & He & Hu).
  rewrite He. rewrite Hu in Ht.
  destruct (Qeq_bool startTime 0); [discriminate |].
  injection Ht as <-. reflexivity.
Qed.

Lemma shown_time_is_expected_video_time_witness :
  calculateExpectedVideoTime
    (WaveformPlayer.hookAfter
       (snd (WaveformPlayer.run
               [WaveformPlayer.InitContext; WaveformPlayer.Ready true;
                WaveformPlayer.Clock 2;
                WaveformPlayer.Jump WaveformPlayer.NoFailure 1 30;
                WaveformPlayer.Clock 5] WaveformPlayer.mount))
       (fst (WaveformPlayer.run
               [WaveformPlayer.InitContext; WaveformPlayer.Ready true;
                WaveformPlayer.Clock 2;
                WaveformPlayer.Jump WaveformPlayer.NoFailure 1 30;
                WaveformPlayer.Clock 5] WaveformPlayer.mount))
       (mount None None 0 None false))
  = JS.max 0 (30 + (5 - 2)).
Proof.
  apply (proj1 (shown_time_is_expected_video_time
                  [WaveformPlayer.InitContext; WaveformPlayer.Ready true;
                   WaveformPlayer.Clock 2;
                   WaveformPlayer.Jump WaveformPlayer.NoFailure 1 30;
                   WaveformPlayer.Clock 5] None) (30 + (5 - 2))).
  vm_compute. reflexivity.
Defined.

End PlayerAndHook.

Section Spacebar.

Import CueKeyboardMap.

(** X26. The space bar toggles the playback for exactly the key events
    that the cue keys are not deaf to: [handleSpacebarPress] acts on an
    event with the code "Space" exactly when [shouldIgnoreEvent] of an
    enabled keyboard map with the default excluded targets lets the event
    pass. Neither looks at the Shift key. *)
Theorem spacebar_filter_is_cue_key_filter :
  forall (code : string) (event : keyEvent),
    (WaveformPlayer.handleSpacebarPress code event = true
     <-> code = "Space"%string
         /\ shouldIgnoreEvent true excludeTargets_default event = false)
    /\ (forall shift : bool,
          WaveformPlayer.handleSpacebarPress code
            (mkEvent (ev_key event) (ctrlKey event) (altKey event)
               (metaKey event) shift (ev_target event))
          = WaveformPlayer.handleSpacebarPress code event).
Proof.
  intros code event. split; [| intros shift; reflexivity].
  unfold WaveformPlayer.handleSpacebarPress, shouldIgnoreEvent,
    excludeTargets_default.
  cbn [negb].
  destruct (String.eqb_spec code "Space") as [-> | Hne]; cbn [negb].
  - destruct (ctrlKey event || altKey event || metaKey event);
      destruct (ev_target event) as [t |]; cbn [negb];
      try (destruct (bool_decide _); try destruct (isContentEditable t));
      split; intros H; try discriminate; try (destruct H; discriminate);
      try (split; reflexivity); try reflexivity.
  - split; [discriminate | intros [H _]; contradiction].
Qed.

End Spacebar.

Section HookFrame.

Import VideoSync SyncStatus.
Local Open Scope Q_scope.

(** What a call of [correctVideoTime] leaves alone. *)
Lemma correctVideoTime_frame (th now : Q) (throws : bool) (r : refs) :
  (audioStartTimeRef (snd (correctVideoTime th now throws r))
   = audioStartTimeRef r
   /\ cueOffsetRef (snd (correctVideoTime th now throws r)) = cueOffsetRef r
   /\ contextRef (snd (correctVideoTime th now throws r)) = contextRef r
   /\ isPlayingRef (snd (correctVideoTime th now throws r)) = isPlayingRef r)
  /\ (fst (correctVideoTime th now throws r) = false ->
      videoElementRef (snd (correctVideoTime th now throws r))
      = videoElementRef r)
  /\ option_map video_duration
       (videoElementRef (snd (correctVideoTime th now throws r)))
     = option_map video_duration (videoElementRef r).
Proof.
  unfold correctVideoTime, calculateDrift.
  destruct (videoElementRef r) as [v |] eqn:Hv;
    [| cbn; rewrite ?Hv; repeat split].
  destruct (contextRef r) as [c |] eqn:Hc;
    [| cbn; rewrite ?Hv; repeat split; assumption].
  cbv zeta.
  destruct (JS.Qltb (now - _) _);
    [cbn; rewrite ?Hv, ?Hc; repeat split; assumption |].
  destruct (JS.Qltb th _);
    [| cbn; rewrite ?Hv, ?Hc; repeat split; assumption].
  destruct (_ && _); [| cbn; rewrite ?Hv, ?Hc; repeat split; assumption].
  destruct throws; cbn; rewrite ?Hv, ?Hc; repeat split;
    first [assumption | discriminate].
Qed.

Lemma periodicDriftCheck_frame (th now : Q) (throws : bool) (r : refs) :
  (audioStartTimeRef (snd (periodicDriftCheck th now throws r))
   = audioStartTimeRef r
   /\ cueOffsetRef (snd (periodicDriftCheck th now throws r)) = cueOffsetRef r
   /\ contextRef (snd (periodicDriftCheck th now throws r)) = contextRef r
   /\ isPlayingRef (snd (periodicDriftCheck th now throws r))
      = isPlayingRef r)
  /\ (fst (periodicDriftCheck th now throws r) = false ->
      videoElementRef (snd (periodicDriftCheck th now throws r))
      = videoElementRef r)
  /\ option_map video_duration
       (videoElementRef (snd (periodicDriftCheck th now throws r)))
     = option_map video_duration (videoElementRef r).
Proof.
  unfold periodicDriftCheck. cbv zeta.
  set (r0 := set_active r (isActiveRef r) false).
  destruct (negb (isActiveRef r0) || negb (isPlayingRef r0));
    [repeat split |].
  assert (H0 : audioStartTimeRef (snd (calculateDrift r0))
               = audioStartTimeRef r
               /\ cueOffsetRef (snd (calculateDrift r0)) = cueOffsetRef r
               /\ contextRef (snd (calculateDrift r0)) = contextRef r
               /\ isPlayingRef (snd (calculateDrift r0)) = isPlayingRef r
               /\ videoElementRef (snd (calculateDrift r0))
                  = videoElementRef r).
  { unfold calculateDrift. subst r0. cbn [set_active videoElementRef].
    destruct (videoElementRef r) eqn:Hv; cbn; rewrite ?Hv; repeat split. }
  destruct (calculateDrift r0) as [drift r1]. cbn [snd] in H0.
  destruct H0 as (H1 & H2 & H3 & H4 & H5).
  pose proof (correctVideoTime_frame th now throws r1)
    as ((C1 & C2 & C3 & C4) & C5 & C6).
  destruct (JS.Qltb (th * 2) (JS.abs drift)).
  - destruct (correctVideoTime th now throws r1) as [applied r2].
    cbn [fst snd] in *.
    destruct (isActiveRef r2 && isPlayingRef r2); cbn [fst snd set_active
      audioStartTimeRef cueOffsetRef contextRef isPlayingRef videoElementRef];
      (split; [repeat split; congruence |]);
      (split; [intros Hf; rewrite (C5 Hf); exact H5 | rewrite C6, H5;
                                                       reflexivity]).
  - destruct (isActiveRef r1 && isPlayingRef r1); cbn [fst snd set_active
      audioStartTimeRef cueOffsetRef contextRef isPlayingRef videoElementRef];
      (split; [repeat split; assumption |]);
      (split; [intros _; exact H5 | rewrite H5; reflexivity]).
Qed.

Lemma lifecycleEffect_frame (r : refs) :
  audioStartTimeRef (lifecycleEffect r) = audioStartTimeRef r
  /\ cueOffsetRef (lifecycleEffect r) = cueOffsetRef r
  /\ contextRef (lifecycleEffect r) = contextRef r
  /\ isPlayingRef (lifecycleEffect r) = isPlayingRef r
  /\ videoElementRef (lifecycleEffect r) = videoElementRef r.
Proof.
  destruct r as [v st off c p last s a t].
  unfold lifecycleEffect, stopSync, startSync.
  destruct a, p, v, c, st; cbn; repeat split.
Qed.

Lemma step_frame (th : Q) (o : op) (r : refs) :
  (hook_call o = true ->
   audioStartTimeRef (snd (step th o r)) = audioStartTimeRef r
   /\ cueOffsetRef (snd (step th o r)) = cueOffsetRef r
   /\ contextRef (snd (step th o r)) = contextRef r
   /\ isPlayingRef (snd (step th o r)) = isPlayingRef r)
  /\ (keeps_element o = true ->
      (fst (step th o r) = false ->
       videoElementRef (snd (step th o r)) = videoElementRef r)
      /\ option_map video_duration (videoElementRef (snd (step th o r)))
         = option_map video_duration (videoElementRef r)).
Proof.
  destruct o as [now t | now t | now t | start offset now t | v | c | p |];
    cbn [step hook_call keeps_element].
  - pose proof (correctVideoTime_frame th now t r) as (H1 & H2 & H3).
    split; intros _; [exact H1 | split; assumption].
  - pose proof (periodicDriftCheck_frame th now t r) as (H1 & H2 & H3).
    split; intros _; [exact H1 | split; assumption].
  - unfold forceSync.
    pose proof (correctVideoTime_frame th now t r) as (H1 & H2 & H3).
    destruct (videoElementRef r) eqn:Hv; [| repeat split; cbn; rewrite Hv;
                                              reflexivity].
    destruct (contextRef r) eqn:Hc; [| repeat split; cbn; rewrite ?Hv, ?Hc;
                                       reflexivity].
    split; intros _; [exact H1 | split; assumption].
  - split; [discriminate |]. intros _. unfold jump, cueChangeEffect, forceSync.
    set (r1 := if negb (sameStart (audioStartTimeRef r) start)
               then lifecycleEffect (set_session r start offset)
               else set_session r start offset).
    assert (Hv1 : videoElementRef r1 = videoElementRef r).
    { subst r1. destruct (negb _); [| reflexivity].
      destruct (lifecycleEffect_frame (set_session r start offset))
        as (_ & _ & _ & _ & H).
      rewrite H. reflexivity. }
    pose proof (correctVideoTime_frame th now t r1) as (_ & H2 & H3).
    destruct (isPlayingRef r1); [| cbn [fst snd]; rewrite Hv1; split;
                                   [intros _ |]; reflexivity].
    destruct (videoElementRef r1) eqn:Hv; [| cbn [fst snd]; rewrite Hv, <- Hv1;
                                             split; [intros _ |]; reflexivity].
    destruct (contextRef r1); [| cbn [fst snd]; rewrite Hv, <- Hv1;
                                 split; [intros _ |]; reflexivity].
    rewrite <- Hv1. split; [exact H2 | exact H3].
  - split; discriminate.
  - split; [discriminate |]. intros _. split; [intros _ |]; reflexivity.
  - split; [discriminate |]. intros _. split; [intros _ |]; reflexivity.
  - destruct (lifecycleEffect_frame r) as (H1 & H2 & H3 & H4 & H5).
    cbn [fst snd]. split; intros _; [repeat split; assumption |].
    rewrite H5. split; [intros _ |]; reflexivity.
Qed.

Lemma run_step (th : Q) (o : op) (ops : list op) (r : refs) :
  run th (o :: ops) r
  = (match fst (step th o r), op_now o with
     | true, Some now => now :: fst (run th ops (snd (step th o r)))
     | _, _ => fst (run th ops (snd (step th o r)))
     end,
     snd (run th ops (snd (step th o r)))).
Proof.
  cbn [run]. destruct (step th o r) as [b r1]. cbn [fst snd].
  destruct (run th ops r1) as [log r2]. reflexivity.
Qed.

Lemma step_applied_now (th : Q) (o : op) (r : refs) :
  fst (step th o r) = true -> is_Some (op_now o).
Proof.
  destruct o; cbn [step op_now fst]; try discriminate;
    intros _; eexists; reflexivity.
Qed.

(** X27. The hook writes nothing but the position of the element, and
    that only by a correction. Over every run of calls of the hook
    (corrections, watchdog ticks, forced syncs, lifecycle effects), the
    start time, the offset, the context and the playing flag are as they
    were. Over every run in which the element is not replaced, the
    duration of the element is as it was, and so is the whole element if
    no correction was applied. *)
Theorem hook_moves_element_only_by_correction :
  forall (th : Q) (ops : list op) (r : refs),
    let log := fst (run th ops r) in
    let r' := snd (run th ops r) in
    (forallb hook_call ops = true ->
     audioStartTimeRef r' = audioStartTimeRef r
     /\ cueOffsetRef r' = cueOffsetRef r
     /\ contextRef r' = contextRef r
     /\ isPlayingRef r' = isPlayingRef r)
    /\ (forallb keeps_element ops = true ->
        option_map video_duration (videoElementRef r')
        = option_map video_duration (videoElementRef r)
        /\ (log = [] -> videoElementRef r' = videoElementRef r)).
Proof.
  intros th ops. induction ops as [| o ops IH]; intros r log r';
    subst log r'.
  - cbn. repeat split.
  - rewrite run_step. cbn [fst snd forallb].
    destruct (step_frame th o r) as (Hcall & Helem).
    specialize (IH (snd (step th o r))). cbn zeta in IH.
    destruct IH as (IHcall & IHelem).
    split.
    + intros H. apply andb_true_iff in H as [Ho Hops].
      destruct (Hcall Ho) as (H1 & H2 & H3 & H4).
      destruct (IHcall Hops) as (I1 & I2 & I3 & I4).
      repeat split; congruence.
    + intros H. apply andb_true_iff in H as [Ho Hops].
      destruct (Helem Ho) as (Hsame & Hdur).
      destruct (IHelem Hops) as (Idur & Isame).
      split; [congruence |].
      destruct (fst (step th o r)) eqn:Hb.
      * destruct (step_applied_now th o r Hb) as [now Hnow]. rewrite Hnow.
        discriminate.
      * intros Hlog. rewrite <- (Hsame eq_refl). apply Isame.
        destruct (op_now o); exact Hlog.
Qed.

Lemma hook_moves_element_only_by_correction_witness :
  videoElementRef
    (snd (run driftThreshold_default
            [Correct 1000 false; Periodic 1050 false; Lifecycle]
            (Scenario.playing (mkVideo (2002 # 100) (Some 120)) 15 20 15 0)))
  = Some (mkVideo (2002 # 100) (Some 120)).
Proof.
  apply (proj2 (proj2 (hook_moves_element_only_by_correction
                         driftThreshold_default
                         [Correct 1000 false; Periodic 1050 false; Lifecycle]
                         (Scenario.playing (mkVideo (2002 # 100) (Some 120))
                            15 20 15 0)) eq_refl)).
  vm_compute. reflexivity.
Defined.

End HookFrame.

Section CueKeyToVideo.

Import CuePointEditor CueKeyboardMap.
Local Open Scope Q_scope.

(** X28. From the key to the video. In the editor, with cues added by
    clicks on "+ Add Cue": a first press of the key of a cue, in either
    letter case, on an event the filter lets pass, hands that cue and its
    time to [handleTriggerCue]; on a player with a buffer and a context
    the jump starts the audio at the cue time, and the hook, told of it,
    is playing with the context's clock as start time and the cue time as
    offset, and expects the video at the cue time. *)
Theorem cue_key_puts_hook_at_cue :
  forall (times : list Q) (i : nat) (c : cue) (event : keyEvent) (now : Z)
         (p : WaveformPlayer.player) (ctx : VideoSync.context)
         (source : nat) (h : VideoSync.refs),
    let cues :=
      UnifiedVideoEditor.cuePoints
        (UnifiedVideoEditor.clicksAddCue times UnifiedVideoEditor.initial) in
    cues !! i = Some c ->
    Str.toLowerCase (ev_key event) = Str.toLowerCase (key c) ->
    shouldIgnoreEvent true excludeTargets_default event = false ->
    WaveformPlayer.audioBufferRef p = true ->
    WaveformPlayer.audioContextRef p = Some ctx ->
    let jumped :=
      WaveformPlayer.handleTriggerCue true WaveformPlayer.NoFailure source
        (time c) p in
    let h' := WaveformPlayer.hookAfter (snd jumped) (fst jumped) h in
    (exists keys' : refs,
        handleKeyPress true debounceMs_editor excludeTargets_default event
          now (install true cues mount)
        = (Triggered (time c) (c, i), true, keys'))
    /\ WaveformPlayer.isPlaying (fst jumped) = true
    /\ WaveformPlayer.audioSourceRef (fst jumped) = Some source
    /\ VideoSync.isPlayingRef h' = true
    /\ VideoSync.audioStartTimeRef h' = Some (VideoSync.ctx_currentTime ctx)
    /\ VideoSync.cueOffsetRef h' = time c
    /\ VideoSync.contextRef h' = Some ctx
    /\ VideoSync.calculateExpectedVideoTime h' == JS.max 0 (time c).
Proof.
  intros times i c event now p ctx source h cues Hi Hkey Hpass Hb Hc
    jumped h'.
  destruct (clicksAddCue_keyMap times) as (_ & _ & Hmap).
  split.
  - eexists. unfold handleKeyPress. rewrite Hpass.
    subst cues. unfold install. cbn [keyMapRef lastTriggerRef mount].
    rewrite Hkey, (Hmap i c Hi), lookup_empty.
    cbn [debounced fst]. reflexivity.
  - subst h' jumped.
    unfold WaveformPlayer.handleTriggerCue, WaveformPlayer.jumpToCue,
      WaveformPlayer.startAudio, WaveformPlayer.hookAfter.
    rewrite Hb, Hc. cbn. rewrite Hc. repeat split.
    unfold VideoSync.calculateExpectedVideoTime. cbn.
    apply Q.max_compat; [reflexivity | ring].
Qed.

End CueKeyToVideo.

Lemma cue_key_puts_hook_at_cue_witness :
  VideoSync.calculateExpectedVideoTime
    (WaveformPlayer.hookAfter
       (snd (WaveformPlayer.handleTriggerCue true WaveformPlayer.NoFailure 1
               (CuePointEditor.time (CuePointGrid.slotCue 30 0))
               (WaveformPlayer.mkPlayer (Some (VideoSync.mkContext 2)) true
                  None None 0 true false 0)))
       (fst (WaveformPlayer.handleTriggerCue true WaveformPlayer.NoFailure 1
               (CuePointEditor.time (CuePointGrid.slotCue 30 0))
               (WaveformPlayer.mkPlayer (Some (VideoSync.mkContext 2)) true
                  None None 0 true false 0)))
       (VideoSync.mount None None 0 None false))
  == JS.max 0 (CuePointEditor.time (CuePointGrid.slotCue 30 0)).
Proof.
  refine (proj2 (proj2 (proj2 (proj2 (proj2 (proj2 (proj2
    (cue_key_puts_hook_at_cue [30%Q] 0 (CuePointGrid.slotCue 30 0)
       (CueKeyboardMap.mkEvent "1" false false false false Scenario.body)
       1000
       (WaveformPlayer.mkPlayer (Some (VideoSync.mkContext 2)) true
          None None 0 true false 0)
       (VideoSync.mkContext 2) 1 (VideoSync.mount None None 0 None false)
       _ _ _ _ _)))))))).
  - vm_compute. reflexivity.
  - vm_compute. reflexivity.
  - vm_compute. reflexivity.
  - reflexivity.
  - reflexivity.
Defined.
